(** * Keyword detection engine (detector/keyword_matcher.py)

    A shallow embedding of [KeywordMatcher] and of the Python built-ins it
    relies on, followed by the properties of the detection pipeline:
    normalisation, index-map translation, the two scan strategies, the
    secondary and false-positive filters and the overlap resolution. *)

From Stdlib Require Import List Arith Bool Lia NArith ZArith.
From Stdlib Require Ascii String.
Import String.StringSyntax.
From Stdlib Require Import Sorting.Sorted Permutation.
Import ListNotations.

Set Default Proof Using "Type".

(* ================================================================== *)
(** * Python values used by the engine *)
(* ================================================================== *)

Module Py.

(** A Python [str] is a sequence of Unicode code points. *)
Definition char := N.
Definition str := list char.

(** ASCII literals of the source, as code points. *)
Definition lit (s : String.string) : str :=
  map Ascii.N_of_ascii (String.list_ascii_of_string s).
Arguments lit s%_string_scope.

(** Hangul syllables of the marker patterns. *)
Definition DI : char := 46356%N.  (* U+B514 *)
Definition BI : char := 48708%N.  (* U+BE44 *)
Definition A_ : char := 50500%N.  (* U+C544 *)
Definition I_ : char := 51060%N.  (* U+C774 *)

Fixpoint str_eqb (a b : str) : bool :=
  match a, b with
  | [], [] => true
  | x :: a', y :: b' => N.eqb x y && str_eqb a' b'
  | _, _ => false
  end.

(** [hay.startswith(needle)] *)
Fixpoint prefix_b (needle hay : str) : bool :=
  match needle, hay with
  | [], _ => true
  | x :: n', y :: h' => N.eqb x y && prefix_b n' h'
  | _ :: _, [] => false
  end.

(** [hay] is the suffix that starts at absolute index [i]. *)
Fixpoint find_go (needle hay : str) (i : nat) : option nat :=
  if prefix_b needle hay then Some i
  else match hay with
       | [] => None
       | _ :: h' => find_go needle h' (S i)
       end.

(** [hay.find(needle, start)], with [None] for -1. *)
Definition str_find (needle hay : str) (start : nat) : option nat :=
  if length hay <? start then None
  else find_go needle (skipn start hay) start.

(** [needle in hay] *)
Definition str_contains (needle hay : str) : bool :=
  match str_find needle hay 0 with Some _ => true | None => false end.

(** [s[a:b]] for non-negative bounds: out-of-range bounds are clamped and
    an inverted range is empty. *)
Definition slice (s : str) (a b : nat) : str := firstn (b - a) (skipn a s).

Fixpoint replace_go (old new : str) (skip : nat) (s : str) : str :=
  match s with
  | [] => []
  | c :: s' =>
      match skip with
      | S k => replace_go old new k s'
      | O => if prefix_b old s
             then new ++ replace_go old new (length old - 1) s'
             else c :: replace_go old new 0 s'
      end
  end.

(** [s.replace(old, new)]: non-overlapping occurrences, left to right; an
    empty [old] matches before every character and at the end. *)
Definition str_replace (old new s : str) : str :=
  match old with
  | [] => new ++ flat_map (fun c => c :: new) s
  | _ :: _ => replace_go old new 0 s
  end.

(** [sep.join(parts)] *)
Fixpoint str_join (sep : str) (parts : list str) : str :=
  match parts with
  | [] => []
  | [p] => p
  | p :: rest => p ++ sep ++ str_join sep rest
  end.

(** Characters removed by [str.strip()]. *)
Definition is_space (c : char) : bool :=
  ((9 <=? c) && (c <=? 13) || (28 <=? c) && (c <=? 32) || (c =? 133)
   || (c =? 160) || (c =? 5760) || (8192 <=? c) && (c <=? 8202)
   || (c =? 8232) || (c =? 8233) || (c =? 8239) || (c =? 8287)
   || (c =? 12288))%N.

Fixpoint lstrip (s : str) : str :=
  match s with
  | c :: s' => if is_space c then lstrip s' else s
  | [] => []
  end.

Definition str_strip (s : str) : str := rev (lstrip (rev (lstrip s))).

(** ** Dictionaries

    A [dict] keeps its keys in insertion order; assignment to a present
    key replaces the value in place. *)
Definition dict (V : Type) := list (str * V).

Fixpoint dict_get {V} (d : dict V) (k : str) : option V :=
  match d with
  | [] => None
  | (k', v) :: d' => if str_eqb k' k then Some v else dict_get d' k
  end.

Fixpoint dict_set {V} (d : dict V) (k : str) (v : V) : dict V :=
  match d with
  | [] => [(k, v)]
  | (k', v') :: d' =>
      if str_eqb k' k then (k', v) :: d' else (k', v') :: dict_set d' k v
  end.

(** [d.get(k, [])] *)
Definition dict_get_list {A} (d : dict (list A)) (k : str) : list A :=
  match dict_get d k with Some l => l | None => [] end.

(** ** Exceptions *)
Inductive exn := IndexError | ReError.

(** The outcome of a call: a value, a raised exception, or no answer
    within the iteration budget of the model. *)
Inductive outcome (A : Type) :=
| Ok (a : A)
| Raise (e : exn)
| OutOfFuel.
Arguments Ok {A} a.
Arguments Raise {A} e.
Arguments OutOfFuel {A}.

Definition bind {A B} (m : outcome A) (f : A -> outcome B) : outcome B :=
  match m with
  | Ok a => f a
  | Raise e => Raise e
  | OutOfFuel => OutOfFuel
  end.

(** [l[i]] with Python's negative indices. *)
Definition py_index {A} (l : list A) (i : Z) : outcome A :=
  let j := if (i <? 0)%Z then (Z.of_nat (length l) + i)%Z else i in
  if (j <? 0)%Z then Raise IndexError
  else match nth_error l (Z.to_nat j) with
       | Some x => Ok x
       | None => Raise IndexError
       end.

End Py.

Import Py.

Declare Scope py_scope.
Notation "x <- m ;; f" := (bind m (fun x => f))
  (at level 61, m at next level, right associativity) : py_scope.
Open Scope py_scope.

(* ================================================================== *)
(** * Hits and overlap resolution ([_remove_duplicates]) *)
(* ================================================================== *)

(** One entry of a category's hit list (a dict with these five keys).
    Offsets are list indices, hence natural numbers. *)
Record hit := mkHit {
  keyword : str;
  matched_text : str;
  start_position : nat;
  end_position : nat;
  context : str
}.

(** Equality of two hit dicts, as used by [list.remove]. *)
Definition hit_eqb (a b : hit) : bool :=
  str_eqb (keyword a) (keyword b) && str_eqb (matched_text a) (matched_text b)
  && (start_position a =? start_position b)
  && (end_position a =? end_position b)
  && str_eqb (context a) (context b).

Definition _is_overlapping_or_contained (hit1 hit2 : hit) : bool :=
  negb ((end_position hit1 <=? start_position hit2)
        || (end_position hit2 <=? start_position hit1)).

Definition same_position (a b : hit) : bool :=
  (start_position a =? start_position b) && (end_position a =? end_position b).

(** [len(current['keyword']) > len(existing['keyword'])] *)
Definition longer_keyword (cur ex : hit) : bool :=
  length (keyword ex) <? length (keyword cur).

(** [l.remove(x)]: drops the first element equal to [x].  The engine only
    removes elements it is iterating over, so the element is present. *)
Fixpoint list_remove (x : hit) (l : list hit) : list hit :=
  match l with
  | [] => []
  | y :: l' => if hit_eqb y x then l' else y :: list_remove x l'
  end.

(** The inner loop over the snapshot [unique_hits[:]]: returns
    [should_add] and the updated [unique_hits]. *)
Fixpoint resolve (cur : hit) (copy unique : list hit) : bool * list hit :=
  match copy with
  | [] => (true, unique)
  | ex :: rest =>
      if same_position cur ex then
        if longer_keyword cur ex
        then resolve cur rest (list_remove ex unique)
        else (false, unique)
      else if _is_overlapping_or_contained cur ex then
        if longer_keyword cur ex
        then resolve cur rest (list_remove ex unique)
        else (false, unique)
      else resolve cur rest unique
  end.

Definition dedup_step (unique : list hit) (cur : hit) : list hit :=
  let '(should_add, u) := resolve cur unique unique in
  if should_add then u ++ [cur] else u.

(** Order of the sort key [(start_position, end_position)]. *)
Definition key_le (a b : hit) : bool :=
  (start_position a <? start_position b)
  || ((start_position a =? start_position b)
      && (end_position a <=? end_position b)).

Definition key_lt (a b : hit) : bool :=
  (start_position a <? start_position b)
  || ((start_position a =? start_position b)
      && (end_position a <? end_position b)).

(** [sorted(hits, key=...)] is a stable sort: equal keys keep their
    original order. *)
Fixpoint insert_by_key (h : hit) (l : list hit) : list hit :=
  match l with
  | [] => [h]
  | x :: l' => if key_le h x then h :: l else x :: insert_by_key h l'
  end.

Definition py_sorted (hits : list hit) : list hit :=
  fold_right insert_by_key [] hits.

(** The body of the per-category loop. *)
Definition dedup_hits (hits : list hit) : list hit :=
  fold_left dedup_step (py_sorted hits) [].

Definition _remove_duplicates (detected : dict (list hit)) : dict (list hit) :=
  match detected with
  | [] => detected
  | _ :: _ =>
      fold_left
        (fun cleaned_detected (entry : str * list hit) =>
           let '(category, hits) := entry in
           match hits with
           | [] => cleaned_detected
           | _ :: _ =>
               match dedup_hits hits with
               | [] => cleaned_detected
               | unique_hits => dict_set cleaned_detected category unique_hits
               end
           end)
        detected []
  end.

(** Two hits are in conflict when either branch of the inner loop fires. *)
Definition conflict (a b : hit) : bool :=
  same_position a b || _is_overlapping_or_contained a b.

(** ** The overlap rule as the specification words it

    A hit of the sorted list is the winner of its cluster when it is
    strictly longer than every conflicting hit before it and at least as
    long as every conflicting hit after it. *)
Definition beats_earlier (h b : hit) : bool :=
  implb (conflict b h) (length (keyword b) <? length (keyword h)).

Definition holds_against_later (h a : hit) : bool :=
  implb (conflict a h) (length (keyword a) <=? length (keyword h)).

Fixpoint cluster_winners_go (before l : list hit) : list hit :=
  match l with
  | [] => []
  | h :: after =>
      (if forallb (beats_earlier h) before
          && forallb (holds_against_later h) after
       then [h] else [])
      ++ cluster_winners_go (before ++ [h]) after
  end.

Definition cluster_winners (l : list hit) : list hit :=
  cluster_winners_go [] l.

(** Overlap is transitive on a hit list: every cluster is a set of
    pairwise conflicting hits. *)
Definition conflict_transitive_b (l : list hit) : bool :=
  forallb (fun a => forallb (fun b => forallb (fun c =>
    implb (conflict a b && conflict b c) (conflict a c)) l) l) l.

(** A subsequence: elements kept in their order. *)
Inductive subseq {A} : list A -> list A -> Prop :=
| subseq_nil : subseq [] []
| subseq_skip x l1 l2 : subseq l1 l2 -> subseq l1 (x :: l2)
| subseq_keep x l1 l2 : subseq l1 l2 -> subseq (x :: l1) (x :: l2).

(** Two hits that may both be kept. *)
Definition separate (a b : hit) : Prop := conflict a b = false.

(** What holds of [unique_hits] once the hits [seen] were processed. *)
Record dedup_inv (seen unique : list hit) : Prop := {
  inv_subseq : subseq unique seen;
  inv_separate : StronglySorted separate unique;
  inv_discarded : forall h, In h seen -> ~ In h unique ->
      exists h', In h' seen /\ h' <> h /\ conflict h h' = true
                 /\ length (keyword h) <= length (keyword h')
}.

Definition transitive_on (l : list hit) : Prop :=
  forall a b c, In a l -> In b l -> In c l ->
    conflict a b = true -> conflict b c = true -> conflict a c = true.

(** Under transitive overlap every processed hit keeps a representative
    at least as long. *)
Definition represented (seen unique : list hit) : Prop :=
  forall b, In b seen ->
    exists r, In r unique /\ conflict b r = true
              /\ length (keyword b) <= length (keyword r).

(** [needle] occurs in [s] as a contiguous substring. *)
Definition occurs_in (needle s : str) : Prop :=
  exists pre post, s = pre ++ needle ++ post.

(* ================================================================== *)
(** * The engine *)
(* ================================================================== *)

(** Iteration of a loop body that may raise. *)
Fixpoint foldM {A S} (f : S -> A -> outcome S) (l : list A) (s : S)
  : outcome S :=
  match l with
  | [] => Ok s
  | x :: l' => s' <- f s x ;; foldM f l' s'
  end.

(** [{'norm': ..., 'raw': ...}] *)
Record norm_item := mkItem { norm : str; raw : str }.

(** The state of a [KeywordMatcher] after construction ([aliases] and
    [sep_re] are the module constants below). *)
Record KeywordMatcher := mkMatcher {
  illegal_keywords : dict (list str);
  compiled_norms : dict (list norm_item);
  false_positive : dict (list str);
  search_mode : str
}.

(** The supplementary JSON document, when one of the candidate paths
    exists: its two optional sections. *)
Record json_doc := mkDoc {
  doc_illegal_keywords : option (dict (list str));
  doc_false_positive_keywords : option (dict (list str))
}.

(** Python's text services, as the engine uses them. *)
Module Host.
Record t := {
  (** [ch.lower()] for a one-character string, as [_build_norm_map]
      calls it; the result can have more than one character. *)
  char_lower : char -> str;
  (** [s.lower()] for a whole string.  It depends on the context of a
      character (a capital sigma at the end of a word has its own lower
      case), so it is not [char_lower] applied character by character. *)
  str_lower : str -> str;
  (** [ch.isalnum()] *)
  isalnum : char -> bool;
  (** The [re] module: whether a pattern compiles, and the results of
      [re.sub], [re.search], [re.match], [re.finditer] (as spans),
      [re.split] and [re.findall] on a pattern that compiles.  The flag
      is [re.IGNORECASE]. *)
  re_valid : str -> bool;
  re_sub : bool -> str -> str -> str -> str;
  re_search : bool -> str -> str -> bool;
  re_match : bool -> str -> str -> bool;
  re_finditer : bool -> str -> str -> list (nat * nat);
  re_split : bool -> str -> str -> list str;
  re_findall : bool -> str -> str -> list str;
  (** [re.escape(ch)] *)
  re_escape : char -> str;
  (** [list(set(l))]: the elements of [l] without repetition, in the
      iteration order of the set. *)
  set_order : list str -> list str
}.
End Host.

(** The tables of [detector/constants.py], which is not part of the
    sources at hand.  [is_separator] stands for [SEPARATOR_PATTERN]. *)
Module Constants.
Record t := {
  ALIAS_MAPPINGS : list (str * str);
  is_separator : char -> bool;
  KEYWORD_SEPARATORS : list str;
  MEANINGFUL_PATTERNS : list str;
  CATEGORY_PATTERNS : dict (list str);
  REQUIRED_INDICATORS : dict (list str);
  TRADE_INDICATORS : list str;
  NEGATIVE_INDICATORS : list str
}.
End Constants.


(* ================================================================== *)
(** * A reference configuration

    The engine below is parametric in Python's text services ([lower],
    [isalnum], the [re] module) and in the tables of
    [detector/constants.py].  This module gives one instance of them, on
    which the statements are exercised.  Its regular expressions are the
    fragment made of literal characters, escaped characters and [\s*];
    any other pattern is rejected, as [re] rejects an unbalanced bracket. *)
(* ================================================================== *)

Module Demo.

(** [ch.lower()]: ASCII capitals, and U+0130 whose lower case is two
    code points; every other character used here is its own lower case. *)
Definition lower (c : char) : str :=
  if ((65 <=? c) && (c <=? 90))%N then [(c + 32)%N]
  else if (c =? 304)%N then [105%N; 775%N]
  else [c].

(** [s.lower()]: no character of this instance depends on its
    context. *)
Definition str_lower (s : str) : str := flat_map lower s.

Definition isalnum (c : char) : bool :=
  ((48 <=? c) && (c <=? 57) || (65 <=? c) && (c <=? 90)
   || (97 <=? c) && (c <=? 122) || (44032 <=? c) && (c <=? 55203))%N.

(** Metacharacters escaped by [re.escape]. *)
Definition re_special : str :=
  lit "()[]{}?*+-|^$\.&~# " ++ [9%N; 10%N; 13%N; 11%N; 12%N].

Definition re_escape (c : char) : str :=
  if existsb (N.eqb c) re_special then [92%N; c] else [c].

Inductive token :=
| TChar (c : char)   (* a literal or escaped character *)
| TSpaces.           (* \s* *)

(** Characters that need an escape in a pattern of the fragment. *)
Definition re_meta : str := lit "()[]{}?*+|^$.".

Fixpoint tokenize (fuel : nat) (p : str) : option (list token) :=
  match fuel with
  | O => None
  | S fuel' =>
      match p with
      | [] => Some []
      | 92%N :: 115%N :: 42%N :: p' =>
          option_map (cons TSpaces) (tokenize fuel' p')
      | 92%N :: c :: p' =>
          if existsb (N.eqb c) (lit "sSdDwWbBAZ0123456789")
          then None
          else option_map (cons (TChar c)) (tokenize fuel' p')
      | [92%N] => None
      | c :: p' =>
          if existsb (N.eqb c) re_meta then None
          else option_map (cons (TChar c)) (tokenize fuel' p')
      end
  end.

Definition parse (p : str) : option (list token) := tokenize (S (length p)) p.

Definition re_valid (p : str) : bool :=
  match parse p with Some _ => true | None => false end.

Definition same_char (ignorecase : bool) (a b : char) : bool :=
  if ignorecase then str_eqb (lower a) (lower b) else N.eqb a b.

Fixpoint leading_spaces (s : str) : nat :=
  match s with
  | c :: s' => if is_space c then S (leading_spaces s') else 0
  | [] => 0
  end.

(** Length of the match of the tokens at the head of [s]; [\s*] is
    greedy and gives characters back one at a time. *)
Fixpoint match_here (ic : bool) (ts : list token) (s : str) : option nat :=
  match ts with
  | [] => Some 0
  | TChar c :: ts' =>
      match s with
      | c' :: s' =>
          if same_char ic c c' then option_map S (match_here ic ts' s')
          else None
      | [] => None
      end
  | TSpaces :: ts' =>
      (fix give_back (k : nat) : option nat :=
         match match_here ic ts' (skipn k s) with
         | Some n => Some (k + n)
         | None => match k with
                   | O => None
                   | S k' => give_back k'
                   end
         end) (leading_spaces s)
  end.

(** Spans of the non-overlapping matches from offset [i] on; [skip]
    characters still belong to the previous match. *)
Fixpoint spans_from (ic : bool) (ts : list token) (s : str) (i skip : nat)
  : list (nat * nat) :=
  match skip with
  | S k =>
      match s with
      | [] => []
      | _ :: s' => spans_from ic ts s' (S i) k
      end
  | O =>
      match match_here ic ts s with
      | Some n =>
          (i, i + n) ::
          match s with
          | [] => []
          | _ :: s' => spans_from ic ts s' (S i) (n - 1)
          end
      | None =>
          match s with
          | [] => []
          | _ :: s' => spans_from ic ts s' (S i) 0
          end
      end
  end.

(** The tokens of the pattern that joins the escaped characters of a
    keyword with [\s*]. *)
Fixpoint flex_tokens (kw : str) : list token :=
  match kw with
  | [] => []
  | c :: kw' =>
      match kw' with
      | [] => [TChar c]
      | _ :: _ => TChar c :: TSpaces :: flex_tokens kw'
      end
  end.

Definition re_finditer (ic : bool) (p s : str) : list (nat * nat) :=
  match parse p with
  | Some ts => spans_from ic ts s 0 0
  | None => []
  end.

Definition re_search (ic : bool) (p s : str) : bool :=
  match re_finditer ic p s with [] => false | _ => true end.

Definition re_match (ic : bool) (p s : str) : bool :=
  match parse p with
  | Some ts => match match_here ic ts s with Some _ => true | None => false end
  | None => false
  end.

(** Rebuilds [s] with every span replaced by [repl]. *)
Fixpoint substitute (repl s : str) (i : nat) (spans : list (nat * nat))
    (fuel : nat) : str :=
  match fuel with
  | O => s
  | S fuel' =>
      match spans with
      | [] => s
      | (a, b) :: rest =>
          firstn (a - i) s ++ repl
          ++ substitute repl (skipn (b - i) s) b rest fuel'
      end
  end.

Definition re_sub (ic : bool) (p repl s : str) : str :=
  let spans := re_finditer ic p s in
  substitute repl s 0 spans (S (length spans)).

(** No splitting or token pattern is configured in this instance. *)
Definition re_split (ic : bool) (p s : str) : list str := [s].
Definition re_findall (ic : bool) (p s : str) : list str := [].

(** [list(set(l))], in order of first insertion. *)
Fixpoint set_order (l : list str) : list str :=
  match l with
  | [] => []
  | x :: l' => x :: filter (fun y => negb (str_eqb x y)) (set_order l')
  end.

(** Modelled from the spec: the alias table is missing from the sources;
    the specification describes it as ordered rules that rewrite the
    Korean phonetic spellings of DB and ID into the Latin abbreviations. *)
Definition ALIAS_MAPPINGS : list (str * str) :=
  [ ([DI] ++ lit "\s*" ++ [BI], lit "db");
    ([A_; I_] ++ lit "\s*" ++ [DI], lit "id") ].

(** Modelled from the spec: the separator pattern is missing from the
    sources; the specification describes it as whitespace and common
    punctuation and delimiters. *)
Definition is_separator (c : char) : bool :=
  is_space c || existsb (N.eqb c) (lit "-_.,/|()[]*").

Definition KEYWORD_SEPARATORS : list str := [].
Definition MEANINGFUL_PATTERNS : list str := [].
Definition REQUIRED_INDICATORS : dict (list str) :=
  [(lit "loan_db", [lit "trade"])].
Definition TRADE_INDICATORS : list str := [lit "sell"; lit "buy"].
Definition NEGATIVE_INDICATORS : list str := [lit "example"; lit "report"].

Definition py : Host.t :=
  {| Host.char_lower := lower;
     Host.str_lower := str_lower;
     Host.isalnum := isalnum;
     Host.re_valid := re_valid;
     Host.re_sub := re_sub;
     Host.re_search := re_search;
     Host.re_match := re_match;
     Host.re_finditer := re_finditer;
     Host.re_split := re_split;
     Host.re_findall := re_findall;
     Host.re_escape := re_escape;
     Host.set_order := set_order |}.

(** The tables, with a given per-category pattern table. *)
Definition constants (category_patterns : dict (list str)) : Constants.t :=
  {| Constants.ALIAS_MAPPINGS := ALIAS_MAPPINGS;
     Constants.is_separator := is_separator;
     Constants.KEYWORD_SEPARATORS := KEYWORD_SEPARATORS;
     Constants.MEANINGFUL_PATTERNS := MEANINGFUL_PATTERNS;
     Constants.CATEGORY_PATTERNS := category_patterns;
     Constants.REQUIRED_INDICATORS := REQUIRED_INDICATORS;
     Constants.TRADE_INDICATORS := TRADE_INDICATORS;
     Constants.NEGATIVE_INDICATORS := NEGATIVE_INDICATORS |}.

(** Hits of the overlap examples: spans [0,10), [5,20) and [15,25). *)
Definition hit_a : hit := mkHit (lit "aaaaa") (lit "a") 0 10 (lit "a").
Definition hit_b : hit := mkHit (lit "bbbb") (lit "b") 5 20 (lit "b").
Definition hit_c : hit := mkHit (lit "c") (lit "c") 15 25 (lit "c").

(** A table with one rule whose replacement is longer than its match. *)
Definition lengthening_constants : Constants.t :=
  {| Constants.ALIAS_MAPPINGS := [(lit "z", lit "zzzz")];
     Constants.is_separator := is_separator;
     Constants.KEYWORD_SEPARATORS := [];
     Constants.MEANINGFUL_PATTERNS := [];
     Constants.CATEGORY_PATTERNS := [];
     Constants.REQUIRED_INDICATORS := [];
     Constants.TRADE_INDICATORS := [];
     Constants.NEGATIVE_INDICATORS := [] |}.

(** The rows of a catalog with the keywords ab and abc in category c. *)
Definition rows_ab_abc : list (list str) :=
  [[lit "1"; lit "c"; lit "ab"]; [lit "2"; lit "c"; lit "abc"]].

End Demo.

Section Engine.

Variable py : Host.t.
Variable constants : Constants.t.

Local Abbreviation char_lower := (Host.char_lower py).
Local Abbreviation str_lower := (Host.str_lower py).
Local Abbreviation isalnum := (Host.isalnum py).
Local Abbreviation re_valid := (Host.re_valid py).
Local Abbreviation re_sub := (Host.re_sub py).
Local Abbreviation re_search := (Host.re_search py).
Local Abbreviation re_match := (Host.re_match py).
Local Abbreviation re_finditer := (Host.re_finditer py).
Local Abbreviation re_split := (Host.re_split py).
Local Abbreviation re_findall := (Host.re_findall py).
Local Abbreviation re_escape := (Host.re_escape py).
Local Abbreviation set_order := (Host.set_order py).
Local Abbreviation ALIAS_MAPPINGS := (Constants.ALIAS_MAPPINGS constants).
Local Abbreviation is_separator := (Constants.is_separator constants).
Local Abbreviation KEYWORD_SEPARATORS := (Constants.KEYWORD_SEPARATORS constants).
Local Abbreviation MEANINGFUL_PATTERNS :=
  (Constants.MEANINGFUL_PATTERNS constants).
Local Abbreviation CATEGORY_PATTERNS := (Constants.CATEGORY_PATTERNS constants).
Local Abbreviation REQUIRED_INDICATORS :=
  (Constants.REQUIRED_INDICATORS constants).
Local Abbreviation TRADE_INDICATORS := (Constants.TRADE_INDICATORS constants).
Local Abbreviation NEGATIVE_INDICATORS :=
  (Constants.NEGATIVE_INDICATORS constants).

(** Modelled from the spec: [SEPARATOR_PATTERN] is missing from the
    sources; the specification describes it as a separator predicate on
    characters, and [sep_re.sub('', t)] as deleting every character that
    matches it. *)
Definition sep_re_sub_empty (t : str) : str :=
  filter (fun ch => negb (is_separator ch)) t.

(** Modelled from the spec: [sep_re.match(ch)] on a one-character string
    is the separator predicate of the specification. *)
Definition sep_re_match (ch : char) : bool := is_separator ch.

(** A pattern that does not compile raises [re.error]. *)
Definition py_re_search (pattern s : str) : outcome bool :=
  if re_valid pattern then Ok (re_search false pattern s) else Raise ReError.

Definition py_re_finditer (pattern s : str) : outcome (list (nat * nat)) :=
  if re_valid pattern then Ok (re_finditer false pattern s) else Raise ReError.

(** ** Load *)

Definition dict_append (d : dict (list str)) (k v : str) : dict (list str) :=
  dict_set d k (dict_get_list d k ++ [v]).

(** A row has the columns id, category, keyword, ... *)
Definition _load_illegal_from_db (rows : list (list str))
  : dict (list str) :=
  fold_left
    (fun kws row =>
       match row with
       | _ :: cat :: kw :: _ => dict_append kws cat kw
       | _ => kws
       end)
    rows [].

Definition dict_setdefault (d : dict (list str)) (k : str)
  : dict (list str) :=
  match dict_get d k with Some _ => d | None => dict_set d k [] end.

Definition _maybe_merge_illegal_from_json
    (kws : dict (list str)) (doc : option json_doc) : dict (list str) :=
  match doc with
  | None => kws
  | Some data =>
      let jk := match doc_illegal_keywords data with
                | Some d => d | None => [] end in
      fold_left
        (fun kws (entry : str * list str) =>
           let '(cat, kw_list) := entry in
           fold_left
             (fun kws kw =>
                let kws := dict_setdefault kws cat in
                if existsb (str_eqb kw) (dict_get_list kws cat)
                then kws
                else dict_append kws cat kw)
             kw_list kws)
        jk kws
  end.

Definition _maybe_load_false_positive_from_json (doc : option json_doc)
  : dict (list str) :=
  match doc with
  | None => []
  | Some data =>
      match doc_false_positive_keywords data with
      | Some d => d | None => [] end
  end.

(** ** Compile *)

Definition apply_aliases (s : str) : str :=
  fold_left (fun t (a : str * str) => re_sub true (fst a) (snd a) t)
            ALIAS_MAPPINGS s.

Definition _normalize (s : str) : str :=
  match s with
  | [] => []
  | _ :: _ => sep_re_sub_empty (str_lower (apply_aliases s))
  end.

Definition _expand_alias_variants (s : str) : list str :=
  set_order
    [ s;
      re_sub true ([DI] ++ lit "\s*" ++ [BI]) (lit "DB") s;
      re_sub true ([A_; I_] ++ lit "\s*" ++ [DI]) (lit "ID") s;
      re_sub true (lit "D\s*B") [DI; BI] s;
      re_sub true (lit "I\s*D") [A_; I_; DI] s ].

Definition _extract_partial_keywords (kw : str) : list str :=
  let by_sep :=
    flat_map
      (fun sep_pattern =>
         filter
           (fun part =>
              match part with [] => false | _ => true end
              && (2 <=? length part)
              && negb (re_match false (lit "^[0-9\W]+$") part))
           (map str_strip
                (re_split true (lit "(" ++ sep_pattern ++ lit ")") kw)))
      KEYWORD_SEPARATORS in
  let by_shape :=
    flat_map (fun pattern => re_findall true pattern kw)
             MEANINGFUL_PATTERNS in
  set_order (kw :: by_sep ++ by_shape).

(** The bucket of one category and the set [seen]. *)
Definition add_norm (min_len : nat) (raw_kw : str)
    (st : list norm_item * list str) (variant : str)
  : list norm_item * list str :=
  let '(bucket, seen) := st in
  let norm_v := _normalize variant in
  if match norm_v with [] => false | _ => true end
     && negb (existsb (str_eqb norm_v) seen)
     && (min_len <=? length norm_v)
  then (bucket ++ [mkItem norm_v raw_kw], norm_v :: seen)
  else st.

Definition compile_keyword (mode : str)
    (st : list norm_item * list str) (raw_kw : str)
  : list norm_item * list str :=
  if str_eqb mode (lit "exact")
  then fold_left (add_norm 0 raw_kw) (_expand_alias_variants raw_kw) st
  else fold_left
         (fun st partial =>
            fold_left (add_norm 2 raw_kw) (_expand_alias_variants partial) st)
         (_extract_partial_keywords raw_kw) st.

Definition _compile_norms (mode : str) (kws : dict (list str))
  : dict (list norm_item) :=
  fold_left
    (fun compiled (entry : str * list str) =>
       let '(cat, klist) := entry in
       dict_set compiled cat
                (fst (fold_left (compile_keyword mode) klist ([], []))))
    kws [].

(** [KeywordMatcher(db_manager, json_filename, search_mode)]: [rows] is
    what [db_manager.get_keywords()] returns and [doc] the parsed JSON
    file, if any. *)
Definition __init__ (rows : list (list str)) (doc : option json_doc)
    (mode : str) : KeywordMatcher :=
  let kws := _maybe_merge_illegal_from_json (_load_illegal_from_db rows) doc in
  mkMatcher kws (_compile_norms mode kws)
            (_maybe_load_false_positive_from_json doc) mode.

(** ** Index map *)

Fixpoint norm_map_go (t : str) (i : nat) : str * list nat :=
  match t with
  | [] => ([], [])
  | ch :: t' =>
      let '(norm_chars, idx_map) := norm_map_go t' (S i) in
      if sep_re_match ch then (norm_chars, idx_map)
      else (char_lower ch ++ norm_chars, i :: idx_map)
  end.

Definition _build_norm_map (text : str) : str * list nat :=
  norm_map_go (apply_aliases text) 0.

(** ** Context and secondary filter *)

Definition _get_context (text : str) (start end_ : nat) (context_size : nat)
  : str :=
  let s := Nat.max 0 (start - context_size) in
  let e := Nat.min (length text) (end_ + context_size) in
  let ctx := slice text s e in
  let mid := slice text start end_ in
  str_replace mid (lit "**" ++ mid ++ lit "**") ctx.

Definition any_in (indicators : list str) (s : str) : bool :=
  existsb (fun indicator => str_contains indicator s) indicators.

Definition db_keywords : list str :=
  [lit "db"; [DI; BI]; lit "d.b"; lit "d b"].

Definition _is_valid_illegal_context (kw ctx category : str) : bool :=
  let context_lower := str_lower ctx in
  let keyword_lower := str_lower kw in
  if str_eqb category (lit "personal_db")
     && existsb (fun db => str_contains db keyword_lower) db_keywords
  then
    let has_negative := any_in NEGATIVE_INDICATORS context_lower in
    negb has_negative
  else
    let keyword_has_trade := any_in TRADE_INDICATORS keyword_lower in
    let context_has_trade := any_in TRADE_INDICATORS context_lower in
    let category_required := dict_get_list REQUIRED_INDICATORS category in
    let has_required_in_context := any_in category_required context_lower in
    let has_required :=
      if keyword_has_trade || context_has_trade then true
      else has_required_in_context in
    let has_negative := any_in NEGATIVE_INDICATORS context_lower in
    has_required && negb has_negative.

Fixpoint boundaries_loop (text : str) (matches : list (nat * nat))
  : outcome bool :=
  match matches with
  | [] => Ok false
  | (start, end_) :: rest =>
      before_ok <-
        (if start =? 0 then Ok true
         else ch <- py_index text (Z.of_nat start - 1) ;;
              Ok (negb (isalnum ch))) ;;
      after_ok <-
        (if end_ =? length text then Ok true
         else ch <- py_index text (Z.of_nat end_) ;;
              Ok (negb (isalnum ch))) ;;
      if before_ok && after_ok then Ok true else boundaries_loop text rest
  end.

Definition _check_word_boundaries_regex (text pattern : str) : outcome bool :=
  matches <- py_re_finditer pattern (str_lower text) ;;
  match matches with
  | [] => Ok false
  | _ :: _ => boundaries_loop text matches
  end.

Definition simple_normalize (s : str) : str :=
  str_replace (lit "_") []
    (str_replace (lit "-") [] (str_replace (lit " ") [] (str_lower s))).

Fixpoint pattern_loop (kw text : str) (patterns : list str)
  : outcome bool :=
  match patterns with
  | [] => Ok (str_contains (simple_normalize kw) (simple_normalize text))
  | pattern :: rest =>
      in_kw <- py_re_search pattern (str_lower kw) ;;
      if in_kw then
        in_text <- py_re_search pattern (str_lower text) ;;
        if in_text then _check_word_boundaries_regex text pattern
        else pattern_loop kw text rest
      else pattern_loop kw text rest
  end.

Definition _match_category_pattern (kw text : str) (patterns : list str)
  : outcome bool :=
  pattern_loop kw text patterns.

Definition _is_exact_keyword_pattern (original_keyword text : str)
    (start_pos end_pos : nat) (category : str) : outcome bool :=
  let extended_start := Nat.max 0 (start_pos - 10) in
  let extended_end := Nat.min (length text) (end_pos + 10) in
  let extended_text := slice text extended_start extended_end in
  match dict_get_list CATEGORY_PATTERNS category with
  | [] => Ok true
  | patterns => _match_category_pattern original_keyword extended_text patterns
  end.

Definition _passes_secondary_filter (original_keyword matched : str)
    (full_text : str) (start_pos end_pos : nat) (category : str)
  : outcome bool :=
  exact <- _is_exact_keyword_pattern original_keyword full_text
                                     start_pos end_pos category ;;
  if negb exact then Ok false
  else
    let ctx := _get_context full_text start_pos end_pos 150 in
    if negb (_is_valid_illegal_context original_keyword ctx category)
    then Ok false
    else Ok true.

(** ** Detect: substring scan *)

(** The [while True] loop for one needle; [hits] is the list shared by
    the needles of the category. *)
Fixpoint scan_loop (fuel : nat) (text norm_text : str) (idx_map : list nat)
    (enable_secondary_filter : bool) (cat : str) (item : norm_item)
    (start : nat) (hits : list hit) : outcome (list hit) :=
  match fuel with
  | O => OutOfFuel
  | S fuel' =>
      let needle := norm item in
      match str_find needle norm_text start with
      | None => Ok hits
      | Some pos =>
          let end_pos := pos + length needle in
          orig_start <- py_index idx_map (Z.of_nat pos) ;;
          last <- py_index idx_map (Z.of_nat end_pos - 1) ;;
          let orig_end := last + 1 in
          let matched := slice text orig_start orig_end in
          pass <-
            (if enable_secondary_filter
             then _passes_secondary_filter (raw item) matched text
                                           orig_start orig_end cat
             else Ok true) ;;
          if pass then
            scan_loop fuel' text norm_text idx_map enable_secondary_filter
                      cat item end_pos
                      (hits ++ [mkHit (raw item) matched orig_start orig_end
                                      (_get_context text orig_start orig_end
                                                    50)])
          else
            scan_loop fuel' text norm_text idx_map enable_secondary_filter
                      cat item end_pos hits
      end
  end.

(** Iterations granted to one needle: one per character of the
    normalised text, and the final unsuccessful search. *)
Definition scan_fuel (norm_text : str) : nat := S (S (length norm_text)).

Definition scan_category (text norm_text : str) (idx_map : list nat)
    (enable_secondary_filter : bool) (cat : str) (items : list norm_item)
  : outcome (list hit) :=
  foldM (fun hits item =>
           scan_loop (scan_fuel norm_text) text norm_text idx_map
                     enable_secondary_filter cat item 0 hits)
        items [].

Definition fp_hit (fp_norms : list str) (h : hit) : bool :=
  let ctx_norm := _normalize (context h) in
  existsb (fun fp => str_contains fp ctx_norm) fp_norms.

(** The false-positive filter of the substring scan. *)
Definition false_positive_filter (fps : dict (list str)) (cat : str)
    (hits : list hit) : list hit :=
  match hits, dict_get_list fps cat with
  | _ :: _, (_ :: _) as phrases =>
      let fp_norms :=
        map _normalize
            (filter (fun x => match x with [] => false | _ => true end)
                    phrases) in
      filter (fun h => negb (fp_hit fp_norms h)) hits
  | _, _ => hits
  end.

Definition detect_exact (self : KeywordMatcher) (text : str)
    (enable_secondary_filter : bool) : outcome (dict (list hit)) :=
  let '(norm_text, idx_map) := _build_norm_map text in
  foldM
    (fun detected (entry : str * list norm_item) =>
       let '(cat, items) := entry in
       hits <- scan_category text norm_text idx_map
                             enable_secondary_filter cat items ;;
       let hits := false_positive_filter (false_positive self) cat hits in
       match hits with
       | [] => Ok detected
       | _ :: _ => Ok (dict_set detected cat hits)
       end)
    (compiled_norms self) [].

(** ** Detect: combination scan *)

Definition _check_full_keyword_presence (kw text : str) : bool :=
  let text_norm := _normalize text in
  existsb (fun variant => str_contains (_normalize variant) text_norm)
          (_expand_alias_variants kw).

Definition marker_db : str := lit "(?:DB|" ++ [DI; BI] ++ lit "|D\.?B)".
Definition marker_id : str := lit "(?:ID|" ++ [A_; I_; DI] ++ lit "|I\.?D)".

Definition _create_flexible_pattern (kw : str) : str :=
  let chars := map re_escape kw in
  let pattern := str_join (lit "\s*") chars in
  let pattern := str_replace (lit "D\s*B") marker_db pattern in
  let pattern := str_replace ([DI] ++ lit "\s*" ++ [BI]) marker_db pattern in
  let pattern := str_replace (lit "I\s*D") marker_id pattern in
  let pattern :=
    str_replace ([A_] ++ lit "\s*" ++ [I_] ++ lit "\s*" ++ [DI])
                marker_id pattern in
  pattern.

Definition _find_keyword_positions (kw text : str)
  : list (nat * nat * str) :=
  flat_map
    (fun variant =>
       let pattern := _create_flexible_pattern variant in
       map (fun m : nat * nat =>
              let '(start_pos, end_pos) := m in
              (start_pos, end_pos, slice text start_pos end_pos))
           (re_finditer true pattern text))
    (_expand_alias_variants kw).

Definition combination_keyword (text : str) (enable_secondary_filter : bool)
    (cat : str) (hits : list hit) (original_keyword : str)
  : outcome (list hit) :=
  if _check_full_keyword_presence original_keyword text then
    foldM
      (fun hits (p : nat * nat * str) =>
         let '(start_pos, end_pos, matched) := p in
         pass <-
           (if enable_secondary_filter
            then _passes_secondary_filter original_keyword matched text
                                          start_pos end_pos cat
            else Ok true) ;;
         if pass then
           Ok (hits ++ [mkHit original_keyword matched start_pos end_pos
                              (_get_context text start_pos end_pos 50)])
         else Ok hits)
      (_find_keyword_positions original_keyword text) hits
  else Ok hits.

Definition _detect_with_combination_filter (self : KeywordMatcher)
    (text : str) (enable_secondary_filter : bool)
  : outcome (dict (list hit)) :=
  foldM
    (fun detected (entry : str * list str) =>
       let '(cat, klist) := entry in
       hits <- foldM (combination_keyword text enable_secondary_filter cat)
                     klist [] ;;
       match hits with
       | [] => Ok detected
       | _ :: _ => Ok (dict_set detected cat hits)
       end)
    (illegal_keywords self) [].

(** ** Detect *)

Definition detect_keywords_in_text (self : KeywordMatcher) (text : str)
    (enable_secondary_filter require_full_combination : bool)
  : outcome (dict (list hit)) :=
  match text with
  | [] => Ok []
  | _ :: _ =>
      if require_full_combination then
        detected <- _detect_with_combination_filter
                      self text enable_secondary_filter ;;
        Ok (_remove_duplicates detected)
      else
        detected <- detect_exact self text enable_secondary_filter ;;
        Ok (_remove_duplicates detected)
  end.

(** ** Notions used in the statements *)

(** Every hit of the combination scan carries a catalog keyword of its
    category that passed the presence check, and its span is one that
    [re.finditer] reported for the flexible pattern of an alias variant
    of that keyword. *)
Definition from_catalog (self : KeywordMatcher) (text cat : str) (h : hit)
  : Prop :=
  exists klist v,
    In (cat, klist) (illegal_keywords self)
    /\ In (keyword h) klist
    /\ _check_full_keyword_presence (keyword h) text = true
    /\ In v (_expand_alias_variants (keyword h))
    /\ In (start_position h, end_position h)
          (re_finditer true (_create_flexible_pattern v) text)
    /\ matched_text h = slice text (start_position h) (end_position h).

(** *** A keyword in full, up to inserted whitespace and alias spellings

    The specification asks for the entire keyword, contiguous up to
    whitespace and alias variants.  The parts of a keyword are its
    characters, where the adjacent letters DB (also in Hangul) stand for
    any spelling of DB and the adjacent letters ID (also in Hangul) for
    any spelling of ID, taken in the order in which
    [_create_flexible_pattern] substitutes them. *)
Inductive flex_item :=
| FChar (c : char)
| FDb
| FId.

Fixpoint merge_pair (x y : char) (m : flex_item) (l : list flex_item)
  : list flex_item :=
  match l with
  | [] => []
  | it :: tl =>
      match it, tl with
      | FChar a, FChar b :: rest =>
          if (a =? x)%N && (b =? y)%N then m :: merge_pair x y m rest
          else it :: merge_pair x y m tl
      | _, _ => it :: merge_pair x y m tl
      end
  end.

Fixpoint merge_triple (x y z : char) (m : flex_item) (l : list flex_item)
  : list flex_item :=
  match l with
  | [] => []
  | it :: tl =>
      match it, tl with
      | FChar a, FChar b :: FChar c :: rest =>
          if (a =? x)%N && (b =? y)%N && (c =? z)%N
          then m :: merge_triple x y z m rest
          else it :: merge_triple x y z m tl
      | _, _ => it :: merge_triple x y z m tl
      end
  end.

Definition flex_items (kw : str) : list flex_item :=
  merge_triple A_ I_ DI FId
    (merge_pair 73%N 68%N FId          (* I D *)
       (merge_pair DI BI FDb
          (merge_pair 68%N 66%N FDb    (* D B *)
             (map FChar kw)))).

(** The spellings a part stands for. *)
Definition flex_alternatives (it : flex_item) : list str :=
  match it with
  | FChar c => [[c]]
  | FDb => [lit "DB"; [DI; BI]; lit "D.B"]
  | FId => [lit "ID"; [A_; I_; DI]; lit "I.D"]
  end.

(** The rest of [w] after the spelling [alt], compared character by
    character with [same]. *)
Fixpoint strip_prefix (same : char -> char -> bool) (alt w : str)
  : option str :=
  match alt, w with
  | [], _ => Some w
  | c :: alt', c' :: w' =>
      if same c c' then strip_prefix same alt' w' else None
  | _ :: _, [] => None
  end.

Fixpoint leading (space : char -> bool) (w : str) : nat :=
  match w with
  | c :: w' => if space c then S (leading space w') else 0
  | [] => 0
  end.

(** [w] is the parts in order, each in one of its spellings, with only
    whitespace between consecutive parts.  [same] compares a character
    of a spelling with a character of the text and [space] recognises
    whitespace. *)
Fixpoint reads_as (same : char -> char -> bool) (space : char -> bool)
    (items : list flex_item) (w : str) : bool :=
  match items with
  | [] => match w with [] => true | _ :: _ => false end
  | it :: rest =>
      existsb
        (fun alt =>
           match strip_prefix same alt w with
           | None => false
           | Some w' =>
               match rest with
               | [] => match w' with [] => true | _ :: _ => false end
               | _ :: _ =>
                   existsb
                     (fun k => reads_as same space rest (skipn k w'))
                     (seq 0 (S (leading space w')))
               end
           end)
        (flex_alternatives it)
  end.

(** No compiled form is the empty string. *)
Definition well_compiled (self : KeywordMatcher) : Prop :=
  forall cat items it,
    In (cat, items) (compiled_norms self) -> In it items -> norm it <> [].

(** No non-empty false-positive phrase of the category occurs, once
    normalised, in the normalised context of the hit. *)
Definition false_positive_free (self : KeywordMatcher) (cat : str) (h : hit)
  : Prop :=
  forall phrase,
    In phrase (dict_get_list (false_positive self) cat) -> phrase <> [] ->
    ~ occurs_in (_normalize phrase) (_normalize (context h)).

(** The successive positions found by the [while True] loop of one
    needle. *)
Fixpoint occurrences (fuel : nat) (needle hay : str) (start : nat)
  : list nat :=
  match fuel with
  | O => []
  | S fuel' =>
      match str_find needle hay start with
      | None => []
      | Some pos => pos :: occurrences fuel' needle hay (pos + length needle)
      end
  end.

(** The hit recorded for the occurrence at [pos] of the normalised text. *)
Definition candidate_at (text : str) (idx_map : list nat) (item : norm_item)
    (pos : nat) : hit :=
  let orig_start := nth pos idx_map 0 in
  let orig_end := nth (pos + length (norm item) - 1) idx_map 0 + 1 in
  mkHit (raw item) (slice text orig_start orig_end) orig_start orig_end
        (_get_context text orig_start orig_end 50).

(** Every character lower-cases to exactly one character. *)
Definition lower_one_to_one (s : str) : Prop :=
  Forall (fun c => length (char_lower c) = 1) s.

(** The normalised text of the index map, character by character. *)
Definition norm_chars_of (t : str) : str :=
  flat_map (fun ch => if sep_re_match ch then [] else char_lower ch) t.

(** Every slice [s[a:b]]. *)
Definition all_slices (s : str) : list str :=
  flat_map (fun a => map (fun b => slice s a b) (seq 0 (S (length s))))
           (seq 0 (S (length s))).

(** Each stretch [t[a:b]] of the alias-substituted working string [t]
    whose characters, lower-cased one by one and without the
    separators, spell the alias-substituted keyword lies over a
    non-empty stretch [text[a:b]] that the alias rules rewrite into it,
    and [str.lower] of the stretch is its character-by-character
    lower-casing. *)
Definition stretches_agree (text k : str) : bool :=
  let t := apply_aliases text in
  let n := norm_chars_of (apply_aliases k) in
  forallb
    (fun a =>
       forallb
         (fun b =>
            if str_eqb (norm_chars_of (slice t a b)) n
            then match slice text a b with [] => false | _ :: _ => true end
                 && str_eqb (apply_aliases (slice text a b)) (slice t a b)
                 && str_eqb (str_lower (slice t a b))
                            (flat_map char_lower (slice t a b))
            else true)
         (seq 0 (S (length t))))
    (seq 0 (S (length t))).

(** Each character of the text lower-cases to one character, which is a
    separator exactly when the character is. *)
Definition lower_is_plain (text : str) : bool :=
  forallb (fun ch =>
             match char_lower ch with
             | [c] => Bool.eqb (is_separator c) (is_separator ch)
             | _ => false
             end) text.

(** The state of the compilation of a category names every normalised
    form it has seen. *)
Definition has_norm (n : str) (st : list norm_item * list str) : Prop :=
  exists it, In it (fst st) /\ norm it = n.

Definition seen_ok (st : list norm_item * list str) : Prop :=
  forall n, In n (snd st) -> has_norm n st.

(** ** The caller in [main.py] *)

(** [any(detected_keywords.values())]: whether some category has a
    non-empty hit list; [analyze_url] and [analyze_board] save a result
    only then. *)
Definition any_values (detected : dict (list hit)) : bool :=
  existsb (fun entry : str * list hit =>
             match snd entry with [] => false | _ :: _ => true end)
          detected.

(** ** Further notions used in the statements *)

(** The keywords that the rows of the provider give to a category, in
    row order. *)
Definition row_keywords (rows : list (list str)) (cat : str) : list str :=
  flat_map (fun row =>
              match row with
              | _ :: c :: kw :: _ => if str_eqb c cat then [kw] else []
              | _ => []
              end) rows.

(** The keywords that the keyword section of the document lists for a
    category, in document order. *)
Definition doc_keywords (doc : option json_doc) (cat : str) : list str :=
  match doc with
  | None => []
  | Some data =>
      flat_map (fun entry : str * list str =>
                  if str_eqb (fst entry) cat then snd entry else [])
               (match doc_illegal_keywords data with
                | Some d => d | None => [] end)
  end.

(** The least length of a compiled form: two in partial mode. *)
Definition min_norm_length (mode : str) : nat :=
  if str_eqb mode (lit "exact") then 0 else 2.

(** What the scan records in a hit of keyword [kw]: the slice of the
    text at the offsets, the context of the offsets and, with the
    secondary filter enabled, a passed filter. *)
Definition recorded (text : str) (filt : bool) (cat kw : str) (h : hit)
  : Prop :=
  keyword h = kw
  /\ matched_text h = slice text (start_position h) (end_position h)
  /\ context h
     = _get_context text (start_position h) (end_position h) 50
  /\ (filt = true ->
      _passes_secondary_filter kw (matched_text h) text
        (start_position h) (end_position h) cat = Ok true).

(** The state of the compilation of a category, for keywords of the
    list [klist]. *)
Definition bucket_ok (min_len : nat) (klist : list str)
    (st : list norm_item * list str) : Prop :=
  map norm (fst st) = rev (snd st)
  /\ NoDup (snd st)
  /\ forall it, In it (fst st) ->
       norm it <> [] /\ In (raw it) klist /\ min_len <= length (norm it).

(** The list of one category while the keywords of a document entry are
    merged. *)
Definition merge_list (old kws : list str) : list str :=
  fold_left (fun l kw => if existsb (str_eqb kw) l then l else l ++ [kw])
            kws old.
(* ================================================================== *)
(** * Facts about the built-ins *)
(* ================================================================== *)

Section PyFacts.

Lemma str_eqb_eq a b : str_eqb a b = true <-> a = b.
Proof.
  revert b; induction a as [|x a IH]; intros [|y b]; simpl;
    try (split; [discriminate | discriminate]); try tauto.
  rewrite andb_true_iff, N.eqb_eq, IH.
  split; [intros [-> ->]; reflexivity | intros H; inversion H; auto].
Qed.

Lemma str_eqb_refl a : str_eqb a a = true.
Proof. apply str_eqb_eq; reflexivity. Qed.

Lemma prefix_b_app needle hay :
  prefix_b needle hay = true <-> exists post, hay = needle ++ post.
Proof.
  revert hay; induction needle as [|x n IH]; intros hay; simpl.
  - split; [intros _; exists hay; reflexivity | reflexivity].
  - destruct hay as [|y h].
    + split; [discriminate | intros [post H]; discriminate].
    + rewrite andb_true_iff, N.eqb_eq, IH. split.
      * intros [-> [post ->]]. exists post; reflexivity.
      * intros [post H]. inversion H; subst. split; [reflexivity | eauto].
Qed.

(** [find_go] returns the first position at which the needle starts. *)
Lemma find_go_some needle hay i p :
  find_go needle hay i = Some p ->
  exists pre post,
    hay = pre ++ needle ++ post /\ p = i + length pre.
Proof.
  revert i; induction hay as [|c h IH]; intros i; simpl.
  - destruct (prefix_b needle []) eqn:E; [|discriminate].
    intros [= <-]. apply prefix_b_app in E as [post E].
    exists [], post. simpl. split; [exact E | lia].
  - destruct (prefix_b needle (c :: h)) eqn:E.
    + intros [= <-]. apply prefix_b_app in E as [post E].
      exists [], post. simpl. split; [exact E | lia].
    + intros H. apply IH in H as (pre & post & -> & ->).
      exists (c :: pre), post. simpl. split; [reflexivity | lia].
Qed.

Lemma find_go_none needle hay i :
  find_go needle hay i = None ->
  forall pre post, hay <> pre ++ needle ++ post.
Proof.
  revert i; induction hay as [|c h IH]; intros i; simpl.
  - destruct (prefix_b needle []) eqn:E; [discriminate|].
    intros _ pre post H. destruct pre; simpl in H.
    + assert (prefix_b needle [] = true) by (apply prefix_b_app; eauto).
      congruence.
    + discriminate.
  - destruct (prefix_b needle (c :: h)) eqn:E; [discriminate|].
    intros H pre post Heq. destruct pre as [|x pre]; simpl in Heq.
    + assert (prefix_b needle (c :: h) = true) by (apply prefix_b_app; eauto).
      congruence.
    + inversion Heq; subst. eapply IH; eauto.
Qed.

(** [needle in hay] decides the substring relation. *)
Lemma str_contains_spec needle hay :
  str_contains needle hay = true <->
  exists pre post, hay = pre ++ needle ++ post.
Proof.
  unfold str_contains, str_find. simpl.
  destruct (find_go needle hay 0) eqn:E.
  - split; [intros _ | reflexivity].
    apply find_go_some in E as (pre & post & H & _); eauto.
  - split; [discriminate | intros (pre & post & H)].
    exfalso. eapply find_go_none; eauto.
Qed.

Lemma dict_get_set_same {V} (d : dict V) k v :
  dict_get (dict_set d k v) k = Some v.
Proof.
  induction d as [|[k' v'] d IH]; simpl.
  - now rewrite str_eqb_refl.
  - destruct (str_eqb k' k) eqn:E; simpl; rewrite E; auto.
Qed.

Lemma dict_get_set_other {V} (d : dict V) k k' v :
  str_eqb k k' = false ->
  dict_get (dict_set d k v) k' = dict_get d k'.
Proof.
  intros Hne. induction d as [|[k0 v0] d IH]; simpl.
  - now rewrite Hne.
  - destruct (str_eqb k0 k) eqn:E; simpl.
    + apply str_eqb_eq in E; subst k0. now rewrite Hne.
    + now rewrite IH.
Qed.

Lemma dict_set_In {V} (d : dict V) k v c w :
  In (c, w) (dict_set d k v) -> (c = k /\ w = v) \/ In (c, w) d.
Proof.
  induction d as [|[k0 v0] d IH]; simpl.
  - intros [[= <- <-]|[]]. now left.
  - destruct (str_eqb k0 k) eqn:E; simpl.
    + apply str_eqb_eq in E; subst k0.
      intros [[= <- <-]|H]; [left|right; right]; auto.
    + intros [H|H]; [right; now left|].
      destruct (IH H) as [?|?]; [now left | right; now right].
Qed.

Lemma dict_get_In {V} (d : dict V) k v :
  dict_get d k = Some v -> In (k, v) d.
Proof.
  induction d as [|[k0 v0] d IH]; simpl; [discriminate|].
  destruct (str_eqb k0 k) eqn:E.
  - apply str_eqb_eq in E; subst k0. intros [= ->]. now left.
  - intros H. right. auto.
Qed.

Lemma dict_get_None {V} (d : dict V) k :
  (forall v, ~ In (k, v) d) -> dict_get d k = None.
Proof.
  intros H. destruct (dict_get d k) eqn:E; [|reflexivity].
  apply dict_get_In in E. now apply H in E.
Qed.

Lemma dict_set_keys {V} (d : dict V) k v :
  NoDup (map fst d) -> NoDup (map fst (dict_set d k v)).
Proof.
  induction d as [|[k0 v0] d IH]; simpl; intros Hnd.
  - repeat constructor. intros [].
  - inversion Hnd as [|? ? Hk Hd]; subst.
    destruct (str_eqb k0 k) eqn:E; simpl; constructor; auto.
    intros Hin. apply Hk. apply in_map_iff in Hin as ([c w] & <- & Hcw).
    apply dict_set_In in Hcw as [[-> ->]|Hcw].
    + simpl in E. rewrite str_eqb_refl in E. discriminate.
    + apply in_map_iff. exists (c, w). auto.
Qed.

(** *** Loops that may raise *)

Lemma foldM_inv {A S} (f : S -> A -> outcome S) (I : S -> Prop) l :
  forall s r,
  I s ->
  (forall s x s', In x l -> I s -> f s x = Ok s' -> I s') ->
  foldM f l s = Ok r -> I r.
Proof.
  induction l as [|x l IH]; intros s r Hs Hf; simpl.
  - now intros [= <-].
  - destruct (f s x) as [s'| |] eqn:E; simpl; try discriminate.
    apply IH.
    + eapply Hf; eauto. now left.
    + intros s0 y s1 Hy. apply Hf. now right.
Qed.

Lemma foldM_ok {A S} (f : S -> A -> outcome S) l :
  forall s,
  (forall s x, In x l -> exists s', f s x = Ok s') ->
  exists r, foldM f l s = Ok r.
Proof.
  induction l as [|x l IH]; intros s Hf; simpl.
  - eauto.
  - destruct (Hf s x (or_introl eq_refl)) as [s' ->]. simpl.
    apply IH. intros s0 y Hy. apply Hf. now right.
Qed.

Lemma foldM_not_out_of_fuel {A S} (f : S -> A -> outcome S) l :
  forall s,
  (forall s x, In x l -> f s x <> OutOfFuel) ->
  foldM f l s <> OutOfFuel.
Proof.
  induction l as [|x l IH]; intros s Hf; simpl; [discriminate|].
  destruct (f s x) as [s'| |] eqn:E; simpl.
  - apply IH. intros s0 y Hy. apply Hf. now right.
  - discriminate.
  - exfalso. eapply Hf; [now left | exact E].
Qed.

Lemma foldM_raise {A S} (f : S -> A -> outcome S) l e :
  forall s, foldM f l s = Raise e ->
  exists s0 x, In x l /\ f s0 x = Raise e.
Proof.
  induction l as [|y l IH]; intros s; simpl; [discriminate|].
  destruct (f s y) as [s'| |] eqn:E; simpl; try discriminate.
  - intros H. destruct (IH _ H) as (s0 & x & Hx & Hf).
    exists s0, x. auto.
  - intros [= <-]. exists s, y. auto.
Qed.

(** A loop that ends normally ran each of its steps normally. *)
Lemma foldM_steps_ok {A S} (f : S -> A -> outcome S) l :
  forall s r, foldM f l s = Ok r ->
  forall x, In x l -> exists s0 s1, f s0 x = Ok s1.
Proof.
  induction l as [|y l IH]; intros s r H x; [intros []|].
  simpl in H. destruct (f s y) as [s'| |] eqn:E; simpl in H; try discriminate.
  intros [<-|Hx]; eauto.
Qed.

(** *** Searching *)

Lemma str_find_some needle hay start pos :
  str_find needle hay start = Some pos ->
  start <= pos /\ pos + length needle <= length hay
  /\ firstn (length needle) (skipn pos hay) = needle.
Proof.
  unfold str_find. destruct (length hay <? start) eqn:E; [discriminate|].
  apply Nat.ltb_ge in E. intros H.
  apply find_go_some in H as (pre & post & Hs & ->).
  assert (Hlen : length (skipn start hay)
                 = length pre + (length needle + length post))
    by (rewrite Hs, !length_app; reflexivity).
  rewrite length_skipn in Hlen.
  repeat split; [lia | lia |].
  rewrite Nat.add_comm, <- skipn_skipn, Hs.
  rewrite skipn_app, Nat.sub_diag, skipn_all. simpl.
  rewrite firstn_app, Nat.sub_diag, firstn_all. simpl.
  now rewrite app_nil_r.
Qed.

Lemma find_go_unfold needle hay i :
  find_go needle hay i =
  if prefix_b needle hay then Some i
  else match hay with
       | [] => None
       | _ :: h' => find_go needle h' (S i)
       end.
Proof. destruct hay; reflexivity. Qed.

Lemma find_go_found needle : forall pre post i,
  exists p, find_go needle (pre ++ needle ++ post) i = Some p.
Proof.
  induction pre as [|c pre IH]; intros post i; rewrite find_go_unfold.
  - assert (H : prefix_b needle (needle ++ post) = true)
      by (apply prefix_b_app; eauto).
    simpl. rewrite H. eauto.
  - simpl app.
    destruct (prefix_b needle (c :: pre ++ needle ++ post)); eauto.
Qed.

Lemma bind_not_out_of_fuel {A B} (m : outcome A) (f : A -> outcome B) :
  m <> OutOfFuel -> (forall a, f a <> OutOfFuel) -> bind m f <> OutOfFuel.
Proof. destruct m; simpl; auto; discriminate. Qed.

(** *** Indexing *)

Lemma py_index_nat {A} (l : list A) (k : nat) :
  py_index l (Z.of_nat k) =
  match nth_error l k with Some x => Ok x | None => Raise IndexError end.
Proof.
  unfold py_index.
  destruct (Z.of_nat k <? 0)%Z eqn:E; [apply Z.ltb_lt in E; lia|].
  rewrite E. now rewrite Nat2Z.id.
Qed.

Lemma py_index_pred {A} (l : list A) (k : nat) :
  0 < k ->
  py_index l (Z.of_nat k - 1) =
  match nth_error l (k - 1) with
  | Some x => Ok x | None => Raise IndexError end.
Proof.
  intros Hk. replace (Z.of_nat k - 1)%Z with (Z.of_nat (k - 1)) by lia.
  apply py_index_nat.
Qed.

Lemma py_index_not_out_of_fuel {A} (l : list A) i :
  py_index l i <> OutOfFuel.
Proof.
  unfold py_index. destruct (_ <? 0)%Z; [discriminate|].
  destruct (nth_error _ _); discriminate.
Qed.

Lemma py_index_raise {A} (l : list A) i e :
  py_index l i = Raise e -> e = IndexError.
Proof.
  unfold py_index. destruct (_ <? 0)%Z; [now intros [= <-]|].
  destruct (nth_error _ _); [discriminate | now intros [= <-]].
Qed.

Lemma foldM_pure {A S} (f : S -> A -> S) l : forall s,
  foldM (fun s x => Ok (f s x)) l s = Ok (fold_left f l s).
Proof. induction l as [|x l IH]; intros s; simpl; auto. Qed.

(** *** Loops that fill a dictionary, one key per entry *)

Lemma foldM_dict_keep {V W} (step : dict W -> str * V -> outcome (dict W))
    (l : dict V) k :
  (forall acc c x acc', step acc (c, x) = Ok acc' ->
     acc' = acc \/ exists z, acc' = dict_set acc c z) ->
  (forall c x, In (c, x) l -> c <> k) ->
  forall acc r, foldM step l acc = Ok r -> dict_get r k = dict_get acc k.
Proof.
  intros Hlocal. induction l as [|[c x] l IH]; intros Hk acc r; simpl.
  - now intros [= <-].
  - destruct (step acc (c, x)) as [acc'| |] eqn:E; simpl; try discriminate.
    intros H. rewrite (IH (fun c0 x0 H0 => Hk c0 x0 (or_intror H0)) _ _ H).
    destruct (Hlocal _ _ _ _ E) as [->|[z ->]]; [reflexivity|].
    apply dict_get_set_other.
    destruct (str_eqb c k) eqn:Ec; [|reflexivity].
    apply str_eqb_eq in Ec. exfalso. eapply Hk; [now left | exact Ec].
Qed.

Lemma foldM_dict_get {V W} (step : dict W -> str * V -> outcome (dict W))
    (l : dict V) k v :
  (forall acc c x acc', step acc (c, x) = Ok acc' ->
     acc' = acc \/ exists z, acc' = dict_set acc c z) ->
  NoDup (map fst l) -> In (k, v) l ->
  forall acc r, foldM step l acc = Ok r ->
  exists acc0 acc1, step acc0 (k, v) = Ok acc1
                    /\ dict_get r k = dict_get acc1 k.
Proof.
  intros Hlocal. induction l as [|[c x] l IH]; intros Hnd Hin acc r;
    [destruct Hin|]. simpl.
  inversion Hnd as [|? ? Hc Hl]; subst.
  destruct (step acc (c, x)) as [acc'| |] eqn:E; simpl; try discriminate.
  intros H. destruct Hin as [[= -> ->]|Hin].
  - exists acc, acc'. split; [exact E|].
    eapply foldM_dict_keep; eauto.
    intros c0 x0 H0 ->. apply Hc. apply in_map_iff. exists (k, x0). auto.
  - eapply IH; eauto.
Qed.

Lemma foldM_dict_keys {V W} (step : dict W -> str * V -> outcome (dict W))
    (l : dict V) :
  (forall acc c x acc', step acc (c, x) = Ok acc' ->
     acc' = acc \/ exists z, acc' = dict_set acc c z) ->
  forall acc r, NoDup (map fst acc) -> foldM step l acc = Ok r ->
  NoDup (map fst r).
Proof.
  intros Hlocal acc r Hacc.
  apply (foldM_inv step (fun d => NoDup (map fst d))); [exact Hacc|].
  intros s [c x] s' _ Hs E.
  destruct (Hlocal _ _ _ _ E) as [->|[z ->]]; [exact Hs|].
  now apply dict_set_keys.
Qed.

End PyFacts.


(* ================================================================== *)
(** * Facts about overlap resolution *)
(* ================================================================== *)

Section DedupFacts.

Lemma hit_eqb_eq a b : hit_eqb a b = true <-> a = b.
Proof.
  unfold hit_eqb. rewrite !andb_true_iff, !str_eqb_eq, !Nat.eqb_eq.
  destruct a, b; simpl. split.
  - intros [[[[-> ->] ->] ->] ->]. reflexivity.
  - intros [= -> -> -> -> ->]. auto.
Qed.

Lemma conflict_sym a b : conflict a b = conflict b a.
Proof.
  unfold conflict, same_position, _is_overlapping_or_contained.
  rewrite (Nat.eqb_sym (start_position a)), (Nat.eqb_sym (end_position a)).
  f_equal. f_equal. apply orb_comm.
Qed.

Lemma conflict_refl a : conflict a a = true.
Proof. unfold conflict, same_position. now rewrite !Nat.eqb_refl. Qed.

(** Both branches of the inner loop act alike. *)
Lemma resolve_cons cur ex rest unique :
  resolve cur (ex :: rest) unique =
  if conflict cur ex
  then if longer_keyword cur ex
       then resolve cur rest (list_remove ex unique)
       else (false, unique)
  else resolve cur rest unique.
Proof.
  unfold conflict. simpl.
  destruct (same_position cur ex); simpl; [reflexivity|].
  destruct (_is_overlapping_or_contained cur ex); reflexivity.
Qed.

(** *** Subsequences *)

Lemma subseq_refl {A} (l : list A) : subseq l l.
Proof. induction l; [apply subseq_nil | now apply subseq_keep]. Qed.

Lemma subseq_nil_l {A} (l : list A) : subseq [] l.
Proof. induction l; [apply subseq_nil | now apply subseq_skip]. Qed.

Lemma subseq_trans {A} (l1 l2 l3 : list A) :
  subseq l1 l2 -> subseq l2 l3 -> subseq l1 l3.
Proof.
  intros H12 H23. revert l1 H12.
  induction H23 as [|x l2 l3 H IH|x l2 l3 H IH]; intros l1 H12.
  - exact H12.
  - apply subseq_skip. auto.
  - inversion H12; subst.
    + apply subseq_skip. auto.
    + apply subseq_keep. auto.
Qed.

Lemma subseq_In {A} (l1 l2 : list A) x :
  subseq l1 l2 -> In x l1 -> In x l2.
Proof.
  induction 1 as [|y l1 l2 H IH|y l1 l2 H IH]; simpl; intuition.
Qed.

Lemma subseq_snoc {A} (l1 l2 : list A) x :
  subseq l1 l2 -> subseq (l1 ++ [x]) (l2 ++ [x]).
Proof.
  induction 1; simpl.
  - apply subseq_keep, subseq_nil.
  - now apply subseq_skip.
  - now apply subseq_keep.
Qed.

Lemma subseq_snoc_skip {A} (l1 l2 : list A) x :
  subseq l1 l2 -> subseq l1 (l2 ++ [x]).
Proof.
  induction 1; simpl.
  - apply subseq_skip, subseq_nil.
  - now apply subseq_skip.
  - now apply subseq_keep.
Qed.

Lemma list_remove_subseq x l : subseq (list_remove x l) l.
Proof.
  induction l as [|y l IH]; simpl; [apply subseq_nil|].
  destruct (hit_eqb y x); [apply subseq_skip, subseq_refl|].
  apply subseq_keep, IH.
Qed.

Lemma list_remove_other x y l :
  In y l -> y <> x -> In y (list_remove x l).
Proof.
  induction l as [|z l IH]; simpl; [tauto|].
  intros [->|Hin] Hne.
  - destruct (hit_eqb y x) eqn:E; [apply hit_eqb_eq in E; congruence|].
    now left.
  - destruct (hit_eqb z x); [assumption|]. right; auto.
Qed.

Lemma list_remove_NoDup x l :
  NoDup l -> NoDup (list_remove x l) /\ ~ In x (list_remove x l).
Proof.
  induction 1 as [|y l Hy Hl IH]; simpl.
  - split; [constructor | tauto].
  - destruct (hit_eqb y x) eqn:E.
    + apply hit_eqb_eq in E; subst y. auto.
    + destruct IH as [IH1 IH2]. split.
      * constructor; [|assumption].
        intros Hin. apply Hy.
        eapply subseq_In; [apply list_remove_subseq | exact Hin].
      * simpl. intros [->|Hin]; [|tauto].
        rewrite (proj2 (hit_eqb_eq x x) eq_refl) in E. discriminate.
Qed.

Lemma subseq_NoDup {A} (l1 l2 : list A) :
  subseq l1 l2 -> NoDup l2 -> NoDup l1.
Proof.
  induction 1 as [|x l1 l2 H IH|x l1 l2 H IH]; intros Hnd.
  - constructor.
  - inversion Hnd; auto.
  - inversion Hnd; subst. constructor; auto.
    intros Hin. eauto using subseq_In.
Qed.

(** *** Lists ordered pairwise by a relation *)

Lemma StronglySorted_subseq {A} (R : A -> A -> Prop) (l1 l2 : list A) :
  subseq l1 l2 -> StronglySorted R l2 -> StronglySorted R l1.
Proof.
  induction 1 as [|x l1 l2 H IH|x l1 l2 H IH]; intros Hs.
  - constructor.
  - inversion Hs; auto.
  - inversion Hs; subst. constructor; auto.
    rewrite Forall_forall in *. eauto using subseq_In.
Qed.

Lemma StronglySorted_snoc {A} (R : A -> A -> Prop) (l : list A) a :
  StronglySorted R l -> (forall x, In x l -> R x a) ->
  StronglySorted R (l ++ [a]).
Proof.
  induction 1 as [|x l Hs IH Hx]; intros Ha; simpl.
  - repeat constructor.
  - constructor.
    + apply IH. intros; apply Ha; now right.
    + rewrite Forall_forall in *. intros y Hy.
      apply in_app_or in Hy as [Hy|[<-|[]]]; [auto|].
      apply Ha; now left.
Qed.

Lemma StronglySorted_app_inv {A} (R : A -> A -> Prop) (l1 l2 : list A) :
  StronglySorted R (l1 ++ l2) ->
  StronglySorted R l1 /\ StronglySorted R l2
  /\ (forall x y, In x l1 -> In y l2 -> R x y).
Proof.
  induction l1 as [|a l1 IH]; simpl; intros Hs.
  - repeat split; [constructor | assumption | intros ? ? []].
  - inversion Hs as [|? ? Hs' Hall]; subst.
    destruct (IH Hs') as (H1 & H2 & H3).
    rewrite Forall_forall in Hall. repeat split; auto.
    + constructor; auto. rewrite Forall_forall.
      intros; apply Hall, in_or_app; auto.
    + intros x y [<-|Hx] Hy; [apply Hall, in_or_app|]; auto.
Qed.

Lemma StronglySorted_both {A} (R1 R2 R3 : A -> A -> Prop) (l : list A) :
  (forall a b, R1 a b -> R2 a b -> R3 a b) ->
  StronglySorted R1 l -> StronglySorted R2 l -> StronglySorted R3 l.
Proof.
  intros H. induction l as [|x l IH]; intros H1 H2; [constructor|].
  inversion H1; inversion H2; subst. constructor; auto.
  rewrite Forall_forall in *. auto.
Qed.

Lemma separate_NoDup l : StronglySorted separate l -> NoDup l.
Proof.
  induction 1 as [|x l Hs IH Hx]; constructor; auto.
  intros Hin. rewrite Forall_forall in Hx. specialize (Hx x Hin).
  unfold separate in Hx. now rewrite conflict_refl in Hx.
Qed.

(** *** The inner loop *)

Lemma resolve_spec cur copy : forall unique should_add u,
  resolve cur copy unique = (should_add, u) ->
  subseq u unique
  /\ (forall x, In x unique -> ~ In x u ->
        conflict cur x = true /\ length (keyword x) < length (keyword cur))
  /\ (should_add = false ->
        exists ex, In ex copy /\ conflict cur ex = true
                   /\ length (keyword cur) <= length (keyword ex))
  /\ (should_add = true -> NoDup unique ->
        forall ex, In ex copy -> conflict cur ex = true -> ~ In ex u).
Proof.
  induction copy as [|ex rest IH]; intros unique should_add u.
  - simpl. intros [= <- <-]. repeat split.
    + apply subseq_refl.
    + intros; contradiction.
    + intros; contradiction.
    + discriminate.
    + intros _ _ ex [].
  - rewrite resolve_cons.
    destruct (conflict cur ex) eqn:Ec.
    + destruct (longer_keyword cur ex) eqn:El.
      * intros H. apply IH in H as (Hsub & Hrem & Hno & Hyes).
        unfold longer_keyword in El. apply Nat.ltb_lt in El.
        repeat split.
        -- eapply subseq_trans; [exact Hsub | apply list_remove_subseq].
        -- destruct (hit_eqb x ex) eqn:E.
           ++ apply hit_eqb_eq in E; subst; assumption.
           ++ apply (Hrem x); [|assumption].
              apply list_remove_other; [assumption|].
              intros ->. rewrite (proj2 (hit_eqb_eq ex ex) eq_refl) in E.
              discriminate.
        -- destruct (hit_eqb x ex) eqn:E.
           ++ apply hit_eqb_eq in E; subst; assumption.
           ++ apply (Hrem x); [|assumption].
              apply list_remove_other; [assumption|].
              intros ->. rewrite (proj2 (hit_eqb_eq ex ex) eq_refl) in E.
              discriminate.
        -- intros Hf. destruct (Hno Hf) as (e & He & Hc & Hl).
           exists e. simpl. auto.
        -- intros Ht Hnd e [<-|He] Hc.
           ++ destruct (list_remove_NoDup ex _ Hnd) as [_ Hnot].
              intros Hin. apply Hnot. eauto using subseq_In.
           ++ destruct (list_remove_NoDup ex _ Hnd) as [Hnd' _]. eauto.
      * intros [= <- <-]. unfold longer_keyword in El.
        apply Nat.ltb_ge in El. repeat split.
        -- apply subseq_refl.
        -- contradiction.
        -- contradiction.
        -- intros _. exists ex. simpl. auto.
        -- discriminate.
    + intros H. apply IH in H as (Hsub & Hrem & Hno & Hyes).
      repeat split; auto.
      * apply Hrem; assumption.
      * apply Hrem; assumption.
      * intros Hf. destruct (Hno Hf) as (e & He & Hc & Hl).
        exists e. simpl. auto.
      * intros Ht Hnd e [<-|He] Hc; [congruence | eauto].
Qed.

Lemma hit_eq_dec (a b : hit) : {a = b} + {a <> b}.
Proof.
  destruct (hit_eqb a b) eqn:E.
  - left. now apply hit_eqb_eq.
  - right. intros ->. rewrite (proj2 (hit_eqb_eq b b) eq_refl) in E.
    discriminate.
Qed.

(** *** The outer loop *)

Lemma dedup_step_inv seen unique cur :
  dedup_inv seen unique ->
  dedup_inv (seen ++ [cur]) (dedup_step unique cur).
Proof.
  intros [Hsub Hsep Hdis]. unfold dedup_step.
  destruct (resolve cur unique unique) as [should_add u] eqn:E.
  pose proof (resolve_spec _ _ _ _ _ E) as (Hu & Hrem & Hno & Hyes).
  assert (Hnd : NoDup unique) by now apply separate_NoDup.
  assert (Hsep_u : StronglySorted separate u)
    by (eapply StronglySorted_subseq; eauto).
  (* a hit of [seen] that is no longer kept *)
  assert (Hold : forall h, In h seen -> ~ In h u ->
            exists h', In h' (seen ++ [cur]) /\ h' <> h
                       /\ conflict h h' = true
                       /\ length (keyword h) <= length (keyword h')).
  { intros h Hh Hnu. destruct (in_dec hit_eq_dec h unique) as [Hin|Hout].
    - destruct (Hrem h Hin Hnu) as [Hc Hl]. exists cur. repeat split.
      + apply in_or_app; right; now left.
      + intros ->. lia.
      + now rewrite conflict_sym.
      + lia.
    - destruct (Hdis h Hh Hout) as (h' & H1 & H2 & H3 & H4).
      exists h'. repeat split; auto. apply in_or_app; now left. }
  destruct should_add.
  - constructor.
    + apply subseq_snoc. eapply subseq_trans; eauto.
    + apply StronglySorted_snoc; [assumption|].
      intros x Hx. unfold separate.
      destruct (conflict x cur) eqn:Ec; [|reflexivity].
      exfalso. rewrite conflict_sym in Ec.
      exact (Hyes eq_refl Hnd x (subseq_In _ _ x Hu Hx) Ec Hx).
    + intros h Hh Hnot. apply in_app_or in Hh as [Hh|[<-|[]]].
      * apply Hold; [assumption|].
        intros Hin. apply Hnot, in_or_app; now left.
      * rename cur into h. exfalso. apply Hnot, in_or_app; right; now left.
  - constructor.
    + apply subseq_snoc_skip. eapply subseq_trans; eauto.
    + assumption.
    + intros h Hh Hnot. apply in_app_or in Hh as [Hh|[<-|[]]].
      * apply Hold; assumption.
      * rename cur into h.
        destruct (Hno eq_refl) as (ex & Hex & Hc & Hl).
        exists ex. repeat split; auto.
        -- apply in_or_app; left. eauto using subseq_In.
        -- intros ->. apply Hnot.
           destruct (in_dec hit_eq_dec h u) as [Hin|Hout]; [assumption|].
           destruct (Hrem h Hex Hout). lia.
Qed.

Lemma dedup_fold_inv l : forall seen unique,
  dedup_inv seen unique ->
  dedup_inv (seen ++ l) (fold_left dedup_step l unique).
Proof.
  induction l as [|cur l IH]; intros seen unique Hinv; simpl.
  - now rewrite app_nil_r.
  - replace (seen ++ cur :: l) with ((seen ++ [cur]) ++ l)
      by (rewrite <- app_assoc; reflexivity).
    apply IH, dedup_step_inv, Hinv.
Qed.

Lemma dedup_hits_inv hits : dedup_inv (py_sorted hits) (dedup_hits hits).
Proof.
  unfold dedup_hits.
  apply (dedup_fold_inv (py_sorted hits) [] []).
  constructor; [constructor | constructor | intros ? []].
Qed.

(** *** Sorting *)

Lemma key_le_total a b : key_le a b = false -> key_le b a = true.
Proof.
  unfold key_le. rewrite orb_false_iff, andb_false_iff, orb_true_iff,
    andb_true_iff, !Nat.ltb_ge, !Nat.ltb_lt, !Nat.eqb_eq, !Nat.eqb_neq,
    Nat.leb_le, Nat.leb_gt.
  lia.
Qed.

Lemma key_le_trans a b c :
  key_le a b = true -> key_le b c = true -> key_le a c = true.
Proof.
  unfold key_le. rewrite !orb_true_iff, !andb_true_iff, !Nat.ltb_lt,
    !Nat.eqb_eq, !Nat.leb_le.
  lia.
Qed.

Lemma insert_by_key_perm h l : Permutation (insert_by_key h l) (h :: l).
Proof.
  induction l as [|x l IH]; simpl; [reflexivity|].
  destruct (key_le h x); [reflexivity|].
  rewrite IH. apply perm_swap.
Qed.

Lemma py_sorted_perm l : Permutation (py_sorted l) l.
Proof.
  induction l as [|h l IH]; simpl; [reflexivity|].
  rewrite insert_by_key_perm. now constructor.
Qed.

Lemma insert_by_key_sorted h l :
  StronglySorted (fun a b => key_le a b = true) l ->
  StronglySorted (fun a b => key_le a b = true) (insert_by_key h l).
Proof.
  induction 1 as [|x l Hs IH Hx]; simpl.
  - repeat constructor.
  - destruct (key_le h x) eqn:E.
    + constructor; [constructor; assumption|].
      constructor; [assumption|].
      rewrite Forall_forall in *. intros y Hy.
      eapply key_le_trans; [exact E | auto].
    + constructor; [assumption|].
      rewrite Forall_forall in *. intros y Hy.
      apply (Permutation_in _ (insert_by_key_perm h l)) in Hy.
      destruct Hy as [<-|Hy]; [now apply key_le_total | auto].
Qed.

Lemma py_sorted_sorted l :
  StronglySorted (fun a b => key_le a b = true) (py_sorted l).
Proof.
  induction l as [|h l IH]; simpl; [constructor|].
  now apply insert_by_key_sorted.
Qed.

Lemma py_sorted_In l h : In h (py_sorted l) <-> In h l.
Proof.
  split; apply Permutation_in;
    [apply py_sorted_perm | symmetry; apply py_sorted_perm].
Qed.

Lemma key_lt_of_le_separate a b :
  key_le a b = true -> separate a b -> key_lt a b = true.
Proof.
  unfold separate, conflict, key_le, key_lt, same_position.
  rewrite orb_false_iff, andb_false_iff, !orb_true_iff, !andb_true_iff,
    !Nat.ltb_lt, !Nat.eqb_eq, !Nat.eqb_neq, Nat.leb_le.
  lia.
Qed.

(** The kept hits strictly ascend in [(start_position, end_position)]. *)
Lemma dedup_hits_ascending hits :
  StronglySorted (fun a b => key_lt a b = true) (dedup_hits hits).
Proof.
  destruct (dedup_hits_inv hits) as [Hsub Hsep _].
  eapply StronglySorted_both with (R1 := fun a b => key_le a b = true)
                                  (R2 := separate).
  - apply key_lt_of_le_separate.
  - eapply StronglySorted_subseq; [exact Hsub | apply py_sorted_sorted].
  - exact Hsep.
Qed.

(** A non-empty hit list keeps at least one hit. *)
Lemma dedup_step_nonempty unique cur : dedup_step unique cur <> [].
Proof.
  unfold dedup_step.
  destruct (resolve cur unique unique) as [[|] u] eqn:E.
  - destruct u; discriminate.
  - pose proof (resolve_spec _ _ _ _ _ E) as (_ & Hrem & Hno & _).
    destruct (Hno eq_refl) as (ex & Hex & Hc & Hl).
    destruct u as [|y u]; [|discriminate].
    destruct (Hrem ex Hex (fun H => H)). lia.
Qed.

Lemma dedup_hits_nonempty hits : hits <> [] -> dedup_hits hits <> [].
Proof.
  intros Hne. unfold dedup_hits.
  assert (Hs : py_sorted hits <> []).
  { intros E. apply Hne. pose proof (py_sorted_perm hits) as P.
    rewrite E in P. now apply Permutation_nil in P. }
  destruct (py_sorted hits) as [|h l] using rev_ind; [congruence|].
  rewrite fold_left_app. simpl. apply dedup_step_nonempty.
Qed.

(** Every list stored by [_remove_duplicates] is the deduplicated list
    of a non-empty hit list stored under the same category. *)
Lemma remove_duplicates_get detected cat hits :
  dict_get (_remove_duplicates detected) cat = Some hits ->
  hits <> [] /\ exists raw_hits, In (cat, raw_hits) detected
                                 /\ hits = dedup_hits raw_hits.
Proof.
  intros H. apply dict_get_In in H. revert H.
  unfold _remove_duplicates.
  destruct detected as [|e0 d0]; [intros []|].
  set (d := e0 :: d0). clearbody d.
  set (P := fun (acc : dict (list hit)) => forall c v, In (c, v) acc ->
              v <> [] /\ exists r, In (c, r) d /\ v = dedup_hits r).
  enough (G : forall l, incl l d -> forall acc, P acc ->
    P (fold_left
      (fun cleaned_detected (entry : str * list hit) =>
         let '(category, hits) := entry in
         match hits with
         | [] => cleaned_detected
         | _ :: _ =>
             match dedup_hits hits with
             | [] => cleaned_detected
             | unique_hits => dict_set cleaned_detected category unique_hits
             end
         end) l acc)).
  { apply (G d (incl_refl d) []). intros c v []. }
  induction l as [|[category hs] l IH]; intros Hincl acc Hacc; simpl.
  - exact Hacc.
  - apply IH; [eapply incl_cons_inv; eauto|].
    destruct hs as [|h0 hs']; [exact Hacc|].
    destruct (dedup_hits (h0 :: hs')) as [|u0 us] eqn:E; [exact Hacc|].
    intros c v Hin. apply dict_set_In in Hin as [[-> ->]|Hin].
    + split; [discriminate|]. exists (h0 :: hs'). split; [|now rewrite E].
      apply Hincl. now left.
    + now apply Hacc.
Qed.

Lemma dedup_hits_In hits h : In h (dedup_hits hits) -> In h hits.
Proof.
  intros H. apply py_sorted_In.
  eapply subseq_In; [apply (inv_subseq _ _ (dedup_hits_inv hits)) | exact H].
Qed.

(** *** Transitive overlap: the loop picks the cluster winners *)

Lemma conflict_transitive_b_spec l :
  conflict_transitive_b l = true <-> transitive_on l.
Proof.
  unfold conflict_transitive_b, transitive_on. rewrite forallb_forall.
  split.
  - intros H a b c Ha Hb Hc Hab Hbc.
    specialize (H a Ha). rewrite forallb_forall in H.
    specialize (H b Hb). rewrite forallb_forall in H.
    specialize (H c Hc). now rewrite Hab, Hbc in H.
  - intros H a Ha. apply forallb_forall. intros b Hb.
    apply forallb_forall. intros c Hc.
    destruct (conflict a b) eqn:Hab; [|reflexivity].
    destruct (conflict b c) eqn:Hbc; [|reflexivity].
    simpl. now rewrite (H a b c).
Qed.

Lemma transitive_on_incl l l' :
  incl l l' -> transitive_on l' -> transitive_on l.
Proof. intros Hi Ht a b c Ha Hb Hc. apply Ht; auto. Qed.

Lemma separate_distinct l x y :
  StronglySorted separate l -> In x l -> In y l -> x <> y ->
  conflict x y = false.
Proof.
  induction 1 as [|z l Hs IH Hz]; [intros []|].
  rewrite Forall_forall in Hz.
  intros [->|Hx] [->|Hy] Hne; auto.
  - congruence.
  - now apply Hz.
  - rewrite conflict_sym. now apply Hz.
Qed.

Lemma subseq_full {A} (u l : list A) :
  subseq u l -> NoDup l -> (forall x, In x l -> In x u) -> u = l.
Proof.
  induction 1 as [|x u l H IH|x u l H IH]; intros Hnd Hall.
  - reflexivity.
  - exfalso. inversion Hnd; subst.
    assert (In x u) by (apply Hall; now left).
    eauto using subseq_In.
  - inversion Hnd; subst. f_equal. apply IH; [assumption|].
    intros y Hy. destruct (Hall y (or_intror Hy)) as [->|]; tauto.
Qed.

Lemma list_remove_middle pre ex rest :
  ~ In ex pre -> list_remove ex (pre ++ ex :: rest) = pre ++ rest.
Proof.
  induction pre as [|y pre IH]; simpl; intros Hn.
  - now rewrite (proj2 (hit_eqb_eq ex ex) eq_refl).
  - destruct (hit_eqb y ex) eqn:E.
    + apply hit_eqb_eq in E. tauto.
    + f_equal. apply IH. tauto.
Qed.

(** When the current hit is added, exactly the conflicting shorter hits
    have been removed. *)
Lemma resolve_added cur copy : forall pre u,
  NoDup (pre ++ copy) ->
  resolve cur copy (pre ++ copy) = (true, u) ->
  u = pre ++ filter (fun h => holds_against_later h cur) copy.
Proof.
  induction copy as [|ex rest IH]; intros pre u Hnd.
  - simpl. now intros [= <-].
  - rewrite resolve_cons. unfold holds_against_later at 1. simpl.
    destruct (conflict cur ex) eqn:Ec; simpl.
    + unfold longer_keyword.
      destruct (length (keyword ex) <? length (keyword cur)) eqn:El;
        [|discriminate].
      apply Nat.ltb_lt in El.
      replace (length (keyword cur) <=? length (keyword ex)) with false
        by (symmetry; apply Nat.leb_gt; exact El).
      rewrite list_remove_middle
        by (apply NoDup_remove_2 in Hnd; intros H; apply Hnd, in_or_app;
            now left).
      apply IH. now apply NoDup_remove_1 in Hnd.
    + replace (pre ++ ex :: rest) with ((pre ++ [ex]) ++ rest) in *
        by (rewrite <- app_assoc; reflexivity).
      intros H. apply IH in H; [|assumption].
      rewrite H, <- app_assoc. reflexivity.
Qed.

Lemma cluster_winners_go_snoc cur l : forall before,
  cluster_winners_go before (l ++ [cur]) =
  filter (fun h => holds_against_later h cur) (cluster_winners_go before l)
  ++ (if forallb (beats_earlier cur) (before ++ l) then [cur] else []).
Proof.
  induction l as [|h l IH]; intros before; simpl.
  - rewrite app_nil_r, andb_true_r. now rewrite app_nil_r.
  - rewrite IH, filter_app, forallb_app. simpl.
    rewrite <- !app_assoc. simpl.
    rewrite andb_true_r.
    destruct (forallb (beats_earlier h) before); simpl; [|reflexivity].
    destruct (forallb (holds_against_later h) l); simpl; [|reflexivity].
    destruct (holds_against_later h cur); reflexivity.
Qed.

Lemma cluster_winners_snoc cur l :
  cluster_winners (l ++ [cur]) =
  filter (fun h => holds_against_later h cur) (cluster_winners l)
  ++ (if forallb (beats_earlier cur) l then [cur] else []).
Proof. apply (cluster_winners_go_snoc cur l []). Qed.

Lemma dedup_step_transitive seen cur :
  transitive_on (seen ++ [cur]) ->
  let unique := fold_left dedup_step seen [] in
  represented seen unique ->
  represented (seen ++ [cur]) (dedup_step unique cur)
  /\ dedup_step unique cur =
     filter (fun h => holds_against_later h cur) unique
     ++ (if forallb (beats_earlier cur) seen then [cur] else []).
Proof.
  intros Ht unique Hrep.
  pose proof (dedup_fold_inv seen [] []
    (Build_dedup_inv [] [] subseq_nil (SSorted_nil _)
       (fun h (H : In h []) => match H with end))) as Hinv.
  simpl in Hinv. fold unique in Hinv. destruct Hinv as [Hsub Hsep _].
  assert (Hnd : NoDup unique) by now apply separate_NoDup.
  assert (Hseen : forall x, In x unique -> In x (seen ++ [cur]))
    by (intros x Hx; apply in_or_app; left; eauto using subseq_In).
  assert (Hcur : In cur (seen ++ [cur]))
    by (apply in_or_app; right; now left).
  unfold dedup_step.
  destruct (resolve cur unique unique) as [should_add u] eqn:E.
  pose proof (resolve_spec _ _ _ _ _ E) as (Hu & Hrem & Hno & Hyes).
  destruct should_add.
  - (* the current hit is added *)
    pose proof (resolve_added cur unique [] u Hnd E) as Hfilter.
    simpl in Hfilter.
    assert (Hbeats : forallb (beats_earlier cur) seen = true).
    { apply forallb_forall. intros b Hb. unfold beats_earlier.
      destruct (conflict b cur) eqn:Hbc; [simpl|reflexivity].
      destruct (Hrep b Hb) as (r & Hr & Hbr & Hl).
      assert (Hrc : conflict cur r = true).
      { rewrite conflict_sym.
        apply (Ht r b cur); auto.
        - apply in_or_app; now left.
        - now rewrite conflict_sym. }
      assert (Hnot : ~ In r u) by (apply (Hyes eq_refl Hnd r Hr Hrc)).
      destruct (Hrem r Hr Hnot) as [_ Hlt]. apply Nat.ltb_lt. lia. }
    rewrite Hbeats, <- Hfilter. split; [|reflexivity].
    intros b Hb. apply in_app_or in Hb as [Hb|[Hb|[]]]; [|subst b].
    + destruct (Hrep b Hb) as (r & Hr & Hbr & Hl).
      destruct (in_dec hit_eq_dec r u) as [Hin|Hout].
      * exists r. repeat split; auto. apply in_or_app; now left.
      * destruct (Hrem r Hr Hout) as [Hc Hlt].
        exists cur. repeat split; [apply in_or_app; right; now left| |lia].
        apply (Ht b r cur); auto.
        -- apply in_or_app; now left.
        -- now rewrite conflict_sym.
    + exists cur. repeat split; [apply in_or_app; right; now left| |lia].
      apply conflict_refl.
  - (* the current hit is dropped: nothing was removed *)
    destruct (Hno eq_refl) as (ex & Hex & Hc & Hl).
    assert (Hkeep : forall x, In x unique -> In x u
                              /\ holds_against_later x cur = true).
    { intros x Hx.
      assert (Hx' : conflict cur x = true ->
                    length (keyword cur) <= length (keyword x)).
      { intros Hcx.
        destruct (hit_eq_dec x ex) as [->|Hne]; [assumption|].
        exfalso.
        assert (Hxe : conflict x ex = true).
        { apply (Ht x cur ex); auto. now rewrite conflict_sym. }
        rewrite (separate_distinct unique x ex Hsep Hx Hex Hne) in Hxe.
        discriminate. }
      split.
      - destruct (in_dec hit_eq_dec x u) as [Hin|Hout]; [assumption|].
        destruct (Hrem x Hx Hout) as [Hcx Hlt]. specialize (Hx' Hcx). lia.
      - unfold holds_against_later.
        destruct (conflict cur x); [simpl|reflexivity].
        apply Nat.leb_le. auto. }
    assert (Hu_eq : u = unique)
      by (apply subseq_full; auto; intros x Hx; apply Hkeep, Hx).
    subst u.
    assert (Hfil : filter (fun h => holds_against_later h cur) unique
                   = unique).
    { clear - Hkeep. induction unique as [|x l IH]; [reflexivity|].
      simpl. rewrite (proj2 (Hkeep x (or_introl eq_refl))). f_equal.
      apply IH. intros y Hy. split; [|apply Hkeep; now right].
      destruct (Hkeep y (or_intror Hy)) as [[->|]]; auto. }
    assert (Hlose : forallb (beats_earlier cur) seen = false).
    { apply not_true_is_false. intros Hall.
      rewrite forallb_forall in Hall.
      specialize (Hall ex (subseq_In _ _ ex Hsub Hex)).
      unfold beats_earlier in Hall.
      rewrite conflict_sym, Hc in Hall. simpl in Hall.
      apply Nat.ltb_lt in Hall. lia. }
    rewrite Hfil, Hlose, app_nil_r. split; [|reflexivity].
    intros b Hb. apply in_app_or in Hb as [Hb|[Hb|[]]]; [|subst b].
    + apply Hrep, Hb.
    + exists ex. repeat split; auto.
Qed.

Lemma dedup_fold_transitive l :
  transitive_on l ->
  represented l (fold_left dedup_step l [])
  /\ fold_left dedup_step l [] = cluster_winners l.
Proof.
  induction l as [|cur seen IH] using rev_ind; intros Ht.
  - split; [intros b [] | reflexivity].
  - assert (Ht' : transitive_on seen)
      by (eapply transitive_on_incl; [|exact Ht]; apply incl_appl, incl_refl).
    destruct (IH Ht') as [Hrep Heq].
    destruct (dedup_step_transitive seen cur Ht Hrep) as [Hrep' Hstep].
    rewrite fold_left_app. simpl. split; [assumption|].
    rewrite Hstep, cluster_winners_snoc, Heq. reflexivity.
Qed.

Lemma transitive_on_sorted hits :
  transitive_on hits -> transitive_on (py_sorted hits).
Proof.
  apply transitive_on_incl. intros h. apply py_sorted_In.
Qed.

(** For hits with non-empty spans, being in conflict is overlapping. *)
Lemma conflict_overlap a b :
  start_position a < end_position a -> start_position b < end_position b ->
  conflict a b = _is_overlapping_or_contained a b.
Proof.
  intros Ha Hb. unfold conflict, same_position, _is_overlapping_or_contained.
  destruct (start_position a =? start_position b) eqn:Es; [|reflexivity].
  destruct (end_position a =? end_position b) eqn:Ee; [|reflexivity].
  apply Nat.eqb_eq in Es, Ee. simpl.
  destruct (end_position a <=? start_position b) eqn:E1;
    [apply Nat.leb_le in E1; lia|].
  destruct (end_position b <=? start_position a) eqn:E2;
    [apply Nat.leb_le in E2; lia|].
  reflexivity.
Qed.

(** C2 (amended).  Within a category the kept hits are a subsequence of
    the hits sorted by span, no two kept hits have equal or overlapping
    spans, and every discarded hit conflicts with another candidate whose
    keyword is at least as long.  When overlap is transitive on the
    candidates (the hits of a cluster overlap pairwise), exactly the
    cluster winners are kept: per cluster the hit with the longest
    keyword, the earliest in span order among equals. *)
Theorem c2_overlap_resolution (hits : list hit) :
  let kept := dedup_hits hits in
  subseq kept (py_sorted hits)
  /\ StronglySorted separate kept
  /\ (forall h, In h hits -> ~ In h kept ->
        exists h', In h' hits /\ h' <> h /\ conflict h h' = true
                   /\ length (keyword h) <= length (keyword h'))
  /\ (conflict_transitive_b hits = true ->
        kept = cluster_winners (py_sorted hits)).
Proof.
  cbv zeta. destruct (dedup_hits_inv hits) as [Hsub Hsep Hdis].
  repeat split; auto.
  - intros h Hh Hnot. apply py_sorted_In in Hh.
    destruct (Hdis h Hh Hnot) as (h' & H1 & H2 & H3 & H4).
    exists h'. repeat split; auto. now apply py_sorted_In.
  - intros Ht. apply conflict_transitive_b_spec, transitive_on_sorted in Ht.
    apply (dedup_fold_transitive (py_sorted hits) Ht).
Qed.

End DedupFacts.

(* ================================================================== *)
(** * Facts about the engine *)
(* ================================================================== *)

Lemma any_in_spec indicators s :
  any_in indicators s = true <->
  exists indicator, In indicator indicators /\ occurs_in indicator s.
Proof.
  unfold any_in. rewrite existsb_exists.
  split; intros (i & Hi & H); exists i; split; auto;
    now apply str_contains_spec.
Qed.

(** ** C10: empty text *)

(** C10.  For the empty string (the only falsy [str]) the detection call
    returns the empty mapping at once, whatever the catalog and the two
    options are. *)
Theorem c10_empty_text (self : KeywordMatcher)
    (enable_secondary_filter require_full_combination : bool) :
  detect_keywords_in_text self [] enable_secondary_filter
                          require_full_combination = Ok [].
Proof. reflexivity. Qed.

(** ** C7: the context validity check *)

(** C7.  A candidate is accepted by the context check exactly when: the
    category is [personal_db] and the lower-cased keyword holds a DB
    marker, and no negative indicator occurs in the lower-cased context;
    or that special case does not apply, a trade indicator occurs in the
    keyword or the context or a required indicator of the category occurs
    in the context, and no negative indicator occurs in the context. *)
Theorem c7_context_rule (kw ctx category : str) :
  let keyword_lower := str_lower kw in
  let context_lower := str_lower ctx in
  let self_evident :=
    category = lit "personal_db"
    /\ exists db, In db db_keywords /\ occurs_in db keyword_lower in
  let trade :=
    exists i, In i TRADE_INDICATORS
              /\ (occurs_in i keyword_lower \/ occurs_in i context_lower) in
  let required :=
    exists i, In i (dict_get_list REQUIRED_INDICATORS category)
              /\ occurs_in i context_lower in
  let negative :=
    exists i, In i NEGATIVE_INDICATORS /\ occurs_in i context_lower in
  _is_valid_illegal_context kw ctx category = true <->
  (self_evident /\ ~ negative)
  \/ (~ self_evident /\ (trade \/ required) /\ ~ negative).
Proof.
  cbv zeta. unfold _is_valid_illegal_context.
  assert (Hneg : forall s, negb (any_in NEGATIVE_INDICATORS s) = true <->
            ~ exists i, In i NEGATIVE_INDICATORS /\ occurs_in i s).
  { intros s. rewrite negb_true_iff, <- not_true_iff_false.
    now rewrite any_in_spec. }
  assert (Hself :
    str_eqb category (lit "personal_db")
    && existsb (fun db => str_contains db (str_lower kw)) db_keywords = true
    <-> category = lit "personal_db"
        /\ exists db, In db db_keywords /\ occurs_in db (str_lower kw)).
  { rewrite andb_true_iff, str_eqb_eq. fold (any_in db_keywords (str_lower kw)).
    now rewrite any_in_spec. }
  destruct (str_eqb category (lit "personal_db")
            && existsb (fun db => str_contains db (str_lower kw)) db_keywords)
    eqn:E.
  - rewrite Hneg. apply proj1 in Hself. specialize (Hself eq_refl).
    tauto.
  - assert (Hnot : ~ (category = lit "personal_db"
        /\ exists db, In db db_keywords /\ occurs_in db (str_lower kw)))
      by (intros H; apply Hself in H; discriminate).
    rewrite andb_true_iff, Hneg.
    assert (Hreq :
      (if any_in TRADE_INDICATORS (str_lower kw)
          || any_in TRADE_INDICATORS (str_lower ctx)
       then true
       else any_in (dict_get_list REQUIRED_INDICATORS category)
                   (str_lower ctx)) = true
      <-> (exists i, In i TRADE_INDICATORS
             /\ (occurs_in i (str_lower kw) \/ occurs_in i (str_lower ctx)))
          \/ (exists i, In i (dict_get_list REQUIRED_INDICATORS category)
                /\ occurs_in i (str_lower ctx))).
    { destruct (any_in TRADE_INDICATORS (str_lower kw)) eqn:Ek; simpl.
      - apply any_in_spec in Ek as (i & Hi & Ho).
        split; [intros _; left; exists i; auto | reflexivity].
      - destruct (any_in TRADE_INDICATORS (str_lower ctx)) eqn:Ec.
        + apply any_in_spec in Ec as (i & Hi & Ho).
          split; [intros _; left; exists i; auto | reflexivity].
        + rewrite any_in_spec. split; [intros H; now right|].
          intros [(i & Hi & [Ho|Ho])|H]; [| |exact H]; exfalso.
          * assert (any_in TRADE_INDICATORS (str_lower kw) = true)
              by (apply any_in_spec; eauto). congruence.
          * assert (any_in TRADE_INDICATORS (str_lower ctx) = true)
              by (apply any_in_spec; eauto). congruence. }
    rewrite Hreq. tauto.
Qed.

(** ** Where the hits of a result come from *)

(** The detection result is the deduplication of the scan result. *)
Lemma detect_result self text filt comb d :
  detect_keywords_in_text self text filt comb = Ok d ->
  d = [] \/ exists detected,
    (if comb then _detect_with_combination_filter self text filt
     else detect_exact self text filt) = Ok detected
    /\ d = _remove_duplicates detected.
Proof.
  unfold detect_keywords_in_text. destruct text as [|c text].
  - intros [= <-]. now left.
  - destruct comb.
    + destruct (_detect_with_combination_filter self (c :: text) filt)
        as [det| |] eqn:E; simpl; try discriminate.
      intros [= <-]. right. eauto.
    + destruct (detect_exact self (c :: text) filt)
        as [det| |] eqn:E; simpl; try discriminate.
      intros [= <-]. right. eauto.
Qed.

(** ** C9: order of a result and absence of empty lists *)

(** C9.  In every result of a detection call each category's list is
    non-empty and strictly ascending in
    [(start_position, end_position)]; a category without surviving hits
    therefore has no entry. *)
Theorem c9_result_order (self : KeywordMatcher) (text : str)
    (enable_secondary_filter require_full_combination : bool)
    (d : dict (list hit)) (cat : str) (hits : list hit) :
  detect_keywords_in_text self text enable_secondary_filter
                          require_full_combination = Ok d ->
  dict_get d cat = Some hits ->
  hits <> [] /\ StronglySorted (fun a b => key_lt a b = true) hits.
Proof.
  intros Hd Hget. apply detect_result in Hd as [->|(det & _ & ->)].
  - discriminate.
  - apply remove_duplicates_get in Hget as [Hne (r & _ & ->)].
    split; [assumption | apply dedup_hits_ascending].
Qed.

(** ** The combination scan *)

Lemma presence_spec kw text :
  _check_full_keyword_presence kw text = true <->
  exists v, In v (_expand_alias_variants kw)
            /\ occurs_in (_normalize v) (_normalize text).
Proof.
  unfold _check_full_keyword_presence. rewrite existsb_exists.
  split; intros (v & Hv & H); exists v; split; auto;
    now apply str_contains_spec.
Qed.

Lemma find_positions_In kw text s e m :
  In (s, e, m) (_find_keyword_positions kw text) ->
  exists v, In v (_expand_alias_variants kw)
            /\ In (s, e) (re_finditer true (_create_flexible_pattern v) text)
            /\ m = slice text s e.
Proof.
  unfold _find_keyword_positions. intros H.
  apply in_flat_map in H as (v & Hv & H).
  apply in_map_iff in H as ([s0 e0] & [= <- <- <-] & Hin).
  exists v. auto.
Qed.

Lemma combination_keyword_origin text filt cat hits kw hits' (P : hit -> Prop) :
  (forall h, In h hits -> P h) ->
  (forall h, keyword h = kw ->
             _check_full_keyword_presence kw text = true ->
             (exists v, In v (_expand_alias_variants kw)
                /\ In (start_position h, end_position h)
                      (re_finditer true (_create_flexible_pattern v) text)
                /\ matched_text h
                   = slice text (start_position h) (end_position h)) ->
             P h) ->
  combination_keyword text filt cat hits kw = Ok hits' ->
  forall h, In h hits' -> P h.
Proof.
  intros Hold Hnew. unfold combination_keyword.
  destruct (_check_full_keyword_presence kw text) eqn:Ep;
    [|intros [= <-]; exact Hold].
  apply (foldM_inv _ (fun hs => forall h, In h hs -> P h)); [exact Hold|].
  intros s [[start_pos end_pos] matched] s' Hpos Hs.
  apply find_positions_In in Hpos as (v & Hv & Hspan & ->).
  assert (Hadd : forall h,
            In h (s ++ [mkHit kw (slice text start_pos end_pos) start_pos
                              end_pos
                              (_get_context text start_pos end_pos 50)]) ->
            P h).
  { intros h Hh. apply in_app_or in Hh as [Hh|[<-|[]]]; [auto|].
    apply Hnew; [reflexivity | reflexivity |]. exists v. auto. }
  destruct filt.
  - destruct (_passes_secondary_filter kw (slice text start_pos end_pos)
                text start_pos end_pos cat)
      as [[|]| |]; simpl; try discriminate; intros [= <-];
      [exact Hadd | exact Hs].
  - simpl. intros [= <-]. exact Hadd.
Qed.

Lemma combination_origin self text filt detected :
  _detect_with_combination_filter self text filt = Ok detected ->
  forall cat hits h, In (cat, hits) detected -> In h hits ->
    from_catalog self text cat h.
Proof.
  unfold _detect_with_combination_filter.
  apply (foldM_inv _ (fun det => forall cat hits h,
           In (cat, hits) det -> In h hits -> from_catalog self text cat h)).
  - intros cat hits h [].
  - intros det [cat klist] det' Hentry Hdet.
    destruct (foldM (combination_keyword text filt cat) klist [])
      as [hits| |] eqn:E; simpl; try discriminate.
    assert (Hhits : forall h, In h hits -> from_catalog self text cat h).
    { revert E.
      apply (foldM_inv _ (fun hs => forall h, In h hs ->
                                    from_catalog self text cat h)).
      - intros h [].
      - intros hs kw hs' Hkw Hhs Hstep.
        eapply combination_keyword_origin; [exact Hhs | | exact Hstep].
        intros h Hk Hp (v & Hv & Hspan & Hm).
        exists klist, v. rewrite Hk. auto 7. }
    destruct hits as [|h0 hits]; intros [= <-]; [exact Hdet|].
    intros c hs h Hin Hh. apply dict_set_In in Hin as [[-> ->]|Hin]; eauto.
Qed.

(** ** C6: no fragment-only hit in combination mode *)


(** ** The false-positive filter of the substring scan *)

Lemma false_positive_filter_In fps cat hits h :
  In h (false_positive_filter fps cat hits) -> In h hits.
Proof.
  unfold false_positive_filter.
  destruct hits as [|h0 hits]; [tauto|].
  destruct (dict_get_list fps cat); [tauto|].
  intros H. now apply filter_In in H.
Qed.

Lemma false_positive_filter_free self cat hits h :
  In h (false_positive_filter (false_positive self) cat hits) ->
  false_positive_free self cat h.
Proof.
  unfold false_positive_filter, false_positive_free.
  destruct hits as [|h0 hits]; [intros []|].
  destruct (dict_get_list (false_positive self) cat) as [|p0 ps] eqn:E;
    [intros _ phrase []|].
  intros H phrase Hp Hne Hocc. apply filter_In in H as [_ H].
  apply negb_true_iff in H. apply not_true_iff_false in H. apply H.
  unfold fp_hit. apply existsb_exists.
  exists (_normalize phrase). split.
  - apply in_map, filter_In. split; [exact Hp|].
    destruct phrase; [congruence | reflexivity].
  - now apply str_contains_spec.
Qed.

(** Every list stored by the substring scan went through the
    false-positive filter of its category. *)
Lemma detect_exact_filtered self text filt detected :
  detect_exact self text filt = Ok detected ->
  forall cat hits, In (cat, hits) detected ->
    exists items raw_hits,
      In (cat, items) (compiled_norms self)
      /\ scan_category text (fst (_build_norm_map text))
                       (snd (_build_norm_map text)) filt cat items
         = Ok raw_hits
      /\ hits = false_positive_filter (false_positive self) cat raw_hits.
Proof.
  unfold detect_exact.
  destruct (_build_norm_map text) as [norm_text idx_map]. simpl.
  apply (foldM_inv _ (fun det => forall cat hits, In (cat, hits) det ->
    exists items raw_hits,
      In (cat, items) (compiled_norms self)
      /\ scan_category text norm_text idx_map filt cat items = Ok raw_hits
      /\ hits = false_positive_filter (false_positive self) cat raw_hits)).
  - intros cat hits [].
  - intros det [cat items] det' Hentry Hdet.
    destruct (scan_category text norm_text idx_map filt cat items)
      as [raw_hits| |] eqn:E; simpl; try discriminate.
    destruct (false_positive_filter (false_positive self) cat raw_hits)
      as [|h0 hs] eqn:Ef; intros [= <-]; [exact Hdet|].
    intros c v Hin. apply dict_set_In in Hin as [[-> ->]|Hin]; [|eauto].
    exists items, raw_hits. auto.
Qed.

(** In the substring scan no returned hit has a context that contains a
    configured non-empty false-positive phrase of its category. *)
Lemma exact_scan_false_positive_free self text filt d cat hits h :
  detect_keywords_in_text self text filt false = Ok d ->
  dict_get d cat = Some hits -> In h hits ->
  false_positive_free self cat h.
Proof.
  intros Hd Hget Hh.
  apply detect_result in Hd as [->|(det & Hdet & ->)]; [discriminate|].
  apply remove_duplicates_get in Hget as [_ (r & Hr & ->)].
  apply dedup_hits_In in Hh.
  destruct (detect_exact_filtered _ _ _ _ Hdet _ _ Hr)
    as (items & raw_hits & _ & _ & ->).
  eapply false_positive_filter_free; eauto.
Qed.

(** ** The index map *)

(** The index map lists, in ascending order, offsets of the working
    string. *)
Lemma norm_map_go_bounds t : forall i norm_chars idx_map,
  norm_map_go t i = (norm_chars, idx_map) ->
  Forall (fun x => i <= x < i + length t) idx_map
  /\ StronglySorted lt idx_map.
Proof.
  induction t as [|ch t IH]; intros i norm_chars idx_map; simpl.
  - intros [= <- <-]. split; constructor.
  - destruct (norm_map_go t (S i)) as [n m] eqn:E.
    destruct (IH _ _ _ E) as [Hb Hs].
    assert (Hb' : Forall (fun x => i <= x < i + S (length t)) m)
      by (eapply Forall_impl; [|exact Hb]; simpl; intros; lia).
    destruct (sep_re_match ch); intros [= <- <-].
    + auto.
    + split; constructor; auto; try lia.
      eapply Forall_impl; [|exact Hb]. simpl; intros; lia.
Qed.

Lemma norm_map_go_length t : forall i norm_chars idx_map,
  lower_one_to_one t ->
  norm_map_go t i = (norm_chars, idx_map) ->
  length norm_chars = length idx_map.
Proof.
  induction t as [|ch t IH]; intros i norm_chars idx_map Hl; simpl.
  - now intros [= <- <-].
  - inversion Hl as [|? ? Hc Ht]; subst.
    destruct (norm_map_go t (S i)) as [n m] eqn:E.
    specialize (IH _ _ _ Ht E).
    destruct (sep_re_match ch); intros [= <- <-]; [assumption|].
    rewrite length_app, Hc. simpl. now rewrite IH.
Qed.

Lemma StronglySorted_lt_nth (l : list nat) i j a b :
  StronglySorted lt l -> i <= j ->
  nth_error l i = Some a -> nth_error l j = Some b -> a <= b.
Proof.
  intros Hs. revert i j. induction Hs as [|x l Hs IH Hx]; intros i j Hij.
  - destruct i; discriminate.
  - destruct i, j; simpl; try lia.
    + intros [= <-] [= <-]. lia.
    + intros [= <-] Hb. apply nth_error_In in Hb.
      rewrite Forall_forall in Hx. specialize (Hx b Hb). lia.
    + apply IH. lia.
Qed.

(** ** The loop of one needle *)

Lemma scan_loop_S fuel text norm_text idx_map filt cat item start hits :
  scan_loop (S fuel) text norm_text idx_map filt cat item start hits =
  match str_find (norm item) norm_text start with
  | None => Ok hits
  | Some pos =>
      let end_pos := pos + length (norm item) in
      orig_start <- py_index idx_map (Z.of_nat pos) ;;
      last <- py_index idx_map (Z.of_nat end_pos - 1) ;;
      let orig_end := last + 1 in
      let matched := slice text orig_start orig_end in
      pass <-
        (if filt
         then _passes_secondary_filter (raw item) matched text
                                       orig_start orig_end cat
         else Ok true) ;;
      if pass then
        scan_loop fuel text norm_text idx_map filt cat item end_pos
                  (hits ++ [mkHit (raw item) matched orig_start orig_end
                                  (_get_context text orig_start orig_end 50)])
      else
        scan_loop fuel text norm_text idx_map filt cat item end_pos hits
  end.
Proof. reflexivity. Qed.

(** Whatever holds of every recorded candidate holds of the hit list. *)
Lemma scan_loop_inv (P : hit -> Prop) text norm_text idx_map filt cat item :
  norm item <> [] ->
  (forall pos a b,
      pos + length (norm item) <= length norm_text ->
      nth_error idx_map pos = Some a ->
      nth_error idx_map (pos + length (norm item) - 1) = Some b ->
      P (mkHit (raw item) (slice text a (b + 1)) a (b + 1)
               (_get_context text a (b + 1) 50))) ->
  forall fuel start hits hits',
  (forall h, In h hits -> P h) ->
  scan_loop fuel text norm_text idx_map filt cat item start hits = Ok hits' ->
  forall h, In h hits' -> P h.
Proof.
  intros Hne Hnew. induction fuel as [|fuel IH]; intros start hits hits' Hold;
    simpl; [discriminate|].
  destruct (str_find (norm item) norm_text start) as [pos|] eqn:Ef;
    [|intros [= <-]; exact Hold].
  apply str_find_some in Ef as (_ & Hlen & _).
  rewrite py_index_nat.
  destruct (nth_error idx_map pos) as [a|] eqn:Ea; simpl; [|discriminate].
  rewrite py_index_pred
    by (destruct (norm item); [congruence | simpl; lia]).
  destruct (nth_error idx_map (pos + length (norm item) - 1)) as [b|] eqn:Eb;
    simpl; [|discriminate].
  destruct (if filt
            then _passes_secondary_filter (raw item)
                   (slice text a (b + 1)) text a (b + 1) cat
            else Ok true) as [[|]| |]; simpl; try discriminate.
  - apply IH. intros h Hh. apply in_app_or in Hh as [Hh|[<-|[]]]; eauto.
  - apply IH. exact Hold.
Qed.

(** The secondary filter has no unbounded loop. *)
Lemma boundaries_loop_total text matches :
  boundaries_loop text matches <> OutOfFuel.
Proof.
  induction matches as [|[start end_] rest IH]; simpl; [discriminate|].
  apply bind_not_out_of_fuel.
  - destruct (start =? 0); [discriminate|].
    apply bind_not_out_of_fuel;
      [apply py_index_not_out_of_fuel | discriminate].
  - intros before_ok. apply bind_not_out_of_fuel.
    + destruct (end_ =? length text); [discriminate|].
      apply bind_not_out_of_fuel;
        [apply py_index_not_out_of_fuel | discriminate].
    + intros after_ok. destruct (before_ok && after_ok);
        [discriminate | exact IH].
Qed.

Lemma pattern_loop_total kw text patterns :
  pattern_loop kw text patterns <> OutOfFuel.
Proof.
  induction patterns as [|p ps IH]; simpl; [discriminate|].
  unfold py_re_search. destruct (re_valid p) eqn:Ev; simpl; [|discriminate].
  destruct (re_search false p (str_lower kw)); [|exact IH].
  destruct (re_search false p (str_lower text)); [|exact IH].
  unfold _check_word_boundaries_regex, py_re_finditer. rewrite Ev. simpl.
  destruct (re_finditer false p (str_lower text)); [discriminate|].
  apply boundaries_loop_total.
Qed.

Lemma passes_secondary_filter_total kw matched text s e cat :
  _passes_secondary_filter kw matched text s e cat <> OutOfFuel.
Proof.
  unfold _passes_secondary_filter. apply bind_not_out_of_fuel.
  - unfold _is_exact_keyword_pattern.
    destruct (dict_get_list CATEGORY_PATTERNS cat); [discriminate|].
    apply pattern_loop_total.
  - intros exact. destruct (negb exact); [discriminate|].
    destruct (negb _); discriminate.
Qed.

(** With non-empty needles the loop ends within its budget. *)
Lemma scan_loop_terminates text norm_text idx_map filt cat item :
  norm item <> [] ->
  forall fuel start hits,
  start <= length norm_text -> length norm_text - start < fuel ->
  scan_loop fuel text norm_text idx_map filt cat item start hits
  <> OutOfFuel.
Proof.
  intros Hne. induction fuel as [|fuel IH]; intros start hits Hs Hf;
    simpl; [lia|].
  destruct (str_find (norm item) norm_text start) as [pos|] eqn:Ef;
    [|discriminate].
  apply str_find_some in Ef as (Hpos & Hlen & _).
  assert (0 < length (norm item))
    by (destruct (norm item); [congruence | simpl; lia]).
  apply bind_not_out_of_fuel; [apply py_index_not_out_of_fuel|].
  intros a. apply bind_not_out_of_fuel; [apply py_index_not_out_of_fuel|].
  intros b. apply bind_not_out_of_fuel.
  - destruct filt; [apply passes_secondary_filter_total | discriminate].
  - intros [|]; apply IH; lia.
Qed.

Lemma scan_category_terminates text norm_text idx_map filt cat items :
  (forall it, In it items -> norm it <> []) ->
  scan_category text norm_text idx_map filt cat items <> OutOfFuel.
Proof.
  intros Hne. unfold scan_category. apply foldM_not_out_of_fuel.
  intros hits it Hit. apply scan_loop_terminates; auto; unfold scan_fuel; lia.
Qed.

(** A well-compiled matcher answers every detection call within the
    iteration budget: with a value or with an exception. *)
Lemma detect_terminates self text filt comb :
  well_compiled self ->
  detect_keywords_in_text self text filt comb <> OutOfFuel.
Proof.
  intros Hwc. unfold detect_keywords_in_text.
  destruct text as [|c text]; [discriminate|].
  destruct comb; (apply bind_not_out_of_fuel; [|discriminate]).
  - unfold _detect_with_combination_filter. apply foldM_not_out_of_fuel.
    intros det [cat klist] _. apply bind_not_out_of_fuel.
    + apply foldM_not_out_of_fuel. intros hits kw _.
      unfold combination_keyword.
      destruct (_check_full_keyword_presence kw (c :: text));
        [|discriminate].
      apply foldM_not_out_of_fuel. intros hs [[s e] m] _.
      apply bind_not_out_of_fuel.
      * destruct filt; [apply passes_secondary_filter_total | discriminate].
      * intros [|]; discriminate.
    + intros [|h hs]; discriminate.
  - unfold detect_exact.
    destruct (_build_norm_map (c :: text)) as [norm_text idx_map].
    apply foldM_not_out_of_fuel. intros det [cat items] Hin.
    apply bind_not_out_of_fuel.
    + apply scan_category_terminates. intros it Hit. eapply Hwc; eauto.
    + intros hits.
      destruct (false_positive_filter (false_positive self) cat hits);
        discriminate.
Qed.

(** ** Construction *)

Lemma add_norm_nonempty min_len raw_kw st variant :
  (forall it, In it (fst st) -> norm it <> []) ->
  forall it, In it (fst (add_norm min_len raw_kw st variant)) -> norm it <> [].
Proof.
  destruct st as [bucket seen]. unfold add_norm. intros Hb.
  destruct (match _normalize variant with [] => false | _ :: _ => true end
            && negb (existsb (str_eqb (_normalize variant)) seen)
            && (min_len <=? length (_normalize variant))) eqn:E;
    [|exact Hb].
  intros it Hit. simpl in Hit.
  apply in_app_or in Hit as [Hit|[<-|[]]]; [now apply Hb|].
  simpl. destruct (_normalize variant); [discriminate E | discriminate].
Qed.

Lemma fold_add_norm_nonempty min_len raw_kw variants : forall st,
  (forall it, In it (fst st) -> norm it <> []) ->
  forall it, In it (fst (fold_left (add_norm min_len raw_kw) variants st)) ->
             norm it <> [].
Proof.
  induction variants as [|v vs IH]; intros st Hst; simpl; [exact Hst|].
  apply IH. now apply add_norm_nonempty.
Qed.

Lemma compile_keyword_nonempty mode st raw_kw :
  (forall it, In it (fst st) -> norm it <> []) ->
  forall it, In it (fst (compile_keyword mode st raw_kw)) -> norm it <> [].
Proof.
  unfold compile_keyword. intros Hst.
  destruct (str_eqb mode (lit "exact")).
  - now apply fold_add_norm_nonempty.
  - generalize (_extract_partial_keywords raw_kw). intros partials.
    revert st Hst. induction partials as [|p ps IH]; intros st Hst; simpl;
      [exact Hst|].
    apply IH. now apply fold_add_norm_nonempty.
Qed.

Lemma compile_norms_nonempty mode kws cat items it :
  In (cat, items) (_compile_norms mode kws) -> In it items -> norm it <> [].
Proof.
  unfold _compile_norms. revert cat items it.
  enough (G : forall l acc,
    (forall cat items it, In (cat, items) acc -> In it items ->
                          norm it <> []) ->
    forall cat items it,
    In (cat, items) (fold_left
      (fun compiled (entry : str * list str) =>
         let '(cat, klist) := entry in
         dict_set compiled cat
           (fst (fold_left (compile_keyword mode) klist ([], [])))) l acc) ->
    In it items -> norm it <> []).
  { apply (G kws []). intros ? ? ? []. }
  induction l as [|[c klist] l IH]; intros acc Hacc; simpl; [exact Hacc|].
  apply IH. intros cat items it Hin Hit.
  apply dict_set_In in Hin as [[-> ->]|Hin]; [|eauto].
  revert it Hit.
  assert (G : forall ks st0,
    (forall it, In it (fst st0) -> norm it <> []) ->
    forall it, In it (fst (fold_left (compile_keyword mode) ks st0)) ->
               norm it <> []).
  { induction ks as [|k ks IHk]; intros st0 H0; simpl; [exact H0|].
    apply IHk. now apply compile_keyword_nonempty. }
  apply G. intros ? [].
Qed.

(** A constructed matcher has no empty compiled form. *)
Lemma init_well_compiled rows doc mode :
  well_compiled (__init__ rows doc mode).
Proof.
  unfold well_compiled, __init__. simpl. intros cat items it.
  apply compile_norms_nonempty.
Qed.

(** ** Offsets of the substring scan *)

(** In the substring scan the offsets of a returned hit form a non-empty
    range of the alias-substituted working string. *)
Lemma exact_scan_offsets self text filt d cat hits h :
  well_compiled self ->
  detect_keywords_in_text self text filt false = Ok d ->
  dict_get d cat = Some hits -> In h hits ->
  start_position h < end_position h <= length (apply_aliases text).
Proof.
  intros Hwc Hd Hget Hh.
  apply detect_result in Hd as [->|(det & Hdet & ->)]; [discriminate|].
  apply remove_duplicates_get in Hget as [_ (r & Hr & ->)].
  apply dedup_hits_In in Hh.
  destruct (detect_exact_filtered _ _ _ _ Hdet _ _ Hr)
    as (items & raw_hits & Hitems & Hscan & ->).
  apply false_positive_filter_In in Hh.
  unfold _build_norm_map in Hscan.
  destruct (norm_map_go (apply_aliases text) 0) as [norm_text idx_map] eqn:E.
  simpl in Hscan.
  destruct (norm_map_go_bounds _ _ _ _ E) as [Hb Hs].
  revert h Hh. revert Hscan. unfold scan_category.
  apply (foldM_inv _ (fun hs => forall h, In h hs ->
    start_position h < end_position h <= length (apply_aliases text))).
  - intros h [].
  - intros hs it hs' Hit Hhs.
    apply scan_loop_inv; [eapply Hwc; eauto | | exact Hhs].
    intros pos a b Hlen Ha Hb'. simpl.
    assert (norm it <> []) by (eapply Hwc; eauto).
    assert (0 < length (norm it))
      by (destruct (norm it); [congruence | simpl; lia]).
    assert (Hab : a <= b).
    { apply (StronglySorted_lt_nth idx_map pos
               (pos + length (norm it) - 1)); auto. lia. }
    apply nth_error_In in Hb'. rewrite Forall_forall in Hb.
    specialize (Hb b Hb'). lia.
Qed.

(** ** C8: a malformed category pattern *)

Lemma match_category_pattern_invalid kw text p ps :
  re_valid p = false ->
  _match_category_pattern kw text (p :: ps) = Raise ReError.
Proof.
  intros Hp. unfold _match_category_pattern. simpl.
  unfold py_re_search. now rewrite Hp.
Qed.

Lemma passes_secondary_filter_invalid kw matched text s e cat p ps :
  dict_get_list CATEGORY_PATTERNS cat = p :: ps ->
  re_valid p = false ->
  _passes_secondary_filter kw matched text s e cat = Raise ReError.
Proof.
  intros Hc Hp. unfold _passes_secondary_filter, _is_exact_keyword_pattern.
  rewrite Hc, match_category_pattern_invalid by exact Hp. reflexivity.
Qed.

(** Without the secondary filter the loop of a needle can only fail on an
    index-map lookup. *)
Lemma scan_loop_unfiltered_raise text norm_text idx_map cat item e :
  forall fuel start hits,
  scan_loop fuel text norm_text idx_map false cat item start hits = Raise e ->
  e = IndexError.
Proof.
  induction fuel as [|fuel IH]; intros start hits; simpl; [discriminate|].
  destruct (str_find (norm item) norm_text start) as [pos|]; [|discriminate].
  destruct (py_index idx_map (Z.of_nat pos)) as [a|e1|] eqn:Ea; simpl;
    [|intros [= <-]; eapply py_index_raise; eauto|discriminate].
  destruct (py_index idx_map (Z.of_nat (pos + length (norm item)) - 1))
    as [b|e1|] eqn:Eb; simpl;
    [|intros [= <-]; eapply py_index_raise; eauto|discriminate].
  apply IH.
Qed.

Lemma detect_unfiltered_raise self text comb e :
  detect_keywords_in_text self text false comb = Raise e -> e = IndexError.
Proof.
  unfold detect_keywords_in_text. destruct text as [|c text]; [discriminate|].
  destruct comb.
  - destruct (_detect_with_combination_filter self (c :: text) false)
      as [det|e'|] eqn:E; simpl; try discriminate.
    intros [= <-]. exfalso. revert E.
    unfold _detect_with_combination_filter. intros E.
    apply foldM_raise in E as (det & [cat klist] & _ & E).
    destruct (foldM (combination_keyword (c :: text) false cat) klist [])
      as [hits|e''|] eqn:E2; simpl in E; try discriminate.
    + destruct hits; discriminate.
    + apply foldM_raise in E2 as (hits & kw & _ & E2).
      unfold combination_keyword in E2.
      destruct (_check_full_keyword_presence kw (c :: text));
        [|discriminate].
      apply foldM_raise in E2 as (hs & [[s e0] m] & _ & E2).
      discriminate.
  - destruct (detect_exact self (c :: text) false)
      as [det|e'|] eqn:E; simpl; try discriminate.
    intros [= <-]. revert E. unfold detect_exact.
    destruct (_build_norm_map (c :: text)) as [norm_text idx_map].
    intros E. apply foldM_raise in E as (det & [cat items] & _ & E).
    destruct (scan_category (c :: text) norm_text idx_map false cat items)
      as [hits|e''|] eqn:E2; simpl in E; try discriminate.
    + destruct (false_positive_filter _ _ _); discriminate.
    + injection E as <-.
      apply foldM_raise in E2 as (hits & it & _ & E2).
      eapply scan_loop_unfiltered_raise; eauto.
Qed.

(** With the secondary filter enabled, an occurrence of a needle of a
    category whose first pattern is malformed makes the substring scan
    fail. *)
Lemma detect_exact_invalid_pattern self text cat p ps items it :
  dict_get_list CATEGORY_PATTERNS cat = p :: ps ->
  re_valid p = false ->
  In (cat, items) (compiled_norms self) -> In it items ->
  str_contains (norm it) (fst (_build_norm_map text)) = true ->
  forall det, detect_exact self text true <> Ok det.
Proof.
  intros Hc Hp Hitems Hit Hocc det Hdet. unfold detect_exact in Hdet.
  destruct (_build_norm_map text) as [norm_text idx_map]. simpl in Hocc.
  destruct (foldM_steps_ok _ _ _ _ Hdet _ Hitems) as (d0 & d1 & Hstep).
  simpl in Hstep.
  destruct (scan_category text norm_text idx_map true cat items)
    as [hits| |] eqn:E; simpl in Hstep; try discriminate.
  unfold scan_category in E.
  destruct (foldM_steps_ok _ _ _ _ E _ Hit) as (h0 & h1 & Hloop).
  unfold scan_fuel in Hloop. rewrite scan_loop_S in Hloop.
  unfold str_contains in Hocc.
  destruct (str_find (norm it) norm_text 0) as [pos|]; [|discriminate].
  cbv zeta in Hloop.
  destruct (py_index idx_map (Z.of_nat pos)) as [a| |];
    [|discriminate|discriminate].
  unfold bind at 1 in Hloop.
  destruct (py_index idx_map (Z.of_nat (pos + length (norm it)) - 1))
    as [b| |]; [|discriminate|discriminate].
  unfold bind at 1 in Hloop.
  rewrite (passes_secondary_filter_invalid _ _ _ _ _ _ _ _ Hc Hp) in Hloop.
  discriminate.
Qed.

(** C8 (amended).  Construction never consults the per-category pattern
    table, so a malformed pattern does not make it fail: for the matcher
    built by [__init__], the pattern check of a category whose first
    pattern is malformed raises [re.error] on every candidate; a
    detection call with the secondary filter disabled never raises it;
    and a detection call of the substring scan with the filter enabled
    raises an exception as soon as a compiled form of that category
    occurs in the normalised text. *)
Theorem c8_malformed_pattern_surfaces_in_detection
    (rows : list (list str)) (doc : option json_doc) (mode : str)
    (text cat p : str) (ps : list str) :
  dict_get_list CATEGORY_PATTERNS cat = p :: ps ->
  re_valid p = false ->
  let self := __init__ rows doc mode in
  (forall kw matched s e,
      _passes_secondary_filter kw matched text s e cat = Raise ReError)
  /\ (forall comb,
        detect_keywords_in_text self text false comb <> Raise ReError)
  /\ (forall items it,
        text <> [] ->
        In (cat, items) (compiled_norms self) -> In it items ->
        str_contains (norm it) (fst (_build_norm_map text)) = true ->
        exists e, detect_keywords_in_text self text true false = Raise e).
Proof.
  intros Hc Hp self. repeat split.
  - intros. eapply passes_secondary_filter_invalid; eauto.
  - intros comb H. apply detect_unfiltered_raise in H. discriminate.
  - intros items it Htext Hitems Hit Hocc.
    pose proof (detect_terminates self text true false
                  (init_well_compiled rows doc mode)) as Hfuel.
    destruct (detect_keywords_in_text self text true false)
      as [d|e|] eqn:E; [exfalso|eauto|congruence].
    unfold detect_keywords_in_text in E.
    destruct text as [|c text]; [congruence|].
    destruct (detect_exact self (c :: text) true) as [det| |] eqn:E2;
      simpl in E; try discriminate.
    eapply detect_exact_invalid_pattern; eauto.
Qed.

(** ** C3: index-map translation *)

Lemma nth_error_nth_lt {A} (l : list A) k d :
  k < length l -> nth_error l k = Some (nth k l d).
Proof.
  revert k. induction l as [|x l IH]; intros [|k]; simpl; try lia; auto.
  intros H. apply IH. lia.
Qed.

(** Without the secondary filter, and with an index map as long as the
    normalised text, the loop of a needle records one candidate per
    occurrence. *)
Lemma scan_loop_unfiltered text norm_text idx_map cat item :
  norm item <> [] ->
  length norm_text = length idx_map ->
  forall fuel start hits,
  start <= length norm_text -> length norm_text - start < fuel ->
  scan_loop fuel text norm_text idx_map false cat item start hits =
  Ok (hits ++ map (candidate_at text idx_map item)
                  (occurrences fuel (norm item) norm_text start)).
Proof.
  intros Hne Hlen. induction fuel as [|fuel IH]; intros start hits Hs Hf;
    [lia|].
  rewrite scan_loop_S. simpl occurrences.
  destruct (str_find (norm item) norm_text start) as [pos|] eqn:Ef;
    [|now rewrite app_nil_r].
  apply str_find_some in Ef as (Hpos & Hend & _).
  assert (0 < length (norm item))
    by (destruct (norm item); [congruence | simpl; lia]).
  cbv zeta. rewrite py_index_nat, py_index_pred by lia.
  rewrite (nth_error_nth_lt idx_map pos 0) by lia.
  rewrite (nth_error_nth_lt idx_map (pos + length (norm item) - 1) 0) by lia.
  simpl bind. rewrite IH by lia.
  rewrite <- app_assoc. reflexivity.
Qed.

Lemma scan_category_unfiltered text norm_text idx_map cat items :
  (forall it, In it items -> norm it <> []) ->
  length norm_text = length idx_map ->
  scan_category text norm_text idx_map false cat items =
  Ok (flat_map
        (fun item =>
           map (candidate_at text idx_map item)
               (occurrences (scan_fuel norm_text) (norm item) norm_text 0))
        items).
Proof.
  intros Hne Hlen. unfold scan_category.
  enough (G : forall hits,
    foldM (fun hits item =>
             scan_loop (scan_fuel norm_text) text norm_text idx_map false
                       cat item 0 hits) items hits =
    Ok (hits ++ flat_map
          (fun item =>
             map (candidate_at text idx_map item)
                 (occurrences (scan_fuel norm_text) (norm item) norm_text 0))
          items)) by apply (G []).
  induction items as [|it items IH]; intros hits; cbn [foldM flat_map].
  - now rewrite app_nil_r.
  - rewrite scan_loop_unfiltered; auto; try (unfold scan_fuel; lia).
    + cbn [bind]. rewrite IH, <- app_assoc; [reflexivity|].
      intros; apply Hne; now right.
    + apply Hne; now left.
Qed.

(** Without the secondary filter the substring scan records every
    occurrence and returns. *)
Lemma unfiltered_scan_total (self : KeywordMatcher) (text : str) :
  well_compiled self ->
  lower_one_to_one (apply_aliases text) ->
  let norm_text := fst (_build_norm_map text) in
  let idx_map := snd (_build_norm_map text) in
  (forall cat items,
      In (cat, items) (compiled_norms self) ->
      scan_category text norm_text idx_map false cat items =
      Ok (flat_map
            (fun item =>
               map (candidate_at text idx_map item)
                   (occurrences (scan_fuel norm_text) (norm item)
                                norm_text 0))
            items))
  /\ exists d, detect_keywords_in_text self text false false = Ok d.
Proof.
  intros Hwc Hlow norm_text idx_map.
  assert (Hlen : length norm_text = length idx_map).
  { subst norm_text idx_map. unfold _build_norm_map.
    destruct (norm_map_go (apply_aliases text) 0) as [n m] eqn:E.
    simpl. eapply norm_map_go_length; eauto. }
  assert (Hscan : forall cat items,
    In (cat, items) (compiled_norms self) ->
    scan_category text norm_text idx_map false cat items =
    Ok (flat_map
          (fun item =>
             map (candidate_at text idx_map item)
                 (occurrences (scan_fuel norm_text) (norm item)
                              norm_text 0))
          items)).
  { intros cat items Hin. apply scan_category_unfiltered; auto.
    intros it Hit. eapply Hwc; eauto. }
  split; [exact Hscan|].
  unfold detect_keywords_in_text. destruct text as [|c text]; [eauto|].
  enough (exists det, detect_exact self (c :: text) false = Ok det)
    as [det ->] by (simpl; eauto).
  unfold detect_exact. subst norm_text idx_map.
  destruct (_build_norm_map (c :: text)) as [n m]. simpl in *.
  apply foldM_ok. intros det [cat items] Hin.
  rewrite (Hscan cat items Hin). simpl.
  destruct (false_positive_filter _ _ _); eauto.
Qed.


(** C3 (amended).  The substring scan has no fail-closed path.  For a
    matcher without empty compiled forms and a working string each of
    whose characters lower-cases to one character, every index-map
    lookup succeeds: with the secondary filter disabled the scan of a
    category yields one candidate per occurrence of each needle, none is
    dropped on account of its offsets (an offset past the end of the
    caller's text is clamped by slicing), and the detection call returns
    a result. *)
Theorem c3_translation_keeps_every_candidate
    (self : KeywordMatcher) (text : str) :
  well_compiled self ->
  lower_one_to_one (apply_aliases text) ->
  let norm_text := fst (_build_norm_map text) in
  let idx_map := snd (_build_norm_map text) in
  (forall cat items,
      In (cat, items) (compiled_norms self) ->
      scan_category text norm_text idx_map false cat items =
      Ok (flat_map
            (fun item =>
               map (candidate_at text idx_map item)
                   (occurrences (scan_fuel norm_text) (norm item)
                                norm_text 0))
            items))
  /\ exists d, detect_keywords_in_text self text false false = Ok d.
Proof. apply unfiltered_scan_total. Qed.

(** ** C4: literal occurrences in the substring scan *)

(** *** Slices *)

Lemma slice_clamp (s : str) a b :
  slice s a b = slice s (Nat.min a (length s)) (Nat.min b (length s)).
Proof.
  unfold slice.
  destruct (Nat.le_gt_cases (length s) a) as [Ha|Ha].
  - rewrite (Nat.min_r a (length s)) by exact Ha.
    rewrite !skipn_all2 by lia. now rewrite !firstn_nil.
  - rewrite (Nat.min_l a) by lia.
    destruct (Nat.le_gt_cases (length s) b) as [Hb|Hb].
    + rewrite (Nat.min_r b) by exact Hb.
      rewrite !firstn_all2; [reflexivity | | ]; rewrite length_skipn; lia.
    + now rewrite (Nat.min_l b) by lia.
Qed.

Lemma slice_in_all_slices (s : str) a b : In (slice s a b) (all_slices s).
Proof.
  rewrite slice_clamp. unfold all_slices. apply in_flat_map.
  exists (Nat.min a (length s)). split; [apply in_seq; lia|].
  apply in_map_iff. exists (Nat.min b (length s)).
  split; [reflexivity | apply in_seq; lia].
Qed.

Lemma slice_middle (pre k post : str) :
  slice (pre ++ k ++ post) (length pre) (length pre + length k) = k.
Proof.
  unfold slice. rewrite skipn_app, Nat.sub_diag, skipn_all. simpl.
  replace (length pre + length k - length pre) with (length k) by lia.
  rewrite firstn_app, Nat.sub_diag, firstn_all. simpl. apply app_nil_r.
Qed.

Lemma slice_whole (s : str) : slice s 0 (length s) = s.
Proof. unfold slice. simpl. rewrite Nat.sub_0_r. apply firstn_all. Qed.

Lemma firstn_slice (s : str) a b :
  a <= b -> firstn b s = firstn a s ++ slice s a b.
Proof.
  intros Hab. unfold slice.
  rewrite <- (firstn_skipn a s) at 1.
  rewrite firstn_app, firstn_firstn, Nat.min_r by lia.
  rewrite length_firstn.
  destruct (Nat.le_gt_cases a (length s)) as [Ha|Ha].
  - rewrite Nat.min_l by lia. reflexivity.
  - rewrite Nat.min_r by lia.
    rewrite !skipn_all2 by lia. now rewrite !firstn_nil.
Qed.

Lemma slice_incl (s : str) a b ch : In ch (slice s a b) -> In ch s.
Proof.
  unfold slice. intros H.
  rewrite <- (firstn_skipn a s). apply in_or_app. right.
  rewrite <- (firstn_skipn (b - a) (skipn a s)). apply in_or_app. now left.
Qed.

(** *** Normalisation of plain text *)

Lemma lower_is_plain_char text ch :
  lower_is_plain text = true -> In ch text ->
  exists c, char_lower ch = [c] /\ is_separator c = is_separator ch.
Proof.
  unfold lower_is_plain. rewrite forallb_forall. intros H Hin.
  specialize (H ch Hin).
  destruct (char_lower ch) as [|c [|c' l]]; try discriminate.
  exists c. split; [reflexivity | now apply eqb_prop].
Qed.

Lemma lower_is_plain_one_to_one text s :
  lower_is_plain text = true -> incl s text -> lower_one_to_one s.
Proof.
  intros Hp Hs. unfold lower_one_to_one. apply Forall_forall.
  intros ch Hch.
  destruct (lower_is_plain_char text ch Hp (Hs ch Hch)) as (c & -> & _).
  reflexivity.
Qed.

Lemma strip_lower_plain text s :
  lower_is_plain text = true -> incl s text ->
  sep_re_sub_empty (flat_map char_lower s) = norm_chars_of s.
Proof.
  intros Hp. unfold sep_re_sub_empty, norm_chars_of, sep_re_match.
  induction s as [|ch s IH]; intros Hs; [reflexivity|]. simpl.
  destruct (lower_is_plain_char text ch Hp (Hs ch (or_introl eq_refl)))
    as (c & -> & Hc).
  simpl. rewrite Hc, IH by (intros x Hx; apply Hs; now right).
  destruct (is_separator ch); reflexivity.
Qed.

Lemma stretches_agree_spec text k a b :
  stretches_agree text k = true ->
  a <= length (apply_aliases text) -> b <= length (apply_aliases text) ->
  norm_chars_of (slice (apply_aliases text) a b)
  = norm_chars_of (apply_aliases k) ->
  slice text a b <> []
  /\ apply_aliases (slice text a b) = slice (apply_aliases text) a b
  /\ str_lower (slice (apply_aliases text) a b)
     = flat_map char_lower (slice (apply_aliases text) a b).
Proof.
  unfold stretches_agree. cbv zeta. rewrite forallb_forall.
  intros H Ha Hb Hn.
  specialize (H a ltac:(apply in_seq; lia)).
  rewrite forallb_forall in H.
  specialize (H b ltac:(apply in_seq; lia)).
  rewrite Hn, str_eqb_refl in H.
  apply andb_true_iff in H as [H H3]. apply andb_true_iff in H as [H1 H2].
  apply str_eqb_eq in H2. apply str_eqb_eq in H3.
  split; [|split; assumption].
  destruct (slice text a b); [discriminate | discriminate].
Qed.

Lemma norm_chars_of_app a b :
  norm_chars_of (a ++ b) = norm_chars_of a ++ norm_chars_of b.
Proof. apply flat_map_app. Qed.

(** *** The index map and prefixes of the working string *)

Lemma norm_map_go_fst t : forall i,
  fst (norm_map_go t i) = norm_chars_of t.
Proof.
  induction t as [|ch t IH]; intros i; simpl; [reflexivity|].
  specialize (IH (S i)). destruct (norm_map_go t (S i)) as [n m].
  simpl in IH. destruct (sep_re_match ch); simpl; now rewrite IH.
Qed.

(** The [j]-th entry of the index map is the offset of the character
    that produced the [j]-th normalised character. *)
Lemma norm_map_go_prefix t : forall i j x,
  lower_one_to_one t ->
  nth_error (snd (norm_map_go t i)) j = Some x ->
  i <= x
  /\ norm_chars_of (firstn (x - i) t) = firstn j (norm_chars_of t)
  /\ norm_chars_of (firstn (S (x - i)) t) = firstn (S j) (norm_chars_of t).
Proof.
  unfold norm_chars_of.
  induction t as [|ch t IH]; intros i j x Hl.
  - destruct j; discriminate.
  - inversion Hl as [|? ? Hc Ht]; subst.
    specialize (IH (S i)). cbn [norm_map_go].
    destruct (norm_map_go t (S i)) as [n m] eqn:E. cbn [snd] in IH.
    assert (Hcons : forall k l,
      flat_map (fun ch => if sep_re_match ch then [] else char_lower ch)
               (firstn (S k) (ch :: l)) =
      (if sep_re_match ch then [] else char_lower ch)
      ++ flat_map (fun ch => if sep_re_match ch then [] else char_lower ch)
                  (firstn k l)) by reflexivity.
    cbn [flat_map].
    destruct (sep_re_match ch) eqn:Es; cbn [snd app] in *.
    + intros Hx. destruct (IH j x Ht Hx) as (Hle & H1 & H2).
      replace (x - i) with (S (x - S i)) by lia.
      rewrite !Hcons. cbn [app]. split; [lia|]. split; assumption.
    + destruct (char_lower ch) as [|c [|c' l]] eqn:Ec; try discriminate.
      cbn [app] in *.
      destruct j as [|j]; cbn [nth_error].
      * intros [= <-]. rewrite Nat.sub_diag, Hcons.
        split; [lia|]. split; reflexivity.
      * intros Hx. destruct (IH j x Ht Hx) as (Hle & H1 & H2).
        replace (x - i) with (S (x - S i)) by lia.
        rewrite !Hcons, H1, H2, !firstn_cons.
        split; [lia|]. split; reflexivity.
Qed.

(** The slice of the working string selected by an occurrence of a
    needle normalises to the needle. *)
Lemma candidate_slice_norm t needle pos a b :
  lower_one_to_one t -> needle <> [] ->
  pos + length needle <= length (norm_chars_of t) ->
  firstn (length needle) (skipn pos (norm_chars_of t)) = needle ->
  nth_error (snd (norm_map_go t 0)) pos = Some a ->
  nth_error (snd (norm_map_go t 0)) (pos + length needle - 1) = Some b ->
  norm_chars_of (slice t a (b + 1)) = needle.
Proof.
  intros Hl Hne Hlen Hocc Ha Hb.
  assert (0 < length needle) by (destruct needle; [congruence|simpl; lia]).
  destruct (norm_map_go_prefix t 0 pos a Hl Ha) as (_ & Ha1 & _).
  destruct (norm_map_go_prefix t 0 _ b Hl Hb) as (_ & _ & Hb2).
  rewrite Nat.sub_0_r in *.
  replace (S (pos + length needle - 1)) with (pos + length needle) in Hb2
    by lia.
  assert (Hab : a <= b + 1).
  { destruct (norm_map_go t 0) as [n m] eqn:E.
    destruct (norm_map_go_bounds _ _ _ _ E) as [_ Hs]. simpl in Ha, Hb.
    pose proof (StronglySorted_lt_nth m pos (pos + length needle - 1) a b
                  Hs ltac:(lia) Ha Hb). lia. }
  pose proof (firstn_slice t a (b + 1) Hab) as Hsplit.
  apply (f_equal norm_chars_of) in Hsplit.
  rewrite norm_chars_of_app in Hsplit.
  replace (b + 1) with (S b) in Hsplit at 1 by lia.
  rewrite Hb2, Ha1 in Hsplit.
  rewrite <- (firstn_skipn pos (norm_chars_of t)) in Hsplit at 1.
  rewrite firstn_app, firstn_firstn, length_firstn in Hsplit.
  rewrite (Nat.min_r (pos + length needle) pos) in Hsplit by lia.
  rewrite (Nat.min_l pos (length (norm_chars_of t))) in Hsplit by lia.
  replace (pos + length needle - pos) with (length needle) in Hsplit by lia.
  rewrite Hocc in Hsplit.
  apply app_inv_head in Hsplit. now symmetry.
Qed.

(** *** The catalog and its compiled forms *)

Lemma fold_left_inv {A S} (f : S -> A -> S) (I : S -> Prop) l :
  forall s, I s -> (forall s x, I s -> I (f s x)) -> I (fold_left f l s).
Proof. induction l as [|x l IH]; intros s Hs Hf; simpl; auto. Qed.

Lemma init_catalog_keys rows doc mode :
  NoDup (map fst (illegal_keywords (__init__ rows doc mode))).
Proof.
  unfold __init__. simpl.
  assert (Happ : forall d c kw, NoDup (map fst d) ->
                                NoDup (map fst (dict_append d c kw)))
    by (intros; now apply dict_set_keys).
  assert (Hload : NoDup (map fst (_load_illegal_from_db rows))).
  { unfold _load_illegal_from_db.
    apply (fold_left_inv _ (fun d => NoDup (map fst d))); [constructor|].
    intros d [|x0 [|cat [|kw row]]] Hd; auto. }
  unfold _maybe_merge_illegal_from_json. destruct doc as [data|]; [|exact Hload].
  apply (fold_left_inv _ (fun d => NoDup (map fst d))); [exact Hload|].
  intros d [cat kw_list] Hd.
  apply (fold_left_inv _ (fun d => NoDup (map fst d))); [exact Hd|].
  intros d' kw Hd'.
  assert (Hsd : NoDup (map fst (dict_setdefault d' cat))).
  { unfold dict_setdefault. destruct (dict_get d' cat); [exact Hd'|].
    now apply dict_set_keys. }
  destruct (existsb _ _); auto.
Qed.

Lemma compile_norms_keys mode kws :
  NoDup (map fst (_compile_norms mode kws)).
Proof.
  unfold _compile_norms.
  apply (fold_left_inv _ (fun d => NoDup (map fst d))); [constructor|].
  intros d [cat klist] Hd. now apply dict_set_keys.
Qed.

Lemma compile_norms_get mode kws cat klist :
  NoDup (map fst kws) -> dict_get kws cat = Some klist ->
  dict_get (_compile_norms mode kws) cat
  = Some (fst (fold_left (compile_keyword mode) klist ([], []))).
Proof.
  intros Hnd Hget. apply dict_get_In in Hget.
  unfold _compile_norms.
  set (f := fun compiled (entry : str * list str) =>
       let '(cat, klist) := entry in
       dict_set compiled cat
         (fst (fold_left (compile_keyword mode) klist ([], [])))).
  pose proof (foldM_pure f kws []) as Hpure.
  assert (Hlocal : forall acc c x acc',
            (fun s x => Ok (f s x)) acc (c, x) = Ok acc' ->
            acc' = acc \/ exists z, acc' = dict_set acc c z)
    by (intros acc c x acc'; simpl; intros [= H]; subst acc'; eauto).
  destruct (foldM_dict_get _ kws cat klist Hlocal Hnd Hget _ _ Hpure)
    as (acc0 & acc1 & Hstep & ->).
  simpl in Hstep. injection Hstep as <-. apply dict_get_set_same.
Qed.

Lemma add_norm_keeps min_len raw_kw st variant n :
  has_norm n st -> has_norm n (add_norm min_len raw_kw st variant).
Proof.
  destruct st as [bucket seen]. unfold add_norm, has_norm.
  intros (it & Hit & Hn).
  destruct (_ && _ && _); [|eauto].
  exists it. split; [apply in_or_app; now left | exact Hn].
Qed.

Lemma add_norm_seen_ok min_len raw_kw st variant :
  seen_ok st -> seen_ok (add_norm min_len raw_kw st variant).
Proof.
  destruct st as [bucket seen]. unfold add_norm, seen_ok, has_norm.
  intros Hok. destruct (_ && _ && _); [|exact Hok].
  simpl. intros n [<-|Hn].
  - eexists. split; [apply in_or_app; right; now left | reflexivity].
  - destruct (Hok n Hn) as (it & Hit & Heq).
    exists it. split; [apply in_or_app; now left | exact Heq].
Qed.

Lemma add_norm_adds raw_kw st variant :
  seen_ok st -> _normalize variant <> [] ->
  has_norm (_normalize variant) (add_norm 0 raw_kw st variant).
Proof.
  destruct st as [bucket seen]. unfold add_norm. intros Hok Hne.
  replace (match _normalize variant with [] => false | _ :: _ => true end)
    with true by (destruct (_normalize variant); congruence).
  change (0 <=? length (_normalize variant)) with true.
  rewrite andb_true_r, andb_true_l.
  destruct (existsb (str_eqb (_normalize variant)) seen) eqn:Es;
    cbn [negb].
  - apply existsb_exists in Es as (n' & Hn' & Heq).
    apply str_eqb_eq in Heq; subst n'. now apply Hok.
  - eexists. split; [apply in_or_app; right; now left | reflexivity].
Qed.

Lemma fold_add_norm_keeps min_len raw_kw variants n : forall st,
  has_norm n st ->
  has_norm n (fold_left (add_norm min_len raw_kw) variants st).
Proof.
  induction variants as [|v vs IH]; intros st H; simpl; [exact H|].
  apply IH. now apply add_norm_keeps.
Qed.

Lemma fold_add_norm_seen_ok min_len raw_kw variants : forall st,
  seen_ok st -> seen_ok (fold_left (add_norm min_len raw_kw) variants st).
Proof.
  induction variants as [|v vs IH]; intros st H; simpl; [exact H|].
  apply IH. now apply add_norm_seen_ok.
Qed.

Lemma fold_add_norm_adds raw_kw variants v : forall st,
  seen_ok st -> In v variants -> _normalize v <> [] ->
  has_norm (_normalize v) (fold_left (add_norm 0 raw_kw) variants st).
Proof.
  induction variants as [|w ws IH]; intros st Hok Hin Hne;
    [destruct Hin|]. destruct Hin as [<-|Hin]; simpl.
  - apply fold_add_norm_keeps. now apply add_norm_adds.
  - apply IH; auto. now apply add_norm_seen_ok.
Qed.

(** In exact mode the bucket of a category holds the normalised form of
    each of its keywords. *)
Lemma compile_exact_has_keyword klist k :
  (forall l x, In x l -> In x (set_order l)) ->
  In k klist -> _normalize k <> [] ->
  has_norm (_normalize k)
           (fold_left (compile_keyword (lit "exact")) klist ([], [])).
Proof.
  intros Hset.
  assert (Hstep_ok : forall st kw, seen_ok st ->
            seen_ok (compile_keyword (lit "exact") st kw))
    by (intros st kw; unfold compile_keyword; simpl str_eqb; cbv iota;
        apply fold_add_norm_seen_ok).
  assert (Hstep_keep : forall st kw n, has_norm n st ->
            has_norm n (compile_keyword (lit "exact") st kw))
    by (intros st kw n; unfold compile_keyword; simpl str_eqb; cbv iota;
        apply fold_add_norm_keeps).
  assert (G : forall ks st, seen_ok st -> In k ks -> _normalize k <> [] ->
            has_norm (_normalize k)
                     (fold_left (compile_keyword (lit "exact")) ks st)).
  { induction ks as [|kw ks IH]; intros st Hok Hin Hne;
      [destruct Hin|]. destruct Hin as [<-|Hin]; simpl.
    - apply (fold_left_inv _ (has_norm (_normalize kw))).
      + unfold compile_keyword. simpl str_eqb. cbv iota.
        apply fold_add_norm_adds; auto.
        unfold _expand_alias_variants. apply Hset. now left.
      + intros s x. apply Hstep_keep.
    - apply IH; auto. }
  apply G. intros n [].
Qed.

(** *** From the candidates to the result *)

Lemma detect_exact_nonempty self text filt :
  text <> [] ->
  detect_keywords_in_text self text filt false =
  (detected <- detect_exact self text filt ;;
   Ok (_remove_duplicates detected)).
Proof. destruct text; [congruence | reflexivity]. Qed.

Lemma remove_duplicates_get_forward detected cat raw_hits :
  NoDup (map fst detected) ->
  dict_get detected cat = Some raw_hits -> raw_hits <> [] ->
  dict_get (_remove_duplicates detected) cat = Some (dedup_hits raw_hits).
Proof.
  intros Hnd Hget Hne. unfold _remove_duplicates.
  destruct detected as [|e0 d0] eqn:Ed; [discriminate|]. rewrite <- Ed in *.
  clear Ed e0 d0.
  set (g := fun cleaned_detected (entry : str * list hit) =>
         let '(category, hits) := entry in
         match hits with
         | [] => cleaned_detected
         | _ :: _ =>
             match dedup_hits hits with
             | [] => cleaned_detected
             | unique_hits => dict_set cleaned_detected category unique_hits
             end
         end).
  pose proof (foldM_pure g detected []) as Hpure.
  assert (Hlocal : forall acc c x acc',
            (fun s x => Ok (g s x)) acc (c, x) = Ok acc' ->
            acc' = acc \/ exists z, acc' = dict_set acc c z).
  { intros acc c x acc'. simpl. intros [= H]. subst acc'.
    destruct x; [now left|]. destruct (dedup_hits _); eauto. }
  destruct (foldM_dict_get _ detected cat raw_hits Hlocal Hnd
              (dict_get_In _ _ _ Hget) _ _ Hpure)
    as (acc0 & acc1 & Hstep & ->).
  simpl in Hstep. injection Hstep as <-.
  pose proof (dedup_hits_nonempty raw_hits Hne) as Hd.
  destruct raw_hits as [|h0 hs]; [congruence|].
  destruct (dedup_hits (h0 :: hs)); [congruence|].
  apply dict_get_set_same.
Qed.

Lemma detect_exact_get self text filt detected cat items raw_hits :
  NoDup (map fst (compiled_norms self)) ->
  detect_exact self text filt = Ok detected ->
  In (cat, items) (compiled_norms self) ->
  scan_category text (fst (_build_norm_map text))
                (snd (_build_norm_map text)) filt cat items = Ok raw_hits ->
  raw_hits <> [] ->
  dict_get_list (false_positive self) cat = [] ->
  NoDup (map fst detected) /\ dict_get detected cat = Some raw_hits.
Proof.
  intros Hnd Hdet Hin Hscan Hne Hfp. unfold detect_exact in Hdet.
  destruct (_build_norm_map text) as [norm_text idx_map]. simpl in Hscan.
  set (step := fun detected (entry : str * list norm_item) =>
       let '(cat, items) := entry in
       hits <- scan_category text norm_text idx_map filt cat items ;;
       let hits := false_positive_filter (false_positive self) cat hits in
       match hits with
       | [] => Ok detected
       | _ :: _ => Ok (dict_set detected cat hits)
       end) in Hdet.
  assert (Hlocal : forall acc c x acc', step acc (c, x) = Ok acc' ->
            acc' = acc \/ exists z, acc' = dict_set acc c z).
  { intros acc c x acc'. unfold step.
    destruct (scan_category text norm_text idx_map filt c x); simpl;
      try discriminate.
    destruct (false_positive_filter _ _ _); intros [= H]; subst; eauto. }
  split.
  - eapply foldM_dict_keys; eauto. constructor.
  - destruct (foldM_dict_get step _ cat items Hlocal Hnd Hin _ _ Hdet)
      as (acc0 & acc1 & Hstep & ->).
    unfold step in Hstep. rewrite Hscan in Hstep. simpl in Hstep.
    assert (Hf : false_positive_filter (false_positive self) cat raw_hits
                 = raw_hits).
    { unfold false_positive_filter. destruct raw_hits; [reflexivity|].
      now rewrite Hfp. }
    rewrite Hf in Hstep. destruct raw_hits; [congruence|].
    injection Hstep as <-. apply dict_get_set_same.
Qed.

(** C4 (amended).  Let the matcher be built in exact mode and let [k] be
    a keyword of category [cat] whose normalisation is not empty and
    which occurs literally in the text.  Assume that converting a set to
    a list keeps every element, that the alias-substituted keyword
    occurs in the alias-substituted text [t], that each character of [t]
    lower-cases to one character of the same separator status, and that
    every stretch [t[a:b]] whose characters, lower-cased one by one and
    without separators, spell the alias-substituted keyword lies over a
    non-empty stretch [text[a:b]] which the alias rules rewrite into it
    and whose [str.lower] is its character-by-character lower-casing.
    Then the substring scan with the secondary filter disabled records a
    candidate [h] in that category whose [matched_text], once
    normalised, is [normalize(k)], and the call returns a result.  If no
    false-positive phrase is configured for the category, the result
    holds [h] unless another candidate of the category conflicts with it
    and has a keyword at least as long. *)
Theorem c4_literal_occurrence_is_scanned
    (rows : list (list str)) (doc : option json_doc)
    (text cat k pre post : str) (klist : list str) :
  let self := __init__ rows doc (lit "exact") in
  let norm_text := fst (_build_norm_map text) in
  let idx_map := snd (_build_norm_map text) in
  (forall l x, In x l -> In x (set_order l)) ->
  dict_get (illegal_keywords self) cat = Some klist -> In k klist ->
  text = pre ++ k ++ post ->
  _normalize k <> [] ->
  occurs_in (apply_aliases k) (apply_aliases text) ->
  lower_is_plain (apply_aliases text) = true ->
  stretches_agree text k = true ->
  exists items raw_hits h d,
    dict_get (compiled_norms self) cat = Some items
    /\ scan_category text norm_text idx_map false cat items = Ok raw_hits
    /\ In h raw_hits
    /\ _normalize (matched_text h) = _normalize k
    /\ detect_keywords_in_text self text false false = Ok d
    /\ (dict_get_list (false_positive self) cat = [] ->
        In h (dict_get_list d cat)
        \/ exists h', In h' raw_hits /\ h' <> h /\ conflict h h' = true
                      /\ length (keyword h) <= length (keyword h')).
Proof.
  intros self norm_text idx_map Hset Hget Hk Htext Hne Hloc Hplain Hstr.
  assert (Hwc : well_compiled self) by apply init_well_compiled.
  set (t := apply_aliases text) in *.
  assert (Hone : lower_one_to_one t)
    by (eapply lower_is_plain_one_to_one; [eauto | apply incl_refl]).
  assert (Hbm : _build_norm_map text = norm_map_go t 0) by reflexivity.
  assert (Hnt : norm_text = norm_chars_of t)
    by (subst norm_text; rewrite Hbm; apply norm_map_go_fst).
  assert (Hidx : idx_map = snd (norm_map_go t 0))
    by (subst idx_map; now rewrite Hbm).
  assert (Hlen : length norm_text = length idx_map).
  { subst norm_text idx_map. rewrite Hbm.
    destruct (norm_map_go t 0) as [n m] eqn:E. simpl.
    eapply norm_map_go_length; eauto. }
  assert (Hbound : forall j, j < length idx_map -> nth j idx_map 0 < length t).
  { intros j Hj. rewrite Hidx in *.
    destruct (norm_map_go t 0) as [n m] eqn:E.
    destruct (norm_map_go_bounds _ _ _ _ E) as [Hb _]. cbn [snd] in *.
    rewrite Forall_forall in Hb.
    specialize (Hb (nth j m 0) (nth_In m 0 Hj)). lia. }
  (* the normal form of the keyword *)
  destruct Hloc as (p & q & Hloc).
  assert (Hk_incl : incl (apply_aliases k) t).
  { intros ch Hch. rewrite Hloc. apply in_or_app. right.
    apply in_or_app. now left. }
  assert (Hnk : _normalize k = norm_chars_of (apply_aliases k)).
  { destruct (stretches_agree_spec text k (length p)
                (length p + length (apply_aliases k)) Hstr)
      as (_ & _ & Hlow); fold t.
    - rewrite Hloc, length_app. lia.
    - rewrite Hloc, !length_app. lia.
    - now rewrite Hloc, slice_middle.
    - fold t in Hlow. rewrite Hloc, slice_middle in Hlow.
      unfold _normalize. destruct k as [|c0 k0]; [now destruct Hne|].
      rewrite Hlow. now apply (strip_lower_plain t). }
  (* the compiled form of the keyword *)
  set (items := fst (fold_left (compile_keyword (lit "exact")) klist ([], []))).
  assert (Hitems : dict_get (compiled_norms self) cat = Some items)
    by (apply (compile_norms_get (lit "exact") _ cat klist
                 (init_catalog_keys rows doc (lit "exact")) Hget)).
  destruct (compile_exact_has_keyword klist k Hset Hk Hne)
    as (it & Hit & Hnorm). fold items in Hit.
  (* its first occurrence in the normalised text *)
  assert (Hfind : exists pos, str_find (norm it) norm_text 0 = Some pos).
  { rewrite Hnorm, Hnk, Hnt, Hloc, !norm_chars_of_app.
    unfold str_find. simpl. apply find_go_found. }
  destruct Hfind as [pos Hfind].
  pose proof (str_find_some _ _ _ _ Hfind) as (_ & Hend & Hocc).
  assert (Hpos : 0 < length (norm it))
    by (rewrite Hnorm; destruct (_normalize k); [congruence | simpl; lia]).
  (* the candidates of the category *)
  destruct (unfiltered_scan_total self text Hwc Hone) as [Hscan [d Hd]].
  fold norm_text idx_map in Hscan.
  specialize (Hscan cat items (dict_get_In _ _ _ Hitems)).
  set (raw_hits := flat_map _ items) in Hscan.
  set (h := candidate_at text idx_map it pos).
  assert (Hh : In h raw_hits).
  { apply in_flat_map. exists it. split; [exact Hit|].
    apply in_map. unfold scan_fuel. cbn [occurrences]. rewrite Hfind.
    now left. }
  exists items, raw_hits, h, d.
  split; [exact Hitems|]. split; [exact Hscan|]. split; [exact Hh|].
  split; [|split; [exact Hd|]].
  - (* the matched text normalises to the needle *)
    unfold h, candidate_at. cbn [matched_text].
    assert (Hcs : norm_chars_of
                    (slice t (nth pos idx_map 0)
                           (nth (pos + length (norm it) - 1) idx_map 0 + 1))
                  = norm it).
    { rewrite Hidx, Hnt in *.
      apply (candidate_slice_norm t (norm it) pos); auto.
      - rewrite Hnorm. exact Hne.
      - apply nth_error_nth_lt. lia.
      - apply nth_error_nth_lt. lia. }
    set (a := nth pos idx_map 0) in *.
    set (b := nth (pos + length (norm it) - 1) idx_map 0) in *.
    destruct (stretches_agree_spec text k a (b + 1) Hstr)
      as (Hs1 & Hs2 & Hs3); fold t.
    + pose proof (Hbound pos ltac:(lia)). subst a. lia.
    + pose proof (Hbound (pos + length (norm it) - 1) ltac:(lia)).
      subst b. lia.
    + now rewrite Hcs, Hnorm.
    + fold t in Hs2, Hs3.
      assert (Hn : _normalize (slice text a (b + 1))
                   = sep_re_sub_empty
                       (str_lower (apply_aliases (slice text a (b + 1)))))
        by (unfold _normalize; destruct (slice text a (b + 1));
            [congruence | reflexivity]).
      rewrite Hn, Hs2, Hs3, (strip_lower_plain t), Hcs; auto.
      intros ch. apply slice_incl.
  - (* the candidate in the result *)
    intros Hfp.
    assert (Hraw : raw_hits <> []) by (intros E; rewrite E in Hh; destruct Hh).
    assert (Htne : text <> []).
    { intros E. rewrite E in Htext. destruct pre; [|discriminate].
      destruct k; [|discriminate]. now apply Hne. }
    rewrite (detect_exact_nonempty self text false Htne) in Hd.
    destruct (detect_exact self text false) as [det| |] eqn:Edet;
      simpl in Hd; try discriminate.
    injection Hd as <-.
    destruct (detect_exact_get self text false det cat items raw_hits
                (compile_norms_keys _ _) Edet (dict_get_In _ _ _ Hitems)
                Hscan Hraw Hfp) as [Hkeys Hdet].
    unfold dict_get_list.
    rewrite (remove_duplicates_get_forward det cat raw_hits Hkeys Hdet Hraw).
    destruct (in_dec hit_eq_dec h (dedup_hits raw_hits)) as [Hin|Hout];
      [now left | right].
    destruct (dedup_hits_inv raw_hits) as [_ _ Hdis].
    destruct (Hdis h (proj2 (py_sorted_In raw_hits h) Hh) Hout)
      as (h' & H1 & H2 & H3 & H4).
    exists h'. repeat split; auto. now apply py_sorted_In.
Qed.

(* ================================================================== *)
(** * Further properties of the code *)
(* ================================================================== *)

(** ** Loading the catalog *)

Lemma dict_get_list_append (d : dict (list str)) c kw cat :
  dict_get_list (dict_append d c kw) cat =
  if str_eqb c cat then dict_get_list d cat ++ [kw] else dict_get_list d cat.
Proof.
  unfold dict_append, dict_get_list at 1.
  destruct (str_eqb c cat) eqn:E.
  - apply str_eqb_eq in E; subst. now rewrite dict_get_set_same.
  - now rewrite dict_get_set_other.
Qed.

Lemma dict_get_list_setdefault (d : dict (list str)) c cat :
  dict_get_list (dict_setdefault d c) cat = dict_get_list d cat.
Proof.
  unfold dict_setdefault. destruct (dict_get d c) eqn:E; [reflexivity|].
  unfold dict_get_list. destruct (str_eqb c cat) eqn:Ec.
  - apply str_eqb_eq in Ec; subst. now rewrite dict_get_set_same, E.
  - now rewrite dict_get_set_other.
Qed.

Lemma load_rows_from (rows : list (list str)) cat : forall acc,
  dict_get_list
    (fold_left
       (fun kws row =>
          match row with
          | _ :: c :: kw :: _ => dict_append kws c kw
          | _ => kws
          end) rows acc) cat
  = dict_get_list acc cat ++ row_keywords rows cat.
Proof.
  induction rows as [|row rows IH]; intros acc; simpl.
  - now rewrite app_nil_r.
  - rewrite IH. destruct row as [|x0 [|c [|kw row]]]; simpl; auto.
    rewrite dict_get_list_append.
    destruct (str_eqb c cat); simpl; [now rewrite <- app_assoc | reflexivity].
Qed.

(** X1.  After loading, the list of a category is exactly the keywords
    of the rows of that category, in row order; rows with fewer than
    three columns contribute nothing, and a category without rows has
    the empty list. *)
Theorem x1_load_lookup (rows : list (list str)) (cat : str) :
  dict_get_list (_load_illegal_from_db rows) cat = row_keywords rows cat.
Proof. unfold _load_illegal_from_db. now rewrite load_rows_from. Qed.

Lemma existsb_str_In kw l : existsb (str_eqb kw) l = true <-> In kw l.
Proof.
  rewrite existsb_exists. split.
  - intros (x & Hx & E). apply str_eqb_eq in E. now subst.
  - intros H. exists kw. split; [exact H | apply str_eqb_refl].
Qed.

Lemma str_eq_dec (a b : str) : {a = b} + {a <> b}.
Proof.
  destruct (str_eqb a b) eqn:E.
  - left. now apply str_eqb_eq.
  - right. intros ->. now rewrite str_eqb_refl in E.
Qed.

Lemma merge_list_spec kws : forall old,
  exists added,
    merge_list old kws = old ++ added
    /\ NoDup added
    /\ forall kw, In kw added <-> In kw kws /\ ~ In kw old.
Proof.
  unfold merge_list.
  induction kws as [|k ks IH]; intros old; simpl.
  - exists []. rewrite app_nil_r. repeat split; try constructor;
      try (intros []); tauto.
  - destruct (existsb (str_eqb k) old) eqn:E.
    + apply existsb_str_In in E.
      destruct (IH old) as (added & Heq & Hnd & Hin).
      exists added. repeat split; auto.
      * apply Hin in H. tauto.
      * apply Hin in H. tauto.
      * intros [[<-|Hk] Hno]; [tauto|]. apply Hin. tauto.
    + assert (Hk : ~ In k old)
        by (intros H; apply existsb_str_In in H; congruence).
      destruct (IH (old ++ [k])) as (added & Heq & Hnd & Hin).
      exists (k :: added). rewrite Heq, <- app_assoc. repeat split; auto.
      * constructor; [|exact Hnd]. intros H. apply Hin in H as [_ H].
        apply H, in_or_app. right. now left.
      * destruct H as [<-|H]; [now left|]. apply Hin in H. tauto.
      * destruct H as [<-|H]; [exact Hk|]. apply Hin in H as [_ H].
        intros Ho. apply H, in_or_app. now left.
      * intros [[<-|Hks] Hno]; [now left|].
        destruct (str_eq_dec k kw) as [->|Hne]; [now left|].
        right. apply Hin. split; [exact Hks|].
        intros H. apply in_app_or in H as [H|[H|[]]]; tauto.
Qed.

Lemma merge_list_app a b : forall old,
  merge_list old (a ++ b) = merge_list (merge_list old a) b.
Proof. intros old. unfold merge_list. apply fold_left_app. Qed.

Lemma merge_entry_list (cat c : str) kw_list : forall kws,
  dict_get_list
    (fold_left
       (fun kws kw =>
          let kws := dict_setdefault kws c in
          if existsb (str_eqb kw) (dict_get_list kws c)
          then kws
          else dict_append kws c kw)
       kw_list kws) cat
  = merge_list (dict_get_list kws cat)
               (if str_eqb c cat then kw_list else []).
Proof.
  induction kw_list as [|kw ks IH]; intros kws; simpl.
  - destruct (str_eqb c cat); reflexivity.
  - rewrite IH. cbv zeta.
    destruct (str_eqb c cat) eqn:Ec.
    + apply str_eqb_eq in Ec; subst c. unfold merge_list at 2. simpl.
      fold (merge_list
              (if existsb (str_eqb kw) (dict_get_list kws cat)
               then dict_get_list kws cat
               else dict_get_list kws cat ++ [kw]) ks).
      f_equal. rewrite dict_get_list_setdefault.
      destruct (existsb (str_eqb kw) (dict_get_list kws cat)).
      * apply dict_get_list_setdefault.
      * rewrite dict_get_list_append, str_eqb_refl.
        now rewrite dict_get_list_setdefault.
    + unfold merge_list. simpl.
      destruct (existsb _ _).
      * apply dict_get_list_setdefault.
      * rewrite dict_get_list_append, Ec. apply dict_get_list_setdefault.
Qed.

Lemma merge_doc_list kws doc cat :
  dict_get_list (_maybe_merge_illegal_from_json kws doc) cat
  = merge_list (dict_get_list kws cat) (doc_keywords doc cat).
Proof.
  unfold _maybe_merge_illegal_from_json, doc_keywords.
  destruct doc as [data|]; [|reflexivity]. cbv zeta.
  assert (G : forall jk kws,
    dict_get_list
      (fold_left
         (fun kws (entry : str * list str) =>
            let '(cat, kw_list) := entry in
            fold_left
              (fun kws kw =>
                 let kws := dict_setdefault kws cat in
                 if existsb (str_eqb kw) (dict_get_list kws cat)
                 then kws
                 else dict_append kws cat kw)
              kw_list kws)
         jk kws) cat
    = merge_list (dict_get_list kws cat)
        (flat_map (fun entry : str * list str =>
                     if str_eqb (fst entry) cat then snd entry else []) jk)).
  { induction jk as [|[c kw_list] jk IH]; intros kws0; simpl.
    - reflexivity.
    - rewrite IH, merge_entry_list, merge_list_app. reflexivity. }
  apply G.
Qed.

(** X2.  Merging the document is additive.  The list of a category
    after the merge is its list before the merge followed by the
    document's keywords of that category that were not in it, each
    once; without a document nothing changes. *)
Theorem x2_merge_is_additive (kws : dict (list str)) (doc : option json_doc)
    (cat : str) :
  let old := dict_get_list kws cat in
  exists added,
    dict_get_list (_maybe_merge_illegal_from_json kws doc) cat = old ++ added
    /\ NoDup added
    /\ (forall kw, In kw added <-> In kw (doc_keywords doc cat) /\ ~ In kw old)
    /\ (doc = None -> added = []).
Proof.
  cbv zeta. rewrite merge_doc_list.
  destruct (merge_list_spec (doc_keywords doc cat) (dict_get_list kws cat))
    as (added & Heq & Hnd & Hin).
  exists added. split; [exact Heq|]. split; [exact Hnd|].
  split; [exact Hin|].
  intros ->. destruct added as [|x l]; [reflexivity|].
  destruct (proj1 (Hin x) (or_introl eq_refl)) as [[] _].
Qed.

(** ** Overlap resolution *)

(** X3.  Two hits overlap in either order alike; two hits with non-empty
    spans overlap exactly when some offset lies in both spans; and a
    span that ends where the other starts does not overlap it. *)
Theorem x3_overlap_shares_an_offset (hit1 hit2 : hit) :
  _is_overlapping_or_contained hit1 hit2
  = _is_overlapping_or_contained hit2 hit1
  /\ (start_position hit1 < end_position hit1 ->
      start_position hit2 < end_position hit2 ->
      (_is_overlapping_or_contained hit1 hit2 = true <->
       exists p, start_position hit1 <= p < end_position hit1
                 /\ start_position hit2 <= p < end_position hit2))
  /\ (end_position hit1 <= start_position hit2 ->
      _is_overlapping_or_contained hit1 hit2 = false).
Proof.
  unfold _is_overlapping_or_contained. split; [|split].
  - f_equal. apply orb_comm.
  - intros H1 H2. rewrite negb_true_iff, orb_false_iff, !Nat.leb_gt. split.
    + intros [Ha Hb].
      exists (Nat.max (start_position hit1) (start_position hit2)). lia.
    + intros (p & Hp1 & Hp2). lia.
  - intros H. apply Nat.leb_le in H. now rewrite H.
Qed.

Lemma resolve_no_conflict cur copy : forall unique,
  (forall x, In x copy -> conflict cur x = false) ->
  resolve cur copy unique = (true, unique).
Proof.
  induction copy as [|ex rest IH]; intros unique Hno; [reflexivity|].
  rewrite resolve_cons, (Hno ex (or_introl eq_refl)).
  apply IH. intros x Hx. apply Hno. now right.
Qed.

Lemma dedup_fold_separate l : forall unique,
  StronglySorted separate (unique ++ l) ->
  fold_left dedup_step l unique = unique ++ l.
Proof.
  induction l as [|cur l IH]; intros unique Hs; simpl.
  - now rewrite app_nil_r.
  - assert (Hstep : dedup_step unique cur = unique ++ [cur]).
    { unfold dedup_step. rewrite resolve_no_conflict; [reflexivity|].
      intros x Hx. rewrite conflict_sym.
      apply StronglySorted_app_inv in Hs as (_ & _ & Hs).
      apply Hs; [exact Hx | now left]. }
    rewrite Hstep, IH; rewrite <- app_assoc; [reflexivity | exact Hs].
Qed.

Lemma py_sorted_fixed l :
  StronglySorted (fun a b => key_le a b = true) l -> py_sorted l = l.
Proof.
  induction 1 as [|h l Hs IH Hh]; simpl; [reflexivity|].
  rewrite IH. destruct l as [|x l]; [reflexivity|]. simpl.
  inversion Hh; subst. now rewrite H1.
Qed.

Lemma dedup_hits_fixed l :
  StronglySorted (fun a b => key_le a b = true) l ->
  StronglySorted separate l ->
  dedup_hits l = l.
Proof.
  intros Hk Hs. unfold dedup_hits. rewrite py_sorted_fixed by exact Hk.
  now apply (dedup_fold_separate l []).
Qed.

Lemma dedup_hits_idempotent hits :
  dedup_hits (dedup_hits hits) = dedup_hits hits.
Proof.
  destruct (dedup_hits_inv hits) as [Hsub Hsep _].
  apply dedup_hits_fixed; [|exact Hsep].
  eapply StronglySorted_subseq; [exact Hsub | apply py_sorted_sorted].
Qed.

Lemma dict_set_fresh {V} (d : dict V) k v :
  ~ In k (map fst d) -> dict_set d k v = d ++ [(k, v)].
Proof.
  induction d as [|[k0 v0] d IH]; simpl; intros Hk; [reflexivity|].
  destruct (str_eqb k0 k) eqn:E.
  - apply str_eqb_eq in E. tauto.
  - f_equal. apply IH. tauto.
Qed.

Lemma remove_duplicates_keys detected :
  NoDup (map fst (_remove_duplicates detected)).
Proof.
  unfold _remove_duplicates. destruct detected as [|e0 d0]; [constructor|].
  apply (fold_left_inv _ (fun d => NoDup (map fst d))); [constructor|].
  intros d [category hits] Hd. destruct hits; [exact Hd|].
  destruct (dedup_hits _); [exact Hd | now apply dict_set_keys].
Qed.

(** X4.  Overlap resolution is idempotent: applied to its own result it
    changes nothing. *)
Theorem x4_remove_duplicates_idempotent (detected : dict (list hit)) :
  _remove_duplicates (_remove_duplicates detected)
  = _remove_duplicates detected.
Proof.
  pose proof (remove_duplicates_keys detected) as Hkeys.
  assert (Hval : forall c v, In (c, v) (_remove_duplicates detected) ->
            v <> [] /\ dedup_hits v = v).
  { intros c v Hin.
    assert (Hget : dict_get (_remove_duplicates detected) c = Some v).
    { clear - Hin Hkeys. induction (_remove_duplicates detected)
        as [|[k0 v0] d IH]; [destruct Hin|]. simpl in *.
      inversion Hkeys as [|? ? Hk Hd]; subst.
      destruct Hin as [[= -> ->]|Hin]; [now rewrite str_eqb_refl|].
      destruct (str_eqb k0 c) eqn:E; [|auto].
      apply str_eqb_eq in E; subst. exfalso. apply Hk.
      apply in_map_iff. exists (c, v). auto. }
    apply remove_duplicates_get in Hget as [Hne (r & _ & ->)].
    split; [exact Hne | apply dedup_hits_idempotent]. }
  set (R := _remove_duplicates detected) in *. clearbody R.
  unfold _remove_duplicates. destruct R as [|e0 R0] eqn:ER; [reflexivity|].
  rewrite <- ER in *. clear ER e0 R0.
  enough (G : forall l acc,
    NoDup (map fst (acc ++ l)) ->
    (forall c v, In (c, v) l -> v <> [] /\ dedup_hits v = v) ->
    fold_left
      (fun cleaned_detected (entry : str * list hit) =>
         let '(category, hits) := entry in
         match hits with
         | [] => cleaned_detected
         | _ :: _ =>
             match dedup_hits hits with
             | [] => cleaned_detected
             | unique_hits => dict_set cleaned_detected category unique_hits
             end
         end) l acc = acc ++ l) by (apply (G R []); auto).
  induction l as [|[c v] l IH]; intros acc Hnd Hl; simpl.
  - now rewrite app_nil_r.
  - destruct (Hl c v (or_introl eq_refl)) as [Hne Hfix].
    destruct v as [|h0 v]; [congruence|]. rewrite Hfix.
    rewrite dict_set_fresh.
    + rewrite IH.
      * rewrite <- app_assoc. reflexivity.
      * rewrite <- app_assoc. exact Hnd.
      * intros c' v' H. apply (Hl c' v'). now right.
    + rewrite map_app in Hnd. apply NoDup_remove_2 in Hnd.
      intros H. apply Hnd, in_or_app. now left.
Qed.

(** X5.  A hit whose span neither equals nor overlaps the span of any
    other hit of its category is always kept. *)
Theorem x5_isolated_hit_is_kept (hits : list hit) (h : hit) :
  In h hits ->
  (forall h', In h' hits -> h' <> h -> conflict h h' = false) ->
  In h (dedup_hits hits).
Proof.
  intros Hh Hiso.
  destruct (in_dec hit_eq_dec h (dedup_hits hits)) as [Hin|Hout];
    [exact Hin | exfalso].
  destruct (dedup_hits_inv hits) as [_ _ Hdis].
  destruct (Hdis h (proj2 (py_sorted_In hits h) Hh) Hout)
    as (h' & H1 & H2 & H3 & _).
  apply (proj1 (py_sorted_In hits h')) in H1.
  rewrite (Hiso h' H1 H2) in H3. discriminate.
Qed.

(** ** Compiled forms *)

Lemma dict_In_get {V} (d : dict V) k v :
  NoDup (map fst d) -> In (k, v) d -> dict_get d k = Some v.
Proof.
  induction d as [|[k0 v0] d IH]; intros Hnd Hin; [destruct Hin|].
  simpl in *. inversion Hnd as [|? ? Hk Hd]; subst.
  destruct Hin as [[= -> ->]|Hin]; [now rewrite str_eqb_refl|].
  destruct (str_eqb k0 k) eqn:E; [|auto].
  apply str_eqb_eq in E; subst. exfalso. apply Hk.
  apply in_map_iff. exists (k, v). auto.
Qed.

Lemma compile_norms_get_inv mode kws cat items :
  NoDup (map fst kws) ->
  dict_get (_compile_norms mode kws) cat = Some items ->
  exists klist,
    dict_get kws cat = Some klist
    /\ items = fst (fold_left (compile_keyword mode) klist ([], [])).
Proof.
  intros Hnd Hget.
  assert (Hkey : exists klist, In (cat, klist) kws).
  { apply dict_get_In in Hget. revert Hget. unfold _compile_norms.
    set (f := fun compiled (entry : str * list str) =>
         let '(cat, klist) := entry in
         dict_set compiled cat
           (fst (fold_left (compile_keyword mode) klist ([], [])))).
    pose proof (foldM_pure f kws []) as Hpure.
    assert (G : forall c v, In (c, v) (fold_left f kws []) ->
                            exists kl, In (c, kl) kws).
    { revert Hpure.
      apply (foldM_inv (fun s x => Ok (f s x))
               (fun d => forall c v, In (c, v) d ->
                                     exists kl, In (c, kl) kws)).
      - intros c v [].
      - intros d [c kl] d' Hin Hd [= <-] c' v' Hc.
        apply dict_set_In in Hc as [[-> _]|Hc]; eauto. }
    apply G. }
  destruct Hkey as [klist Hin].
  pose proof (dict_In_get _ _ _ Hnd Hin) as Hk.
  exists klist. split; [exact Hk|].
  rewrite (compile_norms_get mode kws cat klist Hnd Hk) in Hget.
  now injection Hget as <-.
Qed.

Lemma add_norm_ok min_len klist raw_kw st variant :
  In raw_kw klist ->
  bucket_ok min_len klist st ->
  bucket_ok min_len klist (add_norm min_len raw_kw st variant).
Proof.
  destruct st as [bucket seen]. unfold add_norm, bucket_ok.
  intros Hraw (Hmap & Hnd & Hall).
  destruct (match _normalize variant with [] => false | _ :: _ => true end
            && negb (existsb (str_eqb (_normalize variant)) seen)
            && (min_len <=? length (_normalize variant))) eqn:E;
    [|auto].
  apply andb_true_iff in E as [E Hlen].
  apply andb_true_iff in E as [Hne Hseen].
  apply Nat.leb_le in Hlen. apply negb_true_iff in Hseen.
  cbn [fst snd] in *. split; [|split].
  - rewrite map_app, Hmap. reflexivity.
  - constructor; [|exact Hnd]. intros H.
    apply existsb_str_In in H. congruence.
  - intros it Hit. apply in_app_or in Hit as [Hit|[<-|[]]]; [auto|].
    cbn [norm raw]. repeat split; auto.
    destruct (_normalize variant); [discriminate | discriminate].
Qed.

Lemma compile_keyword_ok mode klist st kw :
  In kw klist ->
  bucket_ok (min_norm_length mode) klist st ->
  bucket_ok (min_norm_length mode) klist (compile_keyword mode st kw).
Proof.
  intros Hkw. unfold compile_keyword, min_norm_length.
  destruct (str_eqb mode (lit "exact")); intros Hst.
  - apply fold_left_inv; [exact Hst|].
    intros s x. now apply add_norm_ok.
  - apply fold_left_inv; [exact Hst|].
    intros s partial Hs. apply fold_left_inv; [exact Hs|].
    intros s' x. now apply add_norm_ok.
Qed.

Lemma compile_bucket_ok mode klist :
  bucket_ok (min_norm_length mode) klist
            (fold_left (compile_keyword mode) klist ([], [])).
Proof.
  assert (G : forall ks st, incl ks klist ->
            bucket_ok (min_norm_length mode) klist st ->
            bucket_ok (min_norm_length mode) klist
                      (fold_left (compile_keyword mode) ks st)).
  { induction ks as [|k ks IH]; intros st Hincl Hst; simpl; [exact Hst|].
    apply IH; [intros x Hx; apply Hincl; now right|].
    apply compile_keyword_ok; [apply Hincl; now left | exact Hst]. }
  apply G; [apply incl_refl|].
  split; [reflexivity|]. split; [constructor|]. intros it [].
Qed.

(** X6.  In a constructed matcher the compiled forms of a category are
    pairwise distinct and non-empty, each is tagged with a keyword of
    that category, and outside exact mode each has at least two
    characters. *)
Theorem x6_compiled_forms (rows : list (list str)) (doc : option json_doc)
    (mode cat : str) (items : list norm_item) :
  let self := __init__ rows doc mode in
  dict_get (compiled_norms self) cat = Some items ->
  NoDup (map norm items)
  /\ forall it, In it items ->
       norm it <> []
       /\ In (raw it) (dict_get_list (illegal_keywords self) cat)
       /\ (str_eqb mode (lit "exact") = false -> 2 <= length (norm it)).
Proof.
  intros self Hget.
  destruct (compile_norms_get_inv mode (illegal_keywords self) cat items
              (init_catalog_keys rows doc mode) Hget) as (klist & Hk & ->).
  destruct (compile_bucket_ok mode klist) as (Hmap & Hnd & Hall).
  split.
  - rewrite Hmap. apply NoDup_rev. exact Hnd.
  - intros it Hit. destruct (Hall it Hit) as (H1 & H2 & H3).
    unfold dict_get_list. rewrite Hk. repeat split; auto.
    intros Hm. unfold min_norm_length in H3. now rewrite Hm in H3.
Qed.

(** ** What a returned hit records *)

Lemma scan_loop_recorded (P : hit -> Prop) text norm_text idx_map filt cat
    item :
  (forall h, recorded text filt cat (raw item) h -> P h) ->
  forall fuel start hits hits',
  (forall h, In h hits -> P h) ->
  scan_loop fuel text norm_text idx_map filt cat item start hits = Ok hits' ->
  forall h, In h hits' -> P h.
Proof.
  intros Hnew.
  induction fuel as [|fuel IH]; intros start hits hits' Hold;
    [discriminate|].
  rewrite scan_loop_S.
  destruct (str_find (norm item) norm_text start) as [pos|];
    [|intros [= <-]; exact Hold].
  cbv zeta.
  destruct (py_index idx_map (Z.of_nat pos)) as [a| |];
    [|discriminate|discriminate].
  cbn [bind].
  destruct (py_index idx_map (Z.of_nat (pos + length (norm item)) - 1))
    as [b| |]; [|discriminate|discriminate].
  cbn [bind].
  destruct filt.
  - destruct (_passes_secondary_filter (raw item) (slice text a (b + 1))
                text a (b + 1) cat) as [[|]| |] eqn:Ep;
      cbn [bind]; try discriminate.
    + apply IH. intros h Hh.
      apply in_app_or in Hh as [Hh|[<-|[]]]; [auto|].
      apply Hnew. repeat split. intros _. exact Ep.
    + apply IH. exact Hold.
  - cbn [bind]. apply IH. intros h Hh.
    apply in_app_or in Hh as [Hh|[<-|[]]]; [auto|].
    apply Hnew. repeat split. discriminate.
Qed.

Lemma scan_category_recorded text norm_text idx_map filt cat items hits :
  scan_category text norm_text idx_map filt cat items = Ok hits ->
  forall h, In h hits ->
    exists it, In it items /\ recorded text filt cat (raw it) h.
Proof.
  unfold scan_category.
  apply (foldM_inv _ (fun hs => forall h, In h hs ->
           exists it, In it items /\ recorded text filt cat (raw it) h)).
  - intros h [].
  - intros hs it hs' Hit Hhs.
    apply scan_loop_recorded; [|exact Hhs].
    intros h Hh. exists it. auto.
Qed.

Lemma exact_provenance self text filt detected cat hits h :
  detect_exact self text filt = Ok detected ->
  In (cat, hits) detected -> In h hits ->
  exists items it,
    In (cat, items) (compiled_norms self) /\ In it items
    /\ recorded text filt cat (raw it) h.
Proof.
  intros Hdet Hin Hh.
  destruct (detect_exact_filtered _ _ _ _ Hdet _ _ Hin)
    as (items & raw_hits & Hitems & Hscan & ->).
  apply false_positive_filter_In in Hh.
  destruct (scan_category_recorded _ _ _ _ _ _ _ Hscan h Hh)
    as (it & Hit & Hrec).
  exists items, it. auto.
Qed.

Lemma find_positions_slice kw text s e m :
  In (s, e, m) (_find_keyword_positions kw text) -> m = slice text s e.
Proof.
  unfold _find_keyword_positions. intros H.
  apply in_flat_map in H as (v & _ & H).
  apply in_map_iff in H as ([s0 e0] & [= <- <- <-] & _). reflexivity.
Qed.

Lemma combination_keyword_recorded (P : hit -> Prop) text filt cat hits kw
    hits' :
  (forall h, In h hits -> P h) ->
  (forall h, _check_full_keyword_presence kw text = true ->
             recorded text filt cat kw h -> P h) ->
  combination_keyword text filt cat hits kw = Ok hits' ->
  forall h, In h hits' -> P h.
Proof.
  intros Hold Hnew. unfold combination_keyword.
  destruct (_check_full_keyword_presence kw text) eqn:Ep;
    [|intros [= <-]; exact Hold].
  apply (foldM_inv _ (fun hs => forall h, In h hs -> P h)); [exact Hold|].
  intros hs [[s e] m] hs' Hpos Hhs.
  apply find_positions_slice in Hpos. subst m.
  destruct filt.
  - destruct (_passes_secondary_filter kw (slice text s e) text s e cat)
      as [[|]| |] eqn:Epass; cbn [bind]; try discriminate;
      intros [= <-]; [|exact Hhs].
    intros h Hh. apply in_app_or in Hh as [Hh|[<-|[]]]; [auto|].
    apply Hnew; [reflexivity|]. repeat split. intros _. exact Epass.
  - cbn [bind]. intros [= <-].
    intros h Hh. apply in_app_or in Hh as [Hh|[<-|[]]]; [auto|].
    apply Hnew; [reflexivity|]. repeat split. discriminate.
Qed.

Lemma combination_provenance self text filt detected :
  _detect_with_combination_filter self text filt = Ok detected ->
  forall cat hits h,
  In (cat, hits) detected -> In h hits ->
  exists klist kw,
    In (cat, klist) (illegal_keywords self) /\ In kw klist
    /\ _check_full_keyword_presence kw text = true
    /\ recorded text filt cat kw h.
Proof.
  unfold _detect_with_combination_filter.
  apply (foldM_inv _ (fun det => forall cat hits h,
           In (cat, hits) det -> In h hits ->
           exists klist kw,
             In (cat, klist) (illegal_keywords self) /\ In kw klist
             /\ _check_full_keyword_presence kw text = true
             /\ recorded text filt cat kw h)).
  - intros cat hits h [].
  - intros det [cat klist] det' Hentry Hdet.
    destruct (foldM (combination_keyword text filt cat) klist [])
      as [hits| |] eqn:E; cbn [bind]; try discriminate.
    assert (Hhits : forall h, In h hits ->
      exists kw, In kw klist
                 /\ _check_full_keyword_presence kw text = true
                 /\ recorded text filt cat kw h).
    { revert E.
      apply (foldM_inv _ (fun hs => forall h, In h hs ->
        exists kw, In kw klist
                   /\ _check_full_keyword_presence kw text = true
                   /\ recorded text filt cat kw h)).
      - intros h [].
      - intros hs kw hs' Hkw Hhs.
        apply combination_keyword_recorded; [exact Hhs|].
        intros h Hp Hrec. exists kw. auto. }
    destruct hits as [|h0 hits]; intros [= <-]; [exact Hdet|].
    intros c hs h Hin Hh. apply dict_set_In in Hin as [[-> ->]|Hin]; [|eauto].
    destruct (Hhits h Hh) as (kw & H1 & H2 & H3).
    exists klist, kw. auto.
Qed.

(** Each hit of a result was recorded by the scan for a compiled form
    (substring scan) or a keyword (combination scan) of its category. *)
Lemma detect_provenance self text filt comb d cat hits h :
  detect_keywords_in_text self text filt comb = Ok d ->
  dict_get d cat = Some hits -> In h hits ->
  exists kw,
    recorded text filt cat kw h
    /\ if comb
       then exists klist,
              In (cat, klist) (illegal_keywords self) /\ In kw klist
              /\ _check_full_keyword_presence kw text = true
       else exists items it,
              In (cat, items) (compiled_norms self) /\ In it items
              /\ kw = raw it.
Proof.
  intros Hd Hget Hh.
  apply detect_result in Hd as [->|(det & Hdet & ->)]; [discriminate|].
  apply remove_duplicates_get in Hget as [_ (r & Hr & ->)].
  apply dedup_hits_In in Hh. destruct comb.
  - destruct (combination_provenance _ _ _ _ Hdet _ _ _ Hr Hh)
      as (klist & kw & H1 & H2 & H3 & H4).
    exists kw. split; [exact H4|]. exists klist. auto.
  - destruct (exact_provenance _ _ _ _ _ _ _ Hdet Hr Hh)
      as (items & it & H1 & H2 & H3).
    exists (raw it). split; [exact H3|]. exists items, it. auto.
Qed.

(** X7.  A constructed matcher only reports keywords of its catalog: in
    either scan, the keyword of a returned hit belongs to the keyword
    list of the hit's category. *)
Theorem x7_only_catalog_keywords (rows : list (list str))
    (doc : option json_doc) (mode text : str) (filt comb : bool)
    (d : dict (list hit)) (cat : str) (hits : list hit) (h : hit) :
  let self := __init__ rows doc mode in
  detect_keywords_in_text self text filt comb = Ok d ->
  dict_get d cat = Some hits -> In h hits ->
  In (keyword h) (dict_get_list (illegal_keywords self) cat).
Proof.
  intros self Hd Hget Hh.
  destruct (detect_provenance _ _ _ _ _ _ _ _ Hd Hget Hh)
    as (kw & (Hkw & _) & Hfrom).
  rewrite Hkw. pose proof (init_catalog_keys rows doc mode) as Hkeys.
  fold self in Hkeys. destruct comb.
  - destruct Hfrom as (klist & H1 & H2 & _).
    unfold dict_get_list.
    now rewrite (dict_In_get _ _ _ Hkeys H1).
  - destruct Hfrom as (items & it & H1 & H2 & ->).
    pose proof (dict_In_get (compiled_norms self) _ _
                  (compile_norms_keys mode _) H1) as Hitems.
    destruct (compile_norms_get_inv mode (illegal_keywords self) cat items
                Hkeys Hitems)
      as (klist & Hk & ->).
    destruct (compile_bucket_ok mode klist) as (_ & _ & Hall).
    unfold dict_get_list. rewrite Hk. apply (Hall it H2).
Qed.

(** X8.  In every result the [matched_text] of a hit is the slice of the
    caller's text at the hit's offsets, and its [context] is the context
    window of those offsets. *)
Theorem x8_hit_fields_agree (self : KeywordMatcher) (text : str)
    (filt comb : bool) (d : dict (list hit)) (cat : str)
    (hits : list hit) (h : hit) :
  detect_keywords_in_text self text filt comb = Ok d ->
  dict_get d cat = Some hits -> In h hits ->
  matched_text h = slice text (start_position h) (end_position h)
  /\ context h = _get_context text (start_position h) (end_position h) 50.
Proof.
  intros Hd Hget Hh.
  destruct (detect_provenance _ _ _ _ _ _ _ _ Hd Hget Hh)
    as (kw & (_ & Hm & Hc & _) & _).
  auto.
Qed.

(** X9.  With the secondary filter enabled, every returned hit passed
    it: its pattern check succeeded and its 150-character context is a
    valid context for its keyword and category. *)
Theorem x9_returned_hits_passed_the_filter (self : KeywordMatcher)
    (text : str) (comb : bool) (d : dict (list hit)) (cat : str)
    (hits : list hit) (h : hit) :
  detect_keywords_in_text self text true comb = Ok d ->
  dict_get d cat = Some hits -> In h hits ->
  _is_exact_keyword_pattern (keyword h) text (start_position h)
                            (end_position h) cat = Ok true
  /\ _is_valid_illegal_context
       (keyword h)
       (_get_context text (start_position h) (end_position h) 150)
       cat = true.
Proof.
  intros Hd Hget Hh.
  destruct (detect_provenance _ _ _ _ _ _ _ _ Hd Hget Hh)
    as (kw & (Hkw & _ & _ & Hpass) & _).
  specialize (Hpass eq_refl). rewrite <- Hkw in Hpass.
  unfold _passes_secondary_filter in Hpass.
  destruct (_is_exact_keyword_pattern (keyword h) text (start_position h)
              (end_position h) cat) as [[|]| |];
    cbn [bind negb] in Hpass; try discriminate.
  split; [reflexivity|].
  destruct (_is_valid_illegal_context _ _ _); [reflexivity|discriminate].
Qed.

(** ** Answers of a detection call *)

(** X10.  On a constructed matcher every detection call ends: the loop
    of each needle stops within one iteration per character of the
    normalised text and a last one, so the call gives a result or
    raises. *)
Theorem x10_detection_ends (rows : list (list str)) (doc : option json_doc)
    (mode text : str) (filt comb : bool) :
  detect_keywords_in_text (__init__ rows doc mode) text filt comb
  <> OutOfFuel.
Proof. apply detect_terminates, init_well_compiled. Qed.


(** X12.  In the substring scan of a constructed matcher the offsets of
    a returned hit form a non-empty range of the alias-substituted
    working string; when that string is no longer than the caller's
    text they form a range of the text. *)
Theorem x12_offsets_within_working_string (rows : list (list str))
    (doc : option json_doc) (mode text : str) (filt : bool)
    (d : dict (list hit)) (cat : str) (hits : list hit) (h : hit) :
  detect_keywords_in_text (__init__ rows doc mode) text filt false = Ok d ->
  dict_get d cat = Some hits -> In h hits ->
  start_position h < end_position h <= length (apply_aliases text)
  /\ (length (apply_aliases text) <= length text ->
      end_position h <= length text).
Proof.
  intros Hd Hget Hh.
  pose proof (exact_scan_offsets _ _ _ _ _ _ _
                (init_well_compiled rows doc mode) Hd Hget Hh).
  split; [assumption | lia].
Qed.

(** X13.  In the substring scan no returned hit has a context whose
    normalisation contains the normalisation of a non-empty
    false-positive phrase configured for its category. *)
Theorem x13_substring_scan_filters_false_positives (self : KeywordMatcher)
    (text : str) (filt : bool) (d : dict (list hit)) (cat : str)
    (hits : list hit) (h : hit) (phrase : str) :
  detect_keywords_in_text self text filt false = Ok d ->
  dict_get d cat = Some hits -> In h hits ->
  In phrase (dict_get_list (false_positive self) cat) -> phrase <> [] ->
  ~ occurs_in (_normalize phrase) (_normalize (context h)).
Proof.
  intros Hd Hget Hh.
  apply (exact_scan_false_positive_free _ _ _ _ _ _ _ Hd Hget Hh).
Qed.

(** ** The secondary filter only prunes *)

Lemma foldM_subseq {A} (f g : list hit -> A -> outcome (list hit)) l :
  (forall s1 s2 x r1, In x l -> subseq s1 s2 -> f s1 x = Ok r1 ->
     exists r2, g s2 x = Ok r2 /\ subseq r1 r2) ->
  forall s1 s2 r1, subseq s1 s2 -> foldM f l s1 = Ok r1 ->
  exists r2, foldM g l s2 = Ok r2 /\ subseq r1 r2.
Proof.
  induction l as [|x l IH]; intros Hstep s1 s2 r1 Hs; simpl.
  - intros [= <-]. eauto.
  - destruct (f s1 x) as [s1'| |] eqn:E; cbn [bind]; try discriminate.
    destruct (Hstep s1 s2 x s1' (or_introl eq_refl) Hs E) as (s2' & -> & Hs').
    cbn [bind]. apply IH; [|exact Hs'].
    intros t1 t2 y r Hy. apply Hstep. now right.
Qed.

Lemma scan_loop_prunes text norm_text idx_map cat item :
  forall fuel start hits1 hits2 r1,
  subseq hits1 hits2 ->
  scan_loop fuel text norm_text idx_map true cat item start hits1 = Ok r1 ->
  exists r2,
    scan_loop fuel text norm_text idx_map false cat item start hits2 = Ok r2
    /\ subseq r1 r2.
Proof.
  induction fuel as [|fuel IH]; intros start hits1 hits2 r1 Hs;
    [discriminate|].
  rewrite !scan_loop_S.
  destruct (str_find (norm item) norm_text start) as [pos|];
    [|intros [= <-]; eauto].
  cbv zeta.
  destruct (py_index idx_map (Z.of_nat pos)) as [a| |];
    [|discriminate|discriminate].
  cbn [bind].
  destruct (py_index idx_map (Z.of_nat (pos + length (norm item)) - 1))
    as [b| |]; [|discriminate|discriminate].
  cbn [bind].
  destruct (_passes_secondary_filter (raw item) (slice text a (b + 1))
              text a (b + 1) cat) as [[|]| |];
    cbn [bind]; try discriminate; apply IH.
  - now apply subseq_snoc.
  - now apply subseq_snoc_skip.
Qed.

(** X14.  The secondary filter only prunes candidates: in either scan
    the candidates of a category found with the filter enabled are, in
    order, among those found with the filter disabled, and the
    unfiltered scan does not fail where the filtered scan succeeds. *)
Theorem x14_secondary_filter_only_prunes (text norm_text : str)
    (idx_map : list nat) (cat : str) :
  (forall items hits,
      scan_category text norm_text idx_map true cat items = Ok hits ->
      exists hits',
        scan_category text norm_text idx_map false cat items = Ok hits'
        /\ subseq hits hits')
  /\ (forall klist hits,
        foldM (combination_keyword text true cat) klist [] = Ok hits ->
        exists hits',
          foldM (combination_keyword text false cat) klist [] = Ok hits'
          /\ subseq hits hits').
Proof.
  split.
  - intros items hits. unfold scan_category.
    apply foldM_subseq; [|apply subseq_nil].
    intros s1 s2 it r1 _. apply scan_loop_prunes.
  - intros klist hits.
    apply foldM_subseq; [|apply subseq_nil].
    intros s1 s2 kw r1 _ Hs. unfold combination_keyword.
    destruct (_check_full_keyword_presence kw text);
      [|intros [= <-]; eauto].
    apply foldM_subseq; [|exact Hs].
    intros t1 t2 [[s e] m] r _ Ht.
    destruct (_passes_secondary_filter kw m text s e cat) as [[|]| |];
      cbn [bind]; try discriminate; intros [= <-]; eexists;
      (split; [reflexivity|]).
    + now apply subseq_snoc.
    + now apply subseq_snoc_skip.
Qed.

(** ** Edge cases *)

(** X15.  A matcher whose categories have no keyword and no compiled
    form returns the empty mapping for every text, in either scan and
    with either filter setting; it never raises. *)
Theorem x15_empty_catalog (self : KeywordMatcher) (text : str)
    (filt comb : bool) :
  (forall cat klist, In (cat, klist) (illegal_keywords self) -> klist = []) ->
  (forall cat items, In (cat, items) (compiled_norms self) -> items = []) ->
  detect_keywords_in_text self text filt comb = Ok [].
Proof.
  intros Hk Hc. unfold detect_keywords_in_text.
  destruct text as [|c text]; [reflexivity|]. destruct comb.
  - enough (_detect_with_combination_filter self (c :: text) filt = Ok [])
      as -> by reflexivity.
    unfold _detect_with_combination_filter. revert Hk.
    generalize (illegal_keywords self). intros l Hl.
    induction l as [|[cat klist] l IH]; [reflexivity|]. simpl.
    rewrite (Hl cat klist (or_introl eq_refl)). simpl.
    apply IH. intros c0 k0 H. apply (Hl c0 k0). now right.
  - enough (detect_exact self (c :: text) filt = Ok [])
      as -> by reflexivity.
    unfold detect_exact.
    destruct (_build_norm_map (c :: text)) as [norm_text idx_map].
    revert Hc. generalize (compiled_norms self). intros l Hl.
    induction l as [|[cat items] l IH]; [reflexivity|]. simpl.
    rewrite (Hl cat items (or_introl eq_refl)). simpl.
    apply IH. intros c0 k0 H. apply (Hl c0 k0). now right.
Qed.

Lemma slice_split (t : str) a b c :
  a <= b -> b <= c -> slice t a c = slice t a b ++ slice t b c.
Proof.
  intros Hab Hbc.
  pose proof (firstn_slice t a c ltac:(lia)) as H1.
  pose proof (firstn_slice t b c Hbc) as H2.
  rewrite (firstn_slice t a b Hab), <- app_assoc in H2.
  rewrite H1 in H2. now apply app_inv_head in H2.
Qed.

Lemma replace_go_marks old new : forall pre post,
  old <> [] ->
  occurs_in new (replace_go old new 0 (pre ++ old ++ post)).
Proof.
  intros pre post Hne.
  induction pre as [|c pre IH].
  - destruct old as [|x old]; [congruence|].
    change ([] ++ (x :: old) ++ post) with (x :: old ++ post).
    cbn [replace_go].
    assert (H : prefix_b (x :: old) (x :: old ++ post) = true)
      by (apply prefix_b_app; exists post; reflexivity).
    rewrite H. exists [], (replace_go (x :: old) new
                             (length (x :: old) - 1) (old ++ post)).
    reflexivity.
  - simpl app. cbn [replace_go].
    destruct (prefix_b old (c :: pre ++ old ++ post)).
    + exists [], (replace_go old new (length old - 1) (pre ++ old ++ post)).
      reflexivity.
    + destruct IH as (p & q & ->). exists (c :: p), q. reflexivity.
Qed.

(** X16.  For a non-empty span inside the text, the context of the span
    contains the matched text between two pairs of asterisks. *)
Theorem x16_context_marks_the_match (text : str) (start end_ size : nat) :
  start < end_ -> end_ <= length text ->
  occurs_in (lit "**" ++ slice text start end_ ++ lit "**")
            (_get_context text start end_ size).
Proof.
  intros Hse Hlen. unfold _get_context. cbv zeta.
  set (s := Nat.max 0 (start - size)).
  set (e := Nat.min (length text) (end_ + size)).
  assert (Hs : s <= start) by (subst s; lia).
  assert (He : end_ <= e) by (subst e; lia).
  assert (Hmid : slice text start end_ <> []).
  { intros E. apply (f_equal (@length _)) in E. unfold slice in E.
    rewrite length_firstn, length_skipn in E. simpl in E. lia. }
  rewrite (slice_split text s start e) by lia.
  rewrite (slice_split text start end_ e) by lia.
  unfold str_replace.
  destruct (slice text start end_) as [|x mid] eqn:Em; [congruence|].
  apply (replace_go_marks (x :: mid)). discriminate.
Qed.

(** ** The caller *)

(** X17.  For the result of a detection call, [any(detected.values())]
    is true exactly when the mapping is not empty: the caller saves a
    page exactly when a category is reported. *)
Theorem x17_any_values_iff_nonempty (self : KeywordMatcher) (text : str)
    (filt comb : bool) (d : dict (list hit)) :
  detect_keywords_in_text self text filt comb = Ok d ->
  (any_values d = true <-> d <> []).
Proof.
  intros Hd.
  assert (Hall : forall c v, In (c, v) d -> v <> []).
  { intros c v Hin.
    apply detect_result in Hd as [->|(det & _ & ->)]; [destruct Hin|].
    apply (dict_In_get _ _ _ (remove_duplicates_keys det)) in Hin.
    now apply remove_duplicates_get in Hin as [Hne _]. }
  unfold any_values. destruct d as [|[c v] d]; simpl.
  - split; [discriminate | congruence].
  - split; [discriminate|]. intros _.
    specialize (Hall c v (or_introl eq_refl)).
    destruct v; [congruence | reflexivity].
Qed.

(** ** The index map *)

Lemma norm_map_go_In t : forall i x,
  In x (snd (norm_map_go t i)) <->
  i <= x /\ exists ch, nth_error t (x - i) = Some ch
                       /\ sep_re_match ch = false.
Proof.
  induction t as [|ch t IH]; intros i x.
  - simpl. split; [intros [] | intros (_ & c & H & _)].
    destruct (x - i); discriminate.
  - specialize (IH (S i) x). cbn [norm_map_go].
    destruct (norm_map_go t (S i)) as [n m]. cbn [snd] in IH.
    destruct (sep_re_match ch) eqn:Es; cbn [snd].
    + rewrite IH. split.
      * intros (Hle & c & Hc & Hs). split; [lia|]. exists c.
        replace (x - i) with (S (x - S i)) by lia. auto.
      * intros (Hle & c & Hc & Hs). destruct (x - i) as [|k] eqn:Ek.
        -- simpl in Hc. injection Hc as <-. congruence.
        -- simpl in Hc. split; [lia|]. exists c.
           replace (x - S i) with k by lia. auto.
    + cbn [In]. rewrite IH. split.
      * intros [<-|(Hle & c & Hc & Hs)].
        -- split; [lia|]. exists ch. rewrite Nat.sub_diag. auto.
        -- split; [lia|]. exists c.
           replace (x - i) with (S (x - S i)) by lia. auto.
      * intros (Hle & c & Hc & Hs). destruct (x - i) as [|k] eqn:Ek.
        -- left. lia.
        -- right. simpl in Hc. split; [lia|]. exists c.
           replace (x - S i) with k by lia. auto.
Qed.

Lemma norm_chars_of_filter t :
  norm_chars_of t
  = flat_map char_lower (filter (fun ch => negb (sep_re_match ch)) t).
Proof.
  unfold norm_chars_of. induction t as [|ch t IH]; [reflexivity|].
  simpl. destruct (sep_re_match ch); simpl; now rewrite IH.
Qed.

(** X18.  The index map lists, in strictly ascending order, exactly the
    offsets of the characters of the alias-substituted working string
    that are not separators, and the normalised text is the
    concatenation of the lower-cased forms of those characters. *)
Theorem x18_index_map_lists_kept_characters (text : str) :
  let t := apply_aliases text in
  let norm_text := fst (_build_norm_map text) in
  let idx_map := snd (_build_norm_map text) in
  StronglySorted lt idx_map
  /\ (forall x, In x idx_map <->
                exists ch, nth_error t x = Some ch
                           /\ sep_re_match ch = false)
  /\ norm_text
     = flat_map char_lower (filter (fun ch => negb (sep_re_match ch)) t).
Proof.
  cbv zeta. unfold _build_norm_map. split; [|split].
  - destruct (norm_map_go (apply_aliases text) 0) as [n m] eqn:E.
    apply (norm_map_go_bounds _ _ _ _ E).
  - intros x. rewrite norm_map_go_In, Nat.sub_0_r. split.
    + now intros [_ H].
    + intros H. split; [lia | exact H].
  - rewrite norm_map_go_fst. apply norm_chars_of_filter.
Qed.

Lemma filter_uniform (b : bool) (l : str) :
  Forall (fun c => is_separator c = b) l ->
  filter (fun ch => negb (is_separator ch)) l = if b then [] else l.
Proof.
  induction 1 as [|c l Hc Hl IH]; [now destruct b|].
  simpl. rewrite Hc, IH. now destruct b.
Qed.

(** X19.  When [str.lower] of the working string is its
    character-by-character lower-casing, and lower-casing a character of
    the working string yields only characters of the same separator
    status, the text that the substring scan searches is the
    normalisation of the text, the function that also normalises the
    needles. *)
Theorem x19_scan_text_is_normalized_text (text : str) :
  text <> [] ->
  str_lower (apply_aliases text) = flat_map char_lower (apply_aliases text) ->
  Forall (fun ch => Forall (fun c => is_separator c = is_separator ch)
                           (char_lower ch))
         (apply_aliases text) ->
  fst (_build_norm_map text) = _normalize text.
Proof.
  intros Hne Hlow Hall. unfold _build_norm_map. rewrite norm_map_go_fst.
  unfold _normalize. destruct text as [|c0 text]; [congruence|].
  rewrite Hlow. clear Hlow. revert Hall.
  generalize (apply_aliases (c0 :: text)). intros t Hall.
  unfold sep_re_sub_empty, norm_chars_of, sep_re_match.
  induction Hall as [|ch t Hch Ht IH]; [reflexivity|].
  simpl. rewrite filter_app, (filter_uniform _ _ Hch), <- IH.
  now destruct (is_separator ch).
Qed.

(** ** Completeness of the compiled forms *)

Lemma add_norm_adds_min min_len raw_kw st variant :
  seen_ok st -> _normalize variant <> [] ->
  min_len <= length (_normalize variant) ->
  has_norm (_normalize variant) (add_norm min_len raw_kw st variant).
Proof.
  destruct st as [bucket seen]. unfold add_norm. intros Hok Hne Hlen.
  replace (match _normalize variant with [] => false | _ :: _ => true end)
    with true by (destruct (_normalize variant); congruence).
  apply Nat.leb_le in Hlen. rewrite Hlen, andb_true_r, andb_true_l.
  destruct (existsb (str_eqb (_normalize variant)) seen) eqn:Es;
    cbn [negb].
  - apply existsb_exists in Es as (n' & Hn' & Heq).
    apply str_eqb_eq in Heq; subst n'. now apply Hok.
  - eexists. split; [apply in_or_app; right; now left | reflexivity].
Qed.

Lemma fold_add_norm_adds_min min_len raw_kw variants v : forall st,
  seen_ok st -> In v variants -> _normalize v <> [] ->
  min_len <= length (_normalize v) ->
  has_norm (_normalize v) (fold_left (add_norm min_len raw_kw) variants st).
Proof.
  induction variants as [|w ws IH]; intros st Hok Hin Hne Hlen;
    [destruct Hin|]. destruct Hin as [<-|Hin]; simpl.
  - apply fold_add_norm_keeps. now apply add_norm_adds_min.
  - apply IH; auto. now apply add_norm_seen_ok.
Qed.

Lemma compile_keyword_seen_ok mode st kw :
  seen_ok st -> seen_ok (compile_keyword mode st kw).
Proof.
  intros Hok. unfold compile_keyword. destruct (str_eqb mode (lit "exact")).
  - now apply fold_add_norm_seen_ok.
  - apply (fold_left_inv _ seen_ok); [exact Hok|].
    intros s x. apply fold_add_norm_seen_ok.
Qed.

Lemma compile_keyword_keeps mode st kw n :
  has_norm n st -> has_norm n (compile_keyword mode st kw).
Proof.
  intros H. unfold compile_keyword. destruct (str_eqb mode (lit "exact")).
  - now apply fold_add_norm_keeps.
  - apply (fold_left_inv _ (has_norm n)); [exact H|].
    intros s x. apply fold_add_norm_keeps.
Qed.

Lemma compile_keyword_adds mode st kw :
  (forall l x, In x l -> In x (set_order l)) ->
  seen_ok st -> _normalize kw <> [] ->
  min_norm_length mode <= length (_normalize kw) ->
  has_norm (_normalize kw) (compile_keyword mode st kw).
Proof.
  intros Hset Hok Hne Hlen.
  assert (Hv : In kw (_expand_alias_variants kw))
    by (unfold _expand_alias_variants; apply Hset; now left).
  unfold compile_keyword, min_norm_length in *.
  destruct (str_eqb mode (lit "exact")).
  - now apply fold_add_norm_adds_min.
  - assert (Hp : In kw (_extract_partial_keywords kw))
      by (unfold _extract_partial_keywords; cbv zeta; apply Hset; now left).
    revert Hp Hok. generalize (_extract_partial_keywords kw). intros ps.
    revert st. induction ps as [|p ps IH]; intros st Hp Hok;
      [destruct Hp|]. destruct Hp as [->|Hp]; simpl.
    + apply (fold_left_inv _ (has_norm (_normalize kw))).
      * now apply fold_add_norm_adds_min.
      * intros s x. apply fold_add_norm_keeps.
    + apply IH; [exact Hp|]. now apply fold_add_norm_seen_ok.
Qed.

(** X20.  When the set-to-list conversion keeps every element, a
    constructed matcher has, for each keyword of a category whose
    normalised form is non-empty (and, outside exact mode, at least two
    characters long), a compiled form of that category equal to the
    normalised keyword. *)
Theorem x20_every_keyword_is_compiled (rows : list (list str))
    (doc : option json_doc) (mode cat k : str) :
  let self := __init__ rows doc mode in
  (forall l x, In x l -> In x (set_order l)) ->
  In k (dict_get_list (illegal_keywords self) cat) ->
  _normalize k <> [] ->
  min_norm_length mode <= length (_normalize k) ->
  exists items it,
    dict_get (compiled_norms self) cat = Some items
    /\ In it items /\ norm it = _normalize k.
Proof.
  intros self Hset Hin Hne Hlen. unfold dict_get_list in Hin.
  destruct (dict_get (illegal_keywords self) cat) as [klist|] eqn:Hget;
    [|destruct Hin].
  exists (fst (fold_left (compile_keyword mode) klist ([], []))).
  assert (G : forall ks st, seen_ok st -> In k ks ->
            has_norm (_normalize k)
                     (fold_left (compile_keyword mode) ks st)).
  { induction ks as [|kw ks IH]; intros st Hok Hk; [destruct Hk|].
    destruct Hk as [->|Hk]; simpl.
    - apply (fold_left_inv _ (has_norm (_normalize k))).
      + now apply compile_keyword_adds.
      + intros s x. apply compile_keyword_keeps.
    - apply IH; [|exact Hk]. now apply compile_keyword_seen_ok. }
  destruct (G klist ([], []) ltac:(intros n []) Hin) as (it & Hit & Hn).
  exists it. split; [|split; assumption].
  apply (compile_norms_get mode (illegal_keywords self) cat klist
           (init_catalog_keys rows doc mode) Hget).
Qed.

(** ** Category patterns *)

(** X21.  The first valid pattern found in both the lower-cased keyword
    and the lower-cased text decides the pattern check: the answer is
    the word-boundary check of that pattern, whatever the later patterns
    and the substring fallback would give. *)
Theorem x21_first_matching_pattern_decides (kw text : str)
    (pre post : list str) (p : str) :
  (forall q, In q pre ->
     re_valid q = true
     /\ (re_search false q (str_lower kw) = false
         \/ re_search false q (str_lower text) = false)) ->
  re_valid p = true ->
  re_search false p (str_lower kw) = true ->
  re_search false p (str_lower text) = true ->
  _match_category_pattern kw text (pre ++ p :: post)
  = _check_word_boundaries_regex text p.
Proof.
  intros Hpre Hv Hk Ht. unfold _match_category_pattern.
  induction pre as [|q pre IH]; simpl; unfold py_re_search.
  - rewrite Hv. cbn [bind]. rewrite Hk, Ht. reflexivity.
  - destruct (Hpre q (or_introl eq_refl)) as [Hq Hno]. rewrite Hq.
    cbn [bind].
    assert (IH' := IH (fun r Hr => Hpre r (or_intror Hr))).
    destruct (re_search false q (str_lower kw)); [|exact IH'].
    destruct Hno as [Hno|Hno]; [discriminate|]. rewrite Hno. exact IH'.
Qed.

(** X22.  When every pattern of the category is valid and none is found
    in both the lower-cased keyword and the lower-cased text, the
    pattern check is the substring fallback: it holds exactly when the
    keyword, lower-cased and stripped of spaces, hyphens and
    underscores, occurs in the text treated the same way. *)
Theorem x22_fallback_without_matching_pattern (kw text : str)
    (patterns : list str) :
  (forall q, In q patterns ->
     re_valid q = true
     /\ (re_search false q (str_lower kw) = false
         \/ re_search false q (str_lower text) = false)) ->
  exists b,
    _match_category_pattern kw text patterns = Ok b
    /\ (b = true <->
        occurs_in (simple_normalize kw) (simple_normalize text)).
Proof.
  intros Hall.
  exists (str_contains (simple_normalize kw) (simple_normalize text)).
  split; [|apply str_contains_spec].
  unfold _match_category_pattern.
  induction patterns as [|q ps IH]; simpl; [reflexivity|].
  unfold py_re_search.
  destruct (Hall q (or_introl eq_refl)) as [Hq Hno]. rewrite Hq.
  cbn [bind].
  assert (IH' := IH (fun r Hr => Hall r (or_intror Hr))).
  destruct (re_search false q (str_lower kw)); [|exact IH'].
  destruct Hno as [Hno|Hno]; [discriminate|]. rewrite Hno. exact IH'.
Qed.

(** ** Search mode *)

(** X23.  The search mode of a matcher has no effect on the combination
    scan: matchers built from the same rows and document give the same
    answer in any two modes. *)
Theorem x23_combination_scan_ignores_search_mode (rows : list (list str))
    (doc : option json_doc) (mode1 mode2 text : str) (filt : bool) :
  detect_keywords_in_text (__init__ rows doc mode1) text filt true
  = detect_keywords_in_text (__init__ rows doc mode2) text filt true.
Proof. reflexivity. Qed.

End Engine.

(* ================================================================== *)
(** * The reference engine on flexible patterns

    For a keyword without the letters that start a DB or ID spelling,
    [_create_flexible_pattern] joins the escaped characters with [\s*],
    the reference engine parses that pattern into the characters
    separated by optional whitespace, and every span it reports is the
    keyword in full, up to whitespace between its characters. *)
(* ================================================================== *)

(** ** The pattern *)

Lemma replace_go_absent (x : char) (old new : str) : forall s,
  ~ In x s -> replace_go (x :: old) new 0 s = s.
Proof.
  induction s as [|c s IH]; intros Hx; [reflexivity|].
  cbn [replace_go prefix_b].
  assert (Hc : (x =? c)%N = false)
    by (apply N.eqb_neq; intros ->; apply Hx; now left).
  rewrite Hc. cbn [andb]. rewrite IH; [reflexivity|].
  intros H. apply Hx. now right.
Qed.

Lemma demo_escape_chars (c x : char) :
  In x (Demo.re_escape c) -> x = c \/ x = 92%N.
Proof.
  unfold Demo.re_escape.
  destruct (existsb (N.eqb c) Demo.re_special); simpl; intuition.
Qed.

Lemma demo_join_chars (v : str) (x : char) :
  In x (str_join (lit "\s*") (map Demo.re_escape v)) ->
  In x v \/ In x (lit "\s*").
Proof.
  induction v as [|c v IH]; [intros []|].
  destruct v as [|c' v'].
  - simpl. intros H. apply demo_escape_chars in H as [->| ->];
      [left; now left | right; now left].
  - change (map Demo.re_escape (c :: c' :: v'))
      with (Demo.re_escape c :: map Demo.re_escape (c' :: v')).
    change (str_join (lit "\s*")
              (Demo.re_escape c :: map Demo.re_escape (c' :: v')))
      with (Demo.re_escape c ++ lit "\s*"
            ++ str_join (lit "\s*") (map Demo.re_escape (c' :: v'))).
    intros H. apply in_app_or in H as [H|H].
    + apply demo_escape_chars in H as [->| ->];
        [left; now left | right; now left].
    + apply in_app_or in H as [H|H]; [now right|].
      destruct (IH H) as [H'|H']; [left; now right | now right].
Qed.

Lemma demo_flexible_pattern_plain (v : str) :
  forallb (fun c => negb (existsb (N.eqb c) [68%N; DI; 73%N; A_])) v = true ->
  _create_flexible_pattern Demo.py v
  = str_join (lit "\s*") (map Demo.re_escape v).
Proof.
  intros Hv. rewrite forallb_forall in Hv.
  assert (Habs : forall x, In x [68%N; DI; 73%N; A_] ->
            ~ In x (str_join (lit "\s*") (map Demo.re_escape v))).
  { intros x Hx Hin. apply demo_join_chars in Hin as [Hin|Hin].
    - specialize (Hv x Hin). apply negb_true_iff in Hv.
      assert (existsb (N.eqb x) [68%N; DI; 73%N; A_] = true); [|congruence].
      apply existsb_exists. exists x. split; [exact Hx | apply N.eqb_refl].
    - destruct Hx as [<-|[<-|[<-|[<-|[]]]]];
        vm_compute in Hin; intuition discriminate. }
  unfold _create_flexible_pattern. cbv zeta.
  change (map (Host.re_escape Demo.py) v) with (map Demo.re_escape v).
  set (p := str_join (lit "\s*") (map Demo.re_escape v)) in *.
  assert (H1 : str_replace (lit "D\s*B") marker_db p = p)
    by (apply (replace_go_absent 68%N); apply Habs; now left).
  rewrite H1.
  assert (H2 : str_replace ([DI] ++ lit "\s*" ++ [BI]) marker_db p = p)
    by (apply (replace_go_absent DI); apply Habs; right; now left).
  rewrite H2.
  assert (H3 : str_replace (lit "I\s*D") marker_id p = p)
    by (apply (replace_go_absent 73%N); apply Habs; right; right; now left).
  rewrite H3.
  apply (replace_go_absent A_). apply Habs. right; right; right; now left.
Qed.

Lemma merge_pair_two (x y : char) (m : flex_item) a b rest :
  merge_pair x y m (FChar a :: FChar b :: rest)
  = if (a =? x)%N && (b =? y)%N then m :: merge_pair x y m rest
    else FChar a :: merge_pair x y m (FChar b :: rest).
Proof. reflexivity. Qed.

Lemma merge_pair_absent (x y : char) (m : flex_item) (v : str) :
  ~ In x v -> merge_pair x y m (map FChar v) = map FChar v.
Proof.
  induction v as [|a v IH]; intros Hx; [reflexivity|].
  assert (Ha : (a =? x)%N = false)
    by (apply N.eqb_neq; intros ->; apply Hx; now left).
  assert (IH' : merge_pair x y m (map FChar v) = map FChar v)
    by (apply IH; intros H; apply Hx; now right).
  destruct v as [|b v']; [reflexivity|].
  change (map FChar (a :: b :: v'))
    with (FChar a :: FChar b :: map FChar v').
  rewrite merge_pair_two, Ha. cbn [andb].
  change (FChar b :: map FChar v') with (map FChar (b :: v')).
  now rewrite IH'.
Qed.

Lemma merge_triple_three (x y z : char) (m : flex_item) a b c rest :
  merge_triple x y z m (FChar a :: FChar b :: FChar c :: rest)
  = if (a =? x)%N && (b =? y)%N && (c =? z)%N
    then m :: merge_triple x y z m rest
    else FChar a :: merge_triple x y z m (FChar b :: FChar c :: rest).
Proof. reflexivity. Qed.

Lemma merge_triple_absent (x y z : char) (m : flex_item) (v : str) :
  ~ In x v -> merge_triple x y z m (map FChar v) = map FChar v.
Proof.
  induction v as [|a v IH]; intros Hx; [reflexivity|].
  assert (Ha : (a =? x)%N = false)
    by (apply N.eqb_neq; intros ->; apply Hx; now left).
  assert (IH' : merge_triple x y z m (map FChar v) = map FChar v)
    by (apply IH; intros H; apply Hx; now right).
  destruct v as [|b [|c v']]; [reflexivity | reflexivity |].
  change (map FChar (a :: b :: c :: v'))
    with (FChar a :: FChar b :: FChar c :: map FChar v').
  rewrite merge_triple_three, Ha. cbn [andb].
  change (FChar b :: FChar c :: map FChar v')
    with (map FChar (b :: c :: v')).
  now rewrite IH'.
Qed.

Lemma flex_items_plain (v : str) :
  forallb (fun c => negb (existsb (N.eqb c) [68%N; DI; 73%N; A_])) v = true ->
  flex_items v = map FChar v.
Proof.
  intros Hv. rewrite forallb_forall in Hv.
  assert (Habs : forall x, In x [68%N; DI; 73%N; A_] -> ~ In x v).
  { intros x Hx Hin. specialize (Hv x Hin). apply negb_true_iff in Hv.
    assert (existsb (N.eqb x) [68%N; DI; 73%N; A_] = true); [|congruence].
    apply existsb_exists. exists x. split; [exact Hx | apply N.eqb_refl]. }
  unfold flex_items.
  rewrite (merge_pair_absent 68%N) by (apply Habs; now left).
  rewrite (merge_pair_absent DI) by (apply Habs; right; now left).
  rewrite (merge_pair_absent 73%N) by (apply Habs; right; right; now left).
  apply merge_triple_absent. apply Habs. right; right; right; now left.
Qed.

(** ** Its tokens *)

Lemma demo_tokenize_spaces fuel p :
  Demo.tokenize (S fuel) (92%N :: 115%N :: 42%N :: p)
  = option_map (cons Demo.TSpaces) (Demo.tokenize fuel p).
Proof. reflexivity. Qed.

Lemma demo_tokenize_escaped fuel c p :
  existsb (N.eqb c) Demo.re_special = true ->
  Demo.tokenize (S fuel) (92%N :: c :: p)
  = option_map (cons (Demo.TChar c)) (Demo.tokenize fuel p).
Proof.
  intros H. apply existsb_exists in H as (x & Hx & Hc).
  apply N.eqb_eq in Hc. subst x. vm_compute in Hx.
  repeat (destruct Hx as [<-|Hx]; [reflexivity|]). destruct Hx.
Qed.

Lemma demo_meta_special c :
  existsb (N.eqb c) Demo.re_special = false ->
  existsb (N.eqb c) Demo.re_meta = false.
Proof.
  intros H. destruct (existsb (N.eqb c) Demo.re_meta) eqn:E; [|reflexivity].
  apply existsb_exists in E as (x & Hx & Hc).
  apply N.eqb_eq in Hc. subst x. vm_compute in Hx.
  repeat (destruct Hx as [<-|Hx]; [vm_compute in H; discriminate|]).
  destruct Hx.
Qed.

Lemma demo_tokenize_plain fuel c p :
  existsb (N.eqb c) Demo.re_special = false ->
  Demo.tokenize (S fuel) (c :: p)
  = option_map (cons (Demo.TChar c)) (Demo.tokenize fuel p).
Proof.
  intros H. pose proof (demo_meta_special c H) as Hm.
  assert (Hc : c <> 92%N) by (intros ->; vm_compute in H; discriminate).
  cbn [Demo.tokenize].
  destruct c as [|q]; [now rewrite Hm|].
  do 7 (destruct q as [q|q|]; try (now rewrite Hm)).
  all: congruence.
Qed.

Lemma demo_flex_tokens (v : str) : forall fuel,
  length (str_join (lit "\s*") (map Demo.re_escape v)) < fuel ->
  Demo.tokenize fuel (str_join (lit "\s*") (map Demo.re_escape v))
  = Some (Demo.flex_tokens v).
Proof.
  induction v as [|c v IH]; intros fuel Hf.
  - destruct fuel; [lia | reflexivity].
  - destruct v as [|c' v'].
    + cbn [map str_join Demo.flex_tokens] in *. unfold Demo.re_escape in *.
      destruct (existsb (N.eqb c) Demo.re_special) eqn:E.
      * destruct fuel as [|[|fuel]]; simpl in Hf; try lia.
        now rewrite demo_tokenize_escaped.
      * destruct fuel as [|[|fuel]]; simpl in Hf; try lia.
        now rewrite demo_tokenize_plain.
    + change (map Demo.re_escape (c :: c' :: v'))
        with (Demo.re_escape c :: map Demo.re_escape (c' :: v')) in *.
      change (str_join (lit "\s*")
                (Demo.re_escape c :: map Demo.re_escape (c' :: v')))
        with (Demo.re_escape c ++ lit "\s*"
              ++ str_join (lit "\s*") (map Demo.re_escape (c' :: v'))) in *.
      change (Demo.flex_tokens (c :: c' :: v'))
        with (Demo.TChar c :: Demo.TSpaces :: Demo.flex_tokens (c' :: v')).
      set (rest := str_join (lit "\s*") (map Demo.re_escape (c' :: v'))) in *.
      rewrite !length_app in Hf.
      change (length (lit "\s*")) with 3 in Hf.
      change (lit "\s*" ++ rest) with (92%N :: 115%N :: 42%N :: rest).
      unfold Demo.re_escape in *.
      destruct (existsb (N.eqb c) Demo.re_special) eqn:E.
      * destruct fuel as [|[|fuel]]; simpl in Hf; try lia.
        change ([92%N; c] ++ 92%N :: 115%N :: 42%N :: rest)
          with (92%N :: c :: 92%N :: 115%N :: 42%N :: rest).
        rewrite demo_tokenize_escaped by exact E.
        rewrite demo_tokenize_spaces, IH by lia. reflexivity.
      * destruct fuel as [|[|fuel]]; simpl in Hf; try lia.
        change ([c] ++ 92%N :: 115%N :: 42%N :: rest)
          with (c :: 92%N :: 115%N :: 42%N :: rest).
        rewrite demo_tokenize_plain by exact E.
        rewrite demo_tokenize_spaces, IH by lia. reflexivity.
Qed.

Lemma demo_parse_flexible (v : str) :
  forallb (fun c => negb (existsb (N.eqb c) [68%N; DI; 73%N; A_])) v = true ->
  Demo.parse (_create_flexible_pattern Demo.py v)
  = Some (Demo.flex_tokens v).
Proof.
  intros Hv. rewrite (demo_flexible_pattern_plain v Hv).
  unfold Demo.parse. apply demo_flex_tokens. lia.
Qed.

(** ** Its matches *)

Lemma demo_leading_firstn (w : str) : forall k m,
  k <= Demo.leading_spaces w -> k <= leading is_space (firstn (k + m) w).
Proof.
  induction w as [|c w IH]; intros k m Hk; simpl in Hk.
  - assert (k = 0) by lia. subst k. lia.
  - destruct k as [|k]; [lia|]. cbn [Nat.add firstn leading].
    destruct (is_space c); [|lia].
    apply le_n_S, IH. lia.
Qed.

Lemma demo_leading_le (w : str) : Demo.leading_spaces w <= length w.
Proof.
  induction w as [|c w IH]; simpl; [lia|]. destruct (is_space c); lia.
Qed.

Lemma demo_match_spaces (ts : list Demo.token) (s : str) (n : nat) :
  Demo.match_here true (Demo.TSpaces :: ts) s = Some n ->
  exists k m, k <= Demo.leading_spaces s
              /\ Demo.match_here true ts (skipn k s) = Some m
              /\ n = k + m.
Proof.
  cbn [Demo.match_here].
  generalize (Demo.leading_spaces s). intros K.
  induction K as [|K IH]; cbv beta iota fix.
  - destruct (Demo.match_here true ts (skipn 0 s)) as [m|] eqn:E;
      [|discriminate].
    intros [= <-]. exists 0, m. auto.
  - destruct (Demo.match_here true ts (skipn (S K) s)) as [m|] eqn:E.
    + intros [= <-]. exists (S K), m. auto.
    + intros H. destruct (IH H) as (k & m & Hk & Hm & ->).
      exists k, m. auto.
Qed.

Lemma demo_match_reads (v : str) : forall w n,
  Demo.match_here true (Demo.flex_tokens v) w = Some n ->
  n <= length w
  /\ reads_as (Demo.same_char true) is_space (map FChar v) (firstn n w)
     = true.
Proof.
  induction v as [|c v IH]; intros w n.
  - simpl. intros [= <-]. split; [lia | reflexivity].
  - destruct v as [|c2 v'].
    + cbn [Demo.flex_tokens Demo.match_here].
      destruct w as [|c' w']; [discriminate|].
      destruct (Demo.same_char true c c') eqn:Es; [|discriminate].
      intros [= <-]. split; [simpl; lia|].
      cbn [firstn map reads_as flex_alternatives existsb strip_prefix].
      now rewrite Es.
    + change (Demo.flex_tokens (c :: c2 :: v'))
        with (Demo.TChar c :: Demo.TSpaces :: Demo.flex_tokens (c2 :: v')).
      cbn [Demo.match_here].
      destruct w as [|c' w']; [discriminate|].
      destruct (Demo.same_char true c c') eqn:Es; [|discriminate].
      change ((fix give_back (k : nat) : option nat := _)
                (Demo.leading_spaces w'))
        with (Demo.match_here true
                (Demo.TSpaces :: Demo.flex_tokens (c2 :: v')) w').
      destruct (Demo.match_here true
                  (Demo.TSpaces :: Demo.flex_tokens (c2 :: v')) w')
        as [n'|] eqn:En; [|discriminate].
      intros [= <-].
      apply demo_match_spaces in En as (k & m & Hk & Hm & ->).
      destruct (IH _ _ Hm) as [Hlen Hr].
      rewrite length_skipn in Hlen.
      pose proof (demo_leading_le w') as Hle.
      split; [simpl; lia|].
      change (map FChar (c :: c2 :: v'))
        with (FChar c :: map FChar (c2 :: v')).
      cbn [firstn reads_as flex_alternatives existsb strip_prefix].
      rewrite Es. cbn [map]. rewrite orb_false_r.
      apply existsb_exists. exists k. split.
      * apply in_seq. pose proof (demo_leading_firstn w' k m Hk). lia.
      * rewrite skipn_firstn_comm.
        replace (k + m - k) with m by lia. exact Hr.
Qed.

Lemma demo_spans_match (ic : bool) (ts : list Demo.token) : forall s i skip a b,
  In (a, b) (Demo.spans_from ic ts s i skip) ->
  i <= a
  /\ exists n, b = a + n
               /\ Demo.match_here ic ts (skipn (a - i) s) = Some n.
Proof.
  induction s as [|c s IH]; intros i skip a b.
  - destruct skip; cbn [Demo.spans_from]; [|intros []].
    destruct (Demo.match_here ic ts []) as [n|] eqn:E; [|intros []].
    intros [[= <- <-]|[]]. split; [lia|]. exists n.
    rewrite Nat.sub_diag. auto.
  - destruct skip as [|k]; cbn [Demo.spans_from].
    + destruct (Demo.match_here ic ts (c :: s)) as [n|] eqn:E.
      * intros [[= <- <-]|H].
        -- split; [lia|]. exists n. rewrite Nat.sub_diag. auto.
        -- destruct (IH _ _ _ _ H) as (Hi & m & -> & Hm).
           split; [lia|]. exists m. split; [reflexivity|].
           replace (a - i) with (S (a - S i)) by lia. exact Hm.
      * intros H. destruct (IH _ _ _ _ H) as (Hi & m & -> & Hm).
        split; [lia|]. exists m. split; [reflexivity|].
        replace (a - i) with (S (a - S i)) by lia. exact Hm.
    + intros H. destruct (IH _ _ _ _ H) as (Hi & m & -> & Hm).
      split; [lia|]. exists m. split; [reflexivity|].
      replace (a - i) with (S (a - S i)) by lia. exact Hm.
Qed.

(** On the reference engine, every span reported for the flexible
    pattern of such a keyword is the keyword in full, up to whitespace
    between its characters and ignoring case. *)
Lemma demo_engine_reads (v text : str) (s e : nat) :
  forallb (fun c => negb (existsb (N.eqb c) [68%N; DI; 73%N; A_])) v = true ->
  In (s, e) (Host.re_finditer Demo.py true
               (_create_flexible_pattern Demo.py v) text) ->
  reads_as (Demo.same_char true) is_space (flex_items v) (slice text s e)
  = true.
Proof.
  intros Hv Hin. cbn [Host.re_finditer Demo.py] in Hin.
  unfold Demo.re_finditer in Hin.
  rewrite (demo_parse_flexible v Hv) in Hin.
  apply demo_spans_match in Hin as (_ & n & -> & Hm).
  rewrite Nat.sub_0_r in Hm.
  apply demo_match_reads in Hm as [_ Hr].
  rewrite (flex_items_plain v Hv). unfold slice.
  replace (s + n - s) with n by lia. exact Hr.
Qed.

(* ================================================================== *)
(** * The statements on the reference configuration *)
(* ================================================================== *)

(** ** Overlap resolution *)

(** Two overlapping hits and a disjoint one: overlap is transitive here
    and the kept hits are the cluster winners. *)
Lemma c2_overlap_resolution_witness :
  dedup_hits [Demo.hit_b; Demo.hit_a; mkHit (lit "dd") [] 30 32 []]
  = cluster_winners
      (py_sorted [Demo.hit_b; Demo.hit_a; mkHit (lit "dd") [] 30 32 []]).
Proof.
  apply (proj2 (proj2 (proj2 (c2_overlap_resolution
    [Demo.hit_b; Demo.hit_a; mkHit (lit "dd") [] 30 32 []])))).
  reflexivity.
Defined.

(** C2 fails as stated.  The spans [0,10), [5,20) and [15,25) form one
    transitive overlap cluster, yet two representatives are kept; and
    of the overlapping pair [5,20), [15,25) the kept hit has the shorter
    keyword. *)
Lemma c2_counterexample :
  _is_overlapping_or_contained Demo.hit_a Demo.hit_b = true
  /\ _is_overlapping_or_contained Demo.hit_b Demo.hit_c = true
  /\ _remove_duplicates [(lit "c", [Demo.hit_a; Demo.hit_b; Demo.hit_c])]
     = [(lit "c", [Demo.hit_a; Demo.hit_c])]
  /\ length (keyword Demo.hit_c) < length (keyword Demo.hit_b).
Proof. repeat split; vm_compute; lia. Qed.

(** ** Detection calls *)

(** A catalog with the keywords ab and abc in one category, and a text
    with four surviving hits: ab twice, A B, and abc, which displaces
    the candidate of ab at the same start. *)
Lemma c9_result_order_witness :
  let hits :=
    [ mkHit (lit "ab") (lit "ab") 0 2 (lit "**ab**-**ab** A B **ab**c");
      mkHit (lit "ab") (lit "ab") 3 5 (lit "**ab**-**ab** A B **ab**c");
      mkHit (lit "ab") (lit "A B") 6 9 (lit "ab-ab **A B** abc");
      mkHit (lit "abc") (lit "abc") 10 13 (lit "ab-ab A B **abc**") ] in
  hits <> [] /\ StronglySorted (fun a b => key_lt a b = true) hits.
Proof.
  intros hits.
  apply (c9_result_order Demo.py (Demo.constants [])
           (__init__ Demo.py (Demo.constants [])
              Demo.rows_ab_abc None (lit "exact"))
           (lit "ab-ab A B abc") false false
           [(lit "c", hits)] (lit "c")); reflexivity.
Defined.


(** ** Literal occurrences *)

Lemma demo_set_order_In (l : list str) (x : str) :
  In x l -> In x (Demo.set_order l).
Proof.
  induction l as [|y l IH]; [intros []|]. simpl.
  destruct (str_eqb y x) eqn:E.
  - apply str_eqb_eq in E. now left.
  - intros [->|Hx]; [now rewrite str_eqb_refl in E|].
    right. apply filter_In. split; [auto | now rewrite E].
Qed.

(** The keyword is x followed by the Hangul spelling of DB.  It occurs
    literally in the text, and the alias rules rewrite it to xdb in the
    keyword and in the text alike. *)
Lemma c4_literal_occurrence_is_scanned_witness :
  let constants := Demo.constants [] in
  let k := lit "x" ++ [DI; BI] in
  let text := lit "a " ++ k ++ lit " b" in
  let self := __init__ Demo.py constants [[lit "1"; lit "c"; k]] None
                       (lit "exact") in
  exists h d,
    _normalize Demo.py constants (matched_text h)
    = _normalize Demo.py constants k
    /\ detect_keywords_in_text Demo.py constants self text false false
       = Ok d.
Proof.
  intros constants k text self.
  destruct (c4_literal_occurrence_is_scanned Demo.py constants
              [[lit "1"; lit "c"; k]] None text (lit "c") k
              (lit "a ") (lit " b") [k])
    as (items & raw_hits & h & d & _ & _ & _ & Hnorm & Hd & _).
  - exact demo_set_order_In.
  - reflexivity.
  - left. reflexivity.
  - reflexivity.
  - vm_compute. discriminate.
  - exists (lit "a "), (lit " b"). reflexivity.
  - reflexivity.
  - reflexivity.
  - exists h, d. split; assumption.
Defined.

(** C4 fails as stated.  The keyword ab occurs literally in xabc, but
    the candidate of ab is discarded in favour of the overlapping
    candidate of the longer keyword abc: the only returned hit matched
    abc. *)
Lemma c4_counterexample :
  let constants := Demo.constants [] in
  let self := __init__ Demo.py constants Demo.rows_ab_abc None (lit "exact") in
  let returned := mkHit (lit "abc") (lit "abc") 1 4 (lit "x**abc**") in
  dict_get (illegal_keywords self) (lit "c") = Some [lit "ab"; lit "abc"]
  /\ detect_keywords_in_text Demo.py constants self (lit "xabc") false false
     = Ok [(lit "c", [returned])]
  /\ _normalize Demo.py constants (matched_text returned)
     <> _normalize Demo.py constants (lit "ab").
Proof. repeat split. vm_compute. discriminate. Qed.

(** ** Offsets *)

(** C1 fails on this input.  With the empty string as a catalog keyword
    the combination scan reports hits whose span is empty:
    [start_position = end_position]. *)
Theorem c1_empty_keyword_gives_empty_span :
  detect_keywords_in_text Demo.py (Demo.constants [])
    (__init__ Demo.py (Demo.constants []) [[lit "1"; lit "c"; []]]
              None (lit "exact"))
    (lit "a") false true
  = Ok [(lit "c", [mkHit [] [] 0 0 (lit "****a****");
                   mkHit [] [] 1 1 (lit "****a****")])].
Proof. reflexivity. Qed.

(** With an alias rule that lengthens the working string, the substring
    scan reports offsets past the end of the caller's text: the text has
    two characters, the hit spans [4,5). *)
Lemma lengthening_alias_offsets_exceed_text :
  detect_keywords_in_text Demo.py Demo.lengthening_constants
    (__init__ Demo.py Demo.lengthening_constants [[lit "1"; lit "c"; lit "a"]]
              None (lit "exact"))
    (lit "za") false false
  = Ok [(lit "c", [mkHit (lit "a") [] 4 5 (lit "****z****a****")])].
Proof. reflexivity. Qed.

(** With the alias rules of the reference configuration the working
    string is shorter than the text and the reported span selects the
    wrong characters of the text. *)
Lemma shortening_alias_offsets_shifted :
  detect_keywords_in_text Demo.py (Demo.constants [])
    (__init__ Demo.py (Demo.constants []) [[lit "1"; lit "c"; lit "ab"]]
              None (lit "exact"))
    ([DI; 32%N; BI; 32%N] ++ lit "ab") false false
  = Ok [(lit "c", [mkHit (lit "ab") (lit " a") 3 5
                         ([DI; 32%N; BI] ++ lit "** a**b")])].
Proof. reflexivity. Qed.

(** ** Index-map translation *)

Lemma c3_translation_keeps_every_candidate_witness :
  exists d,
    detect_keywords_in_text Demo.py (Demo.constants [])
      (__init__ Demo.py (Demo.constants []) Demo.rows_ab_abc None (lit "exact"))
      (lit "xabc") false false = Ok d.
Proof.
  apply (c3_translation_keeps_every_candidate Demo.py (Demo.constants [])
           (__init__ Demo.py (Demo.constants []) Demo.rows_ab_abc None
                     (lit "exact"))
           (lit "xabc")).
  - apply init_well_compiled.
  - unfold lower_one_to_one. vm_compute. repeat constructor.
Defined.

(** C3 fails as stated.  U+0130 lower-cases to two characters, so the
    normalised text is longer than the index map; the lookup for the
    occurrence of ab raises [IndexError], which reaches the caller. *)
Lemma c3_counterexample :
  detect_keywords_in_text Demo.py (Demo.constants [])
    (__init__ Demo.py (Demo.constants []) Demo.rows_ab_abc None (lit "exact"))
    ([304%N] ++ lit "ab") false false
  = Raise IndexError.
Proof. reflexivity. Qed.

(** ** False-positive phrases *)

(** C5 fails on this input.  The phrase yz is configured for category c
    and occurs in the context of the hit: the substring scan drops the
    hit, the combination scan returns it. *)
Theorem c5_combination_scan_skips_false_positive_filter :
  let constants := Demo.constants [] in
  let self :=
    __init__ Demo.py constants [[lit "1"; lit "c"; lit "ab"]]
             (Some (mkDoc None (Some [(lit "c", [lit "yz"])])))
             (lit "exact") in
  detect_keywords_in_text Demo.py constants self (lit "ab yz") false false
  = Ok []
  /\ detect_keywords_in_text Demo.py constants self (lit "ab yz") false true
     = Ok [(lit "c", [mkHit (lit "ab") (lit "ab") 0 2 (lit "**ab** yz")])]
  /\ str_contains (_normalize Demo.py constants (lit "yz"))
                  (_normalize Demo.py constants (lit "**ab** yz")) = true.
Proof. repeat split. Qed.

(** ** A malformed category pattern *)

Lemma c8_malformed_pattern_surfaces_in_detection_witness :
  exists e,
    detect_keywords_in_text Demo.py (Demo.constants [(lit "c", [lit "["])])
      (__init__ Demo.py (Demo.constants [(lit "c", [lit "["])])
                Demo.rows_ab_abc None (lit "exact"))
      (lit "xab sell") true false = Raise e.
Proof.
  apply (proj2 (proj2 (c8_malformed_pattern_surfaces_in_detection
           Demo.py (Demo.constants [(lit "c", [lit "["])])
           Demo.rows_ab_abc None (lit "exact") (lit "xab sell")
           (lit "c") (lit "[") [] eq_refl eq_refl))
         [mkItem (lit "ab") (lit "ab"); mkItem (lit "abc") (lit "abc")]
         (mkItem (lit "ab") (lit "ab"))).
  - discriminate.
  - left. reflexivity.
  - left. reflexivity.
  - reflexivity.
Defined.

(** C8 fails as stated.  The pattern [ of category c does not compile;
    the matcher is constructed all the same, and the error is raised by
    the later detection call. *)
Lemma c8_counterexample :
  let constants := Demo.constants [(lit "c", [lit "["])] in
  let self := __init__ Demo.py constants Demo.rows_ab_abc None (lit "exact") in
  Host.re_valid Demo.py (lit "[") = false
  /\ compiled_norms self
     = [(lit "c", [mkItem (lit "ab") (lit "ab");
                   mkItem (lit "abc") (lit "abc")])]
  /\ detect_keywords_in_text Demo.py constants self (lit "xab sell")
                             true false
     = Raise ReError.
Proof. repeat split. Qed.

(* ================================================================== *)
(** * Further statements on the reference configuration *)
(* ================================================================== *)

(** ** Catalog *)

(** Without a document the catalog of a category is left as loaded. *)
Lemma x2_merge_is_additive_witness :
  exists added,
    dict_get_list
      (_maybe_merge_illegal_from_json [(lit "c", [lit "ab"])] None) (lit "c")
    = [lit "ab"] ++ added
    /\ added = [].
Proof.
  destruct (x2_merge_is_additive [(lit "c", [lit "ab"])] None (lit "c"))
    as (added & H1 & _ & _ & H4).
  exists added. split; [exact H1 | apply H4; reflexivity].
Defined.

(** The keyword ab of category c, in partial mode. *)
Lemma x20_every_keyword_is_compiled_witness :
  let constants := Demo.constants [] in
  let self := __init__ Demo.py constants Demo.rows_ab_abc None
                       (lit "partial") in
  exists items it,
    dict_get (compiled_norms self) (lit "c") = Some items
    /\ In it items
    /\ norm it = _normalize Demo.py constants (lit "ab").
Proof.
  intros constants self.
  apply (x20_every_keyword_is_compiled Demo.py constants Demo.rows_ab_abc
           None (lit "partial") (lit "c") (lit "ab")).
  - exact demo_set_order_In.
  - left. reflexivity.
  - vm_compute. discriminate.
  - vm_compute. lia.
Defined.

(** The compiled forms of category c of the catalog ab, abc. *)
Lemma x6_compiled_forms_witness :
  NoDup [lit "ab"; lit "abc"].
Proof.
  apply (proj1 (x6_compiled_forms Demo.py (Demo.constants [])
           Demo.rows_ab_abc None (lit "exact") (lit "c")
           [mkItem (lit "ab") (lit "ab"); mkItem (lit "abc") (lit "abc")]
           eq_refl)).
Defined.

(** ** Overlap *)

(** The spans [0,10) and [5,20). *)
Lemma x3_overlap_shares_an_offset_witness :
  _is_overlapping_or_contained Demo.hit_a Demo.hit_b = true <->
  exists p, 0 <= p < 10 /\ 5 <= p < 20.
Proof.
  apply (proj1 (proj2 (x3_overlap_shares_an_offset Demo.hit_a Demo.hit_b)));
    simpl; lia.
Defined.

(** The span [30,32) conflicts with neither [0,10) nor [5,20). *)
Lemma x5_isolated_hit_is_kept_witness :
  In (mkHit (lit "dd") [] 30 32 [])
     (dedup_hits [Demo.hit_b; Demo.hit_a; mkHit (lit "dd") [] 30 32 []]).
Proof.
  apply x5_isolated_hit_is_kept.
  - right. right. left. reflexivity.
  - intros h' [<-|[<-|[<-|[]]]] Hne; [reflexivity | reflexivity | congruence].
Defined.

(** ** Detection calls on the catalog ab, abc *)

Lemma x7_only_catalog_keywords_witness :
  In (lit "abc") [lit "ab"; lit "abc"].
Proof.
  apply (x7_only_catalog_keywords Demo.py (Demo.constants [])
           Demo.rows_ab_abc None (lit "exact") (lit "xabc") false false
           [(lit "c", [mkHit (lit "abc") (lit "abc") 1 4 (lit "x**abc**")])]
           (lit "c")
           [mkHit (lit "abc") (lit "abc") 1 4 (lit "x**abc**")]
           (mkHit (lit "abc") (lit "abc") 1 4 (lit "x**abc**")));
    [reflexivity | reflexivity | left; reflexivity].
Defined.

Lemma x8_hit_fields_agree_witness :
  lit "abc" = slice (lit "xabc") 1 4
  /\ lit "x**abc**" = _get_context (lit "xabc") 1 4 50.
Proof.
  apply (x8_hit_fields_agree Demo.py (Demo.constants [])
           (__init__ Demo.py (Demo.constants []) Demo.rows_ab_abc None
                     (lit "exact"))
           (lit "xabc") false false
           [(lit "c", [mkHit (lit "abc") (lit "abc") 1 4 (lit "x**abc**")])]
           (lit "c")
           [mkHit (lit "abc") (lit "abc") 1 4 (lit "x**abc**")]
           (mkHit (lit "abc") (lit "abc") 1 4 (lit "x**abc**")));
    [reflexivity | reflexivity | left; reflexivity].
Defined.

(** The text xab sell holds a trade indicator. *)
Lemma x9_returned_hits_passed_the_filter_witness :
  let constants := Demo.constants [] in
  _is_exact_keyword_pattern Demo.py constants (lit "ab") (lit "xab sell")
                            1 3 (lit "c") = Ok true
  /\ _is_valid_illegal_context Demo.py constants (lit "ab")
       (_get_context (lit "xab sell") 1 3 150) (lit "c") = true.
Proof.
  intros constants.
  apply (x9_returned_hits_passed_the_filter Demo.py constants
           (__init__ Demo.py constants Demo.rows_ab_abc None (lit "exact"))
           (lit "xab sell") false
           [(lit "c", [mkHit (lit "ab") (lit "ab") 1 3 (lit "x**ab** sell")])]
           (lit "c")
           [mkHit (lit "ab") (lit "ab") 1 3 (lit "x**ab** sell")]
           (mkHit (lit "ab") (lit "ab") 1 3 (lit "x**ab** sell")));
    [reflexivity | reflexivity | left; reflexivity].
Defined.

Lemma x12_offsets_within_working_string_witness :
  1 < 4 <= length (apply_aliases Demo.py (Demo.constants []) (lit "xabc"))
  /\ 4 <= length (lit "xabc").
Proof.
  destruct (x12_offsets_within_working_string Demo.py (Demo.constants [])
           Demo.rows_ab_abc None (lit "exact") (lit "xabc") false
           [(lit "c", [mkHit (lit "abc") (lit "abc") 1 4 (lit "x**abc**")])]
           (lit "c")
           [mkHit (lit "abc") (lit "abc") 1 4 (lit "x**abc**")]
           (mkHit (lit "abc") (lit "abc") 1 4 (lit "x**abc**"))
           eq_refl eq_refl (or_introl eq_refl)) as [H1 H2].
  split; [exact H1 | apply H2; vm_compute; lia].
Defined.

(** The phrase zz is configured as a false positive of category c. *)
Lemma x13_substring_scan_filters_false_positives_witness :
  let constants := Demo.constants [] in
  ~ occurs_in (_normalize Demo.py constants (lit "zz"))
              (_normalize Demo.py constants (lit "x**abc**")).
Proof.
  intros constants.
  apply (x13_substring_scan_filters_false_positives Demo.py constants
           (__init__ Demo.py constants Demo.rows_ab_abc
                     (Some (mkDoc None (Some [(lit "c", [lit "zz"])])))
                     (lit "exact"))
           (lit "xabc") false
           [(lit "c", [mkHit (lit "abc") (lit "abc") 1 4 (lit "x**abc**")])]
           (lit "c")
           [mkHit (lit "abc") (lit "abc") 1 4 (lit "x**abc**")]
           (mkHit (lit "abc") (lit "abc") 1 4 (lit "x**abc**"))
           (lit "zz"));
    [reflexivity | reflexivity | left; reflexivity | left; reflexivity
     | discriminate].
Defined.

(** Category c has the pattern ab.  Of the two candidates of ab in the
    text, the one at [1,3) follows the letter x, fails the word-boundary
    check and is pruned; the one at [20,22) passes.  Without the filter
    both scans record both candidates, in that order. *)
Lemma x14_secondary_filter_only_prunes_witness :
  let constants := Demo.constants [(lit "c", [lit "ab"])] in
  let text := lit "xab sell 0123456789 ab sell" in
  let ctx := lit "x**ab** sell 0123456789 **ab** sell" in
  let pruned := mkHit (lit "ab") (lit "ab") 1 3 ctx in
  let kept := mkHit (lit "ab") (lit "ab") 20 22 ctx in
  let norm_text := fst (_build_norm_map Demo.py constants text) in
  let idx_map := snd (_build_norm_map Demo.py constants text) in
  (scan_category Demo.py constants text norm_text idx_map false (lit "c")
                 [mkItem (lit "ab") (lit "ab")] = Ok [pruned; kept]
   /\ exists hits',
        scan_category Demo.py constants text norm_text idx_map false
                      (lit "c") [mkItem (lit "ab") (lit "ab")] = Ok hits'
        /\ subseq [kept] hits')
  /\ (foldM (combination_keyword Demo.py constants text false (lit "c"))
            [lit "ab"] [] = Ok [pruned; kept]
      /\ exists hits',
           foldM (combination_keyword Demo.py constants text false (lit "c"))
                 [lit "ab"] [] = Ok hits'
           /\ subseq [kept] hits').
Proof.
  intros constants text ctx pruned kept norm_text idx_map.
  split; (split; [reflexivity|]).
  - apply (proj1 (x14_secondary_filter_only_prunes Demo.py constants
                    text norm_text idx_map (lit "c"))).
    reflexivity.
  - apply (proj2 (x14_secondary_filter_only_prunes Demo.py constants
                    text norm_text idx_map (lit "c"))).
    reflexivity.
Defined.

(** A catalog whose only category has no keyword. *)
Lemma x15_empty_catalog_witness :
  detect_keywords_in_text Demo.py (Demo.constants [])
    (mkMatcher [(lit "c", [])] [(lit "c", [])] [] (lit "exact"))
    (lit "xabc") true false = Ok [].
Proof.
  apply x15_empty_catalog.
  - intros cat klist [[= _ <-]|[]]. reflexivity.
  - intros cat items [[= _ <-]|[]]. reflexivity.
Defined.

Lemma x16_context_marks_the_match_witness :
  occurs_in (lit "**" ++ slice (lit "xabc") 1 4 ++ lit "**")
            (_get_context (lit "xabc") 1 4 50).
Proof. apply x16_context_marks_the_match; simpl; lia. Defined.

Lemma x17_any_values_iff_nonempty_witness :
  any_values [(lit "c", [mkHit (lit "abc") (lit "abc") 1 4 (lit "x**abc**")])]
  = true
  <-> [(lit "c", [mkHit (lit "abc") (lit "abc") 1 4 (lit "x**abc**")])]
      <> [].
Proof.
  apply (x17_any_values_iff_nonempty Demo.py (Demo.constants [])
           (__init__ Demo.py (Demo.constants []) Demo.rows_ab_abc None
                     (lit "exact"))
           (lit "xabc") false false).
  reflexivity.
Defined.

(** ** Normalisation *)

Lemma x19_scan_text_is_normalized_text_witness :
  let constants := Demo.constants [] in
  fst (_build_norm_map Demo.py constants (lit "xA b"))
  = _normalize Demo.py constants (lit "xA b").
Proof.
  intros constants. apply x19_scan_text_is_normalized_text.
  - discriminate.
  - reflexivity.
  - vm_compute. repeat constructor.
Defined.

(** ** Category patterns *)

(** The pattern zz is not found in the keyword; ab is found in both. *)
Lemma x21_first_matching_pattern_decides_witness :
  _match_category_pattern Demo.py (lit "ab") (lit "x ab y")
                          [lit "zz"; lit "ab"]
  = _check_word_boundaries_regex Demo.py (lit "x ab y") (lit "ab").
Proof.
  apply (x21_first_matching_pattern_decides Demo.py (lit "ab") (lit "x ab y")
           [lit "zz"] [] (lit "ab")).
  - intros q [<-|[]]. split; [reflexivity | left; reflexivity].
  - reflexivity.
  - reflexivity.
  - reflexivity.
Defined.

Lemma x22_fallback_without_matching_pattern_witness :
  exists b,
    _match_category_pattern Demo.py (lit "a-b") (lit "xab") [lit "zz"] = Ok b
    /\ (b = true <->
        occurs_in (simple_normalize Demo.py (lit "a-b"))
                  (simple_normalize Demo.py (lit "xab"))).
Proof.
  apply x22_fallback_without_matching_pattern.
  intros q [<-|[]]. split; [reflexivity | left; reflexivity].
Defined.
